(** * Payload winch motor control: a shallow embedding and its properties

    The embedded program is the Raspberry Pi Pico firmware that drives a
    winch drum from the FG (frequency generator) pulse feed of a DC
    gearmotor: the distance/pulse converter, the slew-rate limiter, the
    stall/timeout guarded move and the anti-slip hold.  The repository
    holds two revisions of the firmware; the embedded one is the later,
    with the slew-rate limiter.  The converter is the same in both.

    Layout of the development:
    - [FloatArith]: the arithmetic the firmware does on [float], as an
      interface with two instances: [binary32] (IEEE 754 single precision,
      through the executable specification of the Standard Library) and
      [exact] (rational numbers, no rounding);
    - the hardware the firmware talks to: a microsecond timer, the FG edge
      interrupt and its counter, the PWM level and the direction pin, all
      in one [world] record, driven by an environment of [tick]s;
    - the firmware functions, in a state monad over [world], loops with
      fuel;
    - the vocabulary of the specifications and the inputs of the examples;
    - facts on the monad, the limiter, the brake, the move loop and the
      hold loop, for every instance of the arithmetic;
    - the properties of the move and of the hold in binary32, and those of
      the converter and of the limiter in exact arithmetic. *)

From Stdlib Require Import ZArith Bool List Lia.
From Stdlib Require Import QArith Qround Qabs Lqa.
From Stdlib Require Import Floats.SpecFloat.
Import ListNotations.

#[local] Open Scope Z_scope.

(* ------------------------------------------------------------------ *)
(** * Arithmetic on [float] *)

(** The operations the firmware applies to [float] values.  [to_uint] is
    the cast [(uint32_t)x] / [(uint)x]: truncation toward zero.  The cast
    is undefined in C++ for NaN and for values outside the range of the
    target type; both instances saturate there (NaN and negatives to 0,
    large values to [2^32 - 1]). *)
Class FloatArith (F : Type) : Type := {
  of_int : Z -> F;
  fadd : F -> F -> F;
  fsub : F -> F -> F;
  fmul : F -> F -> F;
  fdiv : F -> F -> F;
  fneg : F -> F;
  fabsf : F -> F;
  flt : F -> F -> bool;
  fle : F -> F -> bool;
  to_uint : F -> Z
}.

Definition UINT32_MAX : Z := 4294967295.

Definition wrap32 (z : Z) : Z := z mod 4294967296.

(** ** IEEE 754 binary32 *)

Module Binary32.

Definition prec : Z := 24.
Definition emax : Z := 128.

Definition float32 : Type := spec_float.

Definition of_Z (z : Z) : float32 := binary_normalize prec emax z 0 false.

(** Integer part of a float, toward zero, saturated to [0, 2^32 - 1]. *)
Definition trunc_uint (x : float32) : Z :=
  match x with
  | S754_finite false m e =>
      Z.min UINT32_MAX
        (match e with
         | Z0 => Zpos m
         | Zpos p => Z.shiftl (Zpos m) (Zpos p)
         | Zneg p => Z.shiftr (Zpos m) (Zpos p)
         end)
  | S754_infinity false => UINT32_MAX
  | _ => 0
  end.

End Binary32.

#[export] Instance binary32 : FloatArith Binary32.float32 := {
  of_int := Binary32.of_Z;
  fadd := SFadd Binary32.prec Binary32.emax;
  fsub := SFsub Binary32.prec Binary32.emax;
  fmul := SFmul Binary32.prec Binary32.emax;
  fdiv := SFdiv Binary32.prec Binary32.emax;
  fneg := SFopp;
  fabsf := SFabs;
  flt := SFltb;
  fle := SFleb;
  to_uint := Binary32.trunc_uint
}.

(** ** Exact rational arithmetic

    The same operations with no rounding, no infinities and no NaN: what
    the firmware computes when every [float] operation is exact. *)

Module Exact.

Definition trunc_uint (x : Q) : Z := Z.max 0 (Z.min UINT32_MAX (Qfloor x)).

Definition ltb (a b : Q) : bool := negb (Qle_bool b a).

End Exact.

#[export] Instance exact : FloatArith Q := {
  of_int := inject_Z;
  fadd := Qplus;
  fsub := Qminus;
  fmul := Qmult;
  fdiv := Qdiv;
  fneg := Qopp;
  fabsf := Qabs;
  flt := Exact.ltb;
  fle := Qle_bool;
  to_uint := Exact.trunc_uint
}.

(* ------------------------------------------------------------------ *)
(** * The firmware *)

Section Firmware.

Context {F : Type} `{FloatArith F}.

(** A decimal literal [n / d] with [n] and [d] exactly representable:
    the correctly rounded quotient is the literal's value. *)
Definition lit (n d : Z) : F := fdiv (of_int n) (of_int d).

(** ** User configuration *)

Definition PWM_WRAP : Z := 6249.
Definition GEAR_RATIO : F := of_int 14.
Definition FG_PULSES_PER_MOTOR_REV : Z := 6.
Definition DRUM_DIAMETER_M : F := lit 50 1000.

(** [(float)M_PI]: the binary32 nearest to pi, 0x40490FDB. *)
Definition M_PI_f : F := lit 13176795 4194304.

Definition drum_circumference_m : F := fmul M_PI_f DRUM_DIAMETER_M.

Definition pulses_per_meter : F :=
  let pulses_per_output_rev := fmul GEAR_RATIO (of_int FG_PULSES_PER_MOTOR_REV) in
  let meters_per_output_rev := drum_circumference_m in
  fdiv pulses_per_output_rev meters_per_output_rev.

Definition target_pulses_for_meters (meters : F) : Z :=
  if fle meters (of_int 0) then 0
  else to_uint (fadd (fmul meters pulses_per_meter) (lit 1 2)).

(** ** Hardware state and environment *)

(** What happens between two observations of the hardware by the main
    line: [tick_dt] microseconds pass and [tick_edges] rising edges
    arrive on the FG line. *)
Record tick : Type := { tick_dt : N; tick_edges : N }.

(** An output of the firmware: a PWM channel level or a level of the
    direction pin. *)
Inductive output : Type :=
| PwmLevel (level : Z)
| DirPin (high : bool).

(** The slew-rate limiter [g_slew]. *)
Record slew_t : Type := {
  current : F;
  target : F;
  rate : F;
  last_t : Z;
  initialized : bool
}.

(** Timer, FG counter (a [uint32_t]), the enable of the FG edge
    interrupt, [g_slew], the outputs written so far (latest first) and
    the position in the environment. *)
Record world : Type := {
  now_us : Z;
  g_fg_pulses : Z;
  fg_irq_enabled : bool;
  g_slew : slew_t;
  outputs : list output;
  env_pos : nat
}.

Definition g_slew_boot : slew_t :=
  {| current := of_int 0; target := of_int 0; rate := of_int 200;
     last_t := 0; initialized := false |}.

Definition boot : world :=
  {| now_us := 0; g_fg_pulses := 0; fg_irq_enabled := true;
     g_slew := g_slew_boot; outputs := []; env_pos := 0 |}.

Definition set_now_us (t : Z) (w : world) : world :=
  {| now_us := t; g_fg_pulses := g_fg_pulses w;
     fg_irq_enabled := fg_irq_enabled w; g_slew := g_slew w;
     outputs := outputs w; env_pos := env_pos w |}.

Definition set_g_fg_pulses (p : Z) (w : world) : world :=
  {| now_us := now_us w; g_fg_pulses := p;
     fg_irq_enabled := fg_irq_enabled w; g_slew := g_slew w;
     outputs := outputs w; env_pos := env_pos w |}.

Definition set_fg_irq_enabled (b : bool) (w : world) : world :=
  {| now_us := now_us w; g_fg_pulses := g_fg_pulses w;
     fg_irq_enabled := b; g_slew := g_slew w;
     outputs := outputs w; env_pos := env_pos w |}.

Definition set_g_slew (s : slew_t) (w : world) : world :=
  {| now_us := now_us w; g_fg_pulses := g_fg_pulses w;
     fg_irq_enabled := fg_irq_enabled w; g_slew := s;
     outputs := outputs w; env_pos := env_pos w |}.

Definition emit (o : output) (w : world) : world :=
  {| now_us := now_us w; g_fg_pulses := g_fg_pulses w;
     fg_irq_enabled := fg_irq_enabled w; g_slew := g_slew w;
     outputs := o :: outputs w; env_pos := env_pos w |}.

Variable env : nat -> tick.

(** [fg_irq_handler], run once per edge: [g_fg_pulses++] on a
    [uint32_t], when the interrupt is enabled. *)
Definition fg_irq_edges (n : N) (w : world) : world :=
  if fg_irq_enabled w
  then set_g_fg_pulses (wrap32 (g_fg_pulses w + Z.of_N n)) w
  else w.

(** The environment moves on by one tick. *)
Definition advance (w : world) : world :=
  let k := env (env_pos w) in
  let w1 := fg_irq_edges (tick_edges k) w in
  {| now_us := now_us w1 + Z.of_N (tick_dt k);
     g_fg_pulses := g_fg_pulses w1;
     fg_irq_enabled := fg_irq_enabled w1; g_slew := g_slew w1;
     outputs := outputs w1; env_pos := S (env_pos w1) |}.

(** ** The monad of the main line

    State over [world]; [None] is a loop that ran out of fuel. *)
Definition M (A : Type) : Type := world -> option (A * world).

Definition ret {A} (a : A) : M A := fun w => Some (a, w).

Definition bind {A B} (m : M A) (k : A -> M B) : M B :=
  fun w => match m w with
           | Some (a, w') => k a w'
           | None => None
           end.

Definition out_of_fuel {A} : M A := fun _ => None.

Definition gets {A} (f : world -> A) : M A := fun w => Some (f w, w).

Definition modify (f : world -> world) : M unit := fun w => Some (tt, f w).

Notation "x <- m ;; k" := (bind m (fun x => k))
  (at level 61, m at next level, right associativity).
Notation "m ;;; k" := (bind m (fun _ => k))
  (at level 61, right associativity).

(** ** SDK primitives *)

(** Each call of [get_absolute_time] and each read of the volatile
    [g_fg_pulses] is one observation of the hardware: the environment
    moves on by one tick, then the value is read.

    The 64-bit microsecond timer does not wrap within the life of the
    device and is an unbounded integer here. *)
Definition get_absolute_time : M Z :=
  fun w => let w' := advance w in Some (now_us w', w').

Definition absolute_time_diff_us (from to : Z) : Z := to - from.

(** A read of the volatile [g_fg_pulses]. *)
Definition read_fg_pulses : M Z :=
  fun w => let w' := advance w in Some (g_fg_pulses w', w').

(** [sleep_ms]: at least [ms] milliseconds pass. *)
Definition sleep_ms (ms : Z) : M unit :=
  fun w => Some (tt, advance (set_now_us (now_us w + ms * 1000) w)).

Definition gpio_set_irq_enabled (enabled : bool) : M unit :=
  modify (set_fg_irq_enabled enabled).

Definition pwm_set_chan_level (level : Z) : M unit :=
  modify (emit (PwmLevel level)).

Definition gpio_put_dir (high : bool) : M unit :=
  modify (emit (DirPin high)).

(** The reset of the counter, between the disable and the enable of the
    FG interrupt. *)
Definition reset_fg_pulses : M unit :=
  gpio_set_irq_enabled false ;;;
  modify (set_g_fg_pulses 0) ;;;
  gpio_set_irq_enabled true.

(** ** PWM duty *)

(** The two guards [if (percent < 0) percent = 0;] and
    [if (percent > 100) percent = 100;], which [set_speed] and
    [slew_set_target] both start with. *)
Definition clamp_percent (percent : F) : F :=
  let percent := if flt percent (of_int 0) then of_int 0 else percent in
  if flt (of_int 100) percent then of_int 100 else percent.

Definition duty_level (percent : F) : Z :=
  to_uint (fmul (fdiv (clamp_percent percent) (of_int 100)) (of_int PWM_WRAP)).

Definition set_speed (percent : F) : M unit :=
  pwm_set_chan_level (duty_level percent).

(** ** Slew rate limiter *)

Definition slew_init (start_percent : F) : M unit :=
  now_t <- get_absolute_time ;;
  modify (fun w =>
    set_g_slew {| current := start_percent; target := start_percent;
                  rate := rate (g_slew w); last_t := now_t;
                  initialized := true |} w) ;;;
  set_speed start_percent.

(** [if (!g_slew.initialized) slew_init(0.0f);], the first statement of
    [slew_set_target] and of [slew_update]. *)
Definition ensure_initialized : M unit :=
  init <- gets (fun w => initialized (g_slew w)) ;;
  if init then ret tt else slew_init (of_int 0).

(** The two stores of [slew_set_target]. *)
Definition slew_store_target (target_percent rate_percent_per_sec : F)
    (s : slew_t) : slew_t :=
  {| current := current s;
     target := clamp_percent target_percent;
     rate := if fle rate_percent_per_sec (of_int 0) then of_int 1
             else rate_percent_per_sec;
     last_t := last_t s; initialized := initialized s |}.

Definition slew_set_target (target_percent rate_percent_per_sec : F) : M unit :=
  ensure_initialized ;;;
  modify (fun w =>
    set_g_slew (slew_store_target target_percent rate_percent_per_sec (g_slew w)) w).

(** The new [current] of one update over [dt_us > 0] microseconds. *)
Definition slew_step (s : slew_t) (dt_us : Z) : F :=
  let dt_s := fdiv (of_int dt_us) (of_int 1000000) in
  let max_step := fmul (rate s) dt_s in
  let error := fsub (target s) (current s) in
  if fle (fabsf error) max_step then target s
  else fadd (current s)
            (if flt (of_int 0) error then max_step else fneg max_step).

(** [g_slew] after an update at [now_t]. *)
Definition slew_advance (s : slew_t) (now_t : Z) : slew_t :=
  {| current := slew_step s (absolute_time_diff_us (last_t s) now_t);
     target := target s; rate := rate s;
     last_t := now_t; initialized := initialized s |}.

Definition slew_update : M unit :=
  ensure_initialized ;;;
  now_t <- get_absolute_time ;;
  s <- gets g_slew ;;
  let dt_us := absolute_time_diff_us (last_t s) now_t in
  if dt_us <=? 0 then ret tt
  else
    modify (set_g_slew (slew_advance s now_t)) ;;;
    cur <- gets (fun w => current (g_slew w)) ;;
    set_speed cur.


(** ** Braking *)

(** The settle loop of [brake_to_stop]; [fuel] bounds its iterations,
    as in every loop below. *)
Fixpoint brake_wait (fuel : nat) (t0 settle_us : Z) : M unit :=
  match fuel with
  | O => out_of_fuel
  | S fuel' =>
      t <- get_absolute_time ;;
      if absolute_time_diff_us t0 t <? settle_us
      then slew_update ;;; brake_wait fuel' t0 settle_us
      else ret tt
  end.

Definition brake_to_stop (fuel : nat) (settle_ms : Z) : M unit :=
  slew_set_target (of_int 0) (of_int 400) ;;;
  t0 <- get_absolute_time ;;
  brake_wait fuel t0 (settle_ms * 1000).

(** Wiring convention: LOW = CW, HIGH = CCW. *)
Definition set_direction_cw (cw : bool) : M unit :=
  gpio_put_dir (negb cw).

(** ** Move by distance *)

(** The arguments of [move_meters] after [cw] and [meters]. *)
Record move_args : Type := {
  cruise_percent : F;
  timeout_ms : Z;
  padding_m : F;
  padding_speed : F;
  stall_window_us : Z
}.

(** The defaults of the declaration: padding 0.2 m at 50 %, stall window
    500 ms. *)
Definition move_defaults (cruise : F) (timeout : Z) : move_args :=
  {| cruise_percent := cruise; timeout_ms := timeout;
     padding_m := lit 2 10; padding_speed := of_int 50;
     stall_window_us := 500000 |}.

(** If the move is too short for padding, go slow the entire way. *)
Definition pad_pulses_for (target_p : Z) (padding : F) : Z :=
  let pad_pulses := target_pulses_for_meters padding in
  if wrap32 (pad_pulses * 2) >=? target_p then target_p / 2 else pad_pulses.

(** The least pulses expected in a stall window, by band of the
    commanded speed. *)
Definition min_pulses_for (cmd : F) : Z :=
  if flt cmd (of_int 15) then 0
  else if flt cmd (of_int 40) then 1
  else if flt cmd (of_int 70) then 2
  else 3.

(** [(now < target) ? (target - now) : 0]. *)
Definition remaining_pulses (now target_p : Z) : Z :=
  if now <? target_p then target_p - now else 0.

(** The speed selection of the loop body. *)
Definition desired_speed_for (a : move_args) (now target_p pad_pulses : Z) : F :=
  let remaining := remaining_pulses now target_p in
  if now <? pad_pulses then padding_speed a
  else if remaining <? pad_pulses then padding_speed a
  else cruise_percent a.

(** The locals of [move_meters] that change in the loop. *)
Record move_locals : Type := {
  last_speed : F;
  stall_ref_time : Z;
  stall_ref_pulses : Z
}.

(** How a part of the loop body ends: the function returns, or the body
    goes on. *)
Inductive flow (A : Type) : Type :=
| Return (result : bool)
| Continue (locals : A).
Arguments Return {A} result.
Arguments Continue {A} locals.

Definition stall_detection (fuel : nat) (a : move_args) (l : move_locals)
    : M (flow move_locals) :=
  t <- get_absolute_time ;;
  if absolute_time_diff_us (stall_ref_time l) t >? stall_window_us a then
    p <- read_fg_pulses ;;
    let dp := wrap32 (p - stall_ref_pulses l) in
    cmd <- gets (fun w => target (g_slew w)) ;;
    let min_pulses := min_pulses_for cmd in
    if (min_pulses >? 0) && (dp <? min_pulses) then
      brake_to_stop fuel 300 ;;;
      ret (Return false)
    else
      p' <- read_fg_pulses ;;
      t' <- get_absolute_time ;;
      ret (Continue {| last_speed := last_speed l;
                       stall_ref_time := t';
                       stall_ref_pulses := p' |})
  else ret (Continue l).

Definition timeout_check (fuel : nat) (a : move_args) (t0 : Z) (l : move_locals)
    : M (flow move_locals) :=
  t <- get_absolute_time ;;
  if absolute_time_diff_us t0 t >? timeout_ms a * 1000 then
    brake_to_stop fuel 300 ;;;
    ret (Return false)
  else ret (Continue l).

Definition speed_selection (a : move_args) (now target_p pad_pulses : Z)
    (l : move_locals) : M move_locals :=
  let desired_speed := desired_speed_for a now target_p pad_pulses in
  if flt (lit 1 100) (fabsf (fsub desired_speed (last_speed l))) then
    slew_set_target desired_speed (of_int 200) ;;;
    ret {| last_speed := desired_speed;
           stall_ref_time := stall_ref_time l;
           stall_ref_pulses := stall_ref_pulses l |}
  else ret l.

Definition move_body (fuel : nat) (a : move_args) (target_p pad_pulses t0 : Z)
    (l : move_locals) : M (flow move_locals) :=
  slew_update ;;;
  now <- read_fg_pulses ;;
  r <- stall_detection fuel a l ;;
  match r with
  | Return b => ret (Return b)
  | Continue l1 =>
      r <- timeout_check fuel a t0 l1 ;;
      match r with
      | Return b => ret (Return b)
      | Continue l2 =>
          l3 <- speed_selection a now target_p pad_pulses l2 ;;
          ret (Continue l3)
      end
  end.

Fixpoint move_loop (fuel : nat) (a : move_args) (target_p pad_pulses t0 : Z)
    (l : move_locals) : M bool :=
  match fuel with
  | O => out_of_fuel
  | S fuel' =>
      p <- read_fg_pulses ;;
      if p <? target_p then
        r <- move_body fuel' a target_p pad_pulses t0 l ;;
        match r with
        | Return b => ret b
        | Continue l' => move_loop fuel' a target_p pad_pulses t0 l'
        end
      else
        brake_to_stop fuel' 300 ;;;
        ret true
  end.

Definition move_meters (fuel : nat) (cw : bool) (meters : F) (a : move_args)
    : M bool :=
  let target_p := target_pulses_for_meters meters in
  if target_p =? 0 then ret true
  else
    let pad_pulses := pad_pulses_for target_p (padding_m a) in
    reset_fg_pulses ;;;
    set_direction_cw cw ;;;
    let start_speed :=
      if pad_pulses >? 0 then padding_speed a else cruise_percent a in
    slew_set_target start_speed (of_int 200) ;;;
    t0 <- get_absolute_time ;;
    stall_ref_time0 <- get_absolute_time ;;
    stall_ref_pulses0 <- read_fg_pulses ;;
    move_loop fuel a target_p pad_pulses t0
      {| last_speed := start_speed;
         stall_ref_time := stall_ref_time0;
         stall_ref_pulses := stall_ref_pulses0 |}.

(** ** Hold *)

Record hold_args : Type := {
  nudge_speed_percent : F;
  deadband_pulses : Z;
  nudge_pulses : Z;
  min_nudge_gap_ms : Z
}.

Definition hold_defaults : hold_args :=
  {| nudge_speed_percent := of_int 50; deadband_pulses := 1;
     nudge_pulses := 80; min_nudge_gap_ms := 250 |}.

Fixpoint nudge_wait (fuel : nat) (a : hold_args) : M unit :=
  match fuel with
  | O => out_of_fuel
  | S fuel' =>
      p <- read_fg_pulses ;;
      if p <? nudge_pulses a
      then slew_update ;;; nudge_wait fuel' a
      else ret tt
  end.

(** One nudge up; the result is the new [last_nudge]. *)
Definition nudge (fuel : nat) (tow_up_cw : bool) (a : hold_args) : M Z :=
  reset_fg_pulses ;;;
  set_direction_cw tow_up_cw ;;;
  slew_set_target (nudge_speed_percent a) (of_int 400) ;;;
  nudge_wait fuel a ;;;
  brake_to_stop fuel 200 ;;;
  reset_fg_pulses ;;;
  get_absolute_time.

Definition hold_body (fuel : nat) (tow_up_cw : bool) (a : hold_args)
    (last_nudge : Z) : M Z :=
  slew_update ;;;
  p <- read_fg_pulses ;;
  if p >? deadband_pulses a then
    t <- get_absolute_time ;;
    if absolute_time_diff_us last_nudge t >? min_nudge_gap_ms a * 1000
    then nudge fuel tow_up_cw a
    else ret last_nudge
  else ret last_nudge.

Fixpoint hold_loop (fuel : nat) (hold_ms : Z) (tow_up_cw : bool) (a : hold_args)
    (t0 last_nudge : Z) : M bool :=
  match fuel with
  | O => out_of_fuel
  | S fuel' =>
      t <- get_absolute_time ;;
      if absolute_time_diff_us t0 t <? hold_ms * 1000 then
        last_nudge' <- hold_body fuel' tow_up_cw a last_nudge ;;
        sleep_ms 10 ;;;
        hold_loop fuel' hold_ms tow_up_cw a t0 last_nudge'
      else ret true
  end.

Definition hold_payload_ms (fuel : nat) (hold_ms : Z) (tow_up_cw : bool)
    (a : hold_args) : M bool :=
  brake_to_stop fuel 200 ;;;
  reset_fg_pulses ;;;
  t0 <- get_absolute_time ;;
  last_nudge <- get_absolute_time ;;
  hold_loop fuel hold_ms tow_up_cw a t0 last_nudge.

(** ** Public API *)

Definition unwind_payload_m (fuel : nat) (meters speed_percent : F) : M bool :=
  move_meters fuel false meters (move_defaults speed_percent 60000).

Definition wind_payload_m (fuel : nat) (meters speed_percent : F) : M bool :=
  move_meters fuel true meters (move_defaults speed_percent 60000).

End Firmware.

Arguments Return {A} result.
Arguments Continue {A} locals.
Arguments advance : simpl never.

(* ------------------------------------------------------------------ *)
(** * Vocabulary of the specifications *)

Section Vocabulary.

Context {F : Type} `{FloatArith F}.
Variable env : nat -> tick.

#[local] Abbreviation world := (@world F).

(** Microseconds that pass during the [n] ticks from position [i]. *)
Fixpoint elapsed (i n : nat) : Z :=
  match n with
  | O => 0
  | S n' => Z.of_N (tick_dt (env i)) + elapsed (S i) n'
  end.

(** The timer is alive: any [K] consecutive observations of the
    hardware take at least one microsecond. *)
Definition paced (K : nat) : Prop := forall i, 1 <= elapsed i K.

(** No FG edge arrives from position [i] on. *)
Definition silent_from (i : nat) : Prop :=
  forall j, (i <= j)%nat -> tick_edges (env j) = 0%N.

(** [w'] comes after [w]: the environment has moved on, and the timer
    with it. *)
Definition later (w w' : world) : Prop :=
  (env_pos w <= env_pos w')%nat /\
  now_us w + elapsed (env_pos w) (env_pos w' - env_pos w) <= now_us w'.

(** The computation [m] returns from [w], with a result and a final
    world that satisfy [Q]. *)
Definition returns {A} (m : @M F A) (w : world) (Q : A -> world -> Prop) : Prop :=
  exists a w', m w = Some (a, w') /\ Q a w'.

(** The slew limiter is initialised and commands [t] at rate [r]. *)
Definition commands (t r : F) (w : world) : Prop :=
  initialized (g_slew w) = true /\
  target (g_slew w) = t /\
  rate (g_slew w) = r.



(** A property of the world that the passing of time, a store to
    [g_slew] and an output do not break. *)
Definition stable (P : world -> Prop) : Prop :=
  (forall w, P w -> P (advance env w)) /\
  (forall w s, P w -> P (set_g_slew s w)) /\
  (forall w o, P w -> P (emit o w)).

(** The counter stays at zero while no edge arrives. *)
Definition idle (w : world) : Prop :=
  g_fg_pulses w = 0 /\ silent_from (env_pos w).

(** What one [slew_update] does on an initialised limiter: nothing but
    the read of the timer when no time has passed since the last update,
    else one step of [current] and one write of the PWM level. *)
Definition slew_update_result (w : world) : world :=
  let w1 := advance env w in
  let s := g_slew w1 in
  let dt_us := absolute_time_diff_us (last_t s) (now_us w1) in
  if dt_us <=? 0 then w1
  else
    let s' := slew_advance s (now_us w1) in
    emit (PwmLevel (duty_level (current s'))) (set_g_slew s' w1).

(** Fuel that lets a brake of [settle_ms] return when the timer is paced
    by [K]. *)
Definition brake_fuel (K : nat) (settle_ms : Z) : nat :=
  K * Z.to_nat (settle_ms * 1000) + 1.

(** The command the brake leaves in the limiter. *)
Definition braked (w : world) : Prop :=
  commands (clamp_percent (of_int 0))
           (if fle (of_int 400) (of_int 0) then of_int 1 else of_int 400) w.

(** The loop of [move_meters] is entered from [w]: the counter is below
    the target, the limiter is updated, the counter is read into [now];
    [ws] is the world in which the stall detection starts. *)
Definition enters_body (target_p : Z) (w : world) (now : Z) (ws : world) : Prop :=
  exists p w0 w1,
    read_fg_pulses env w = Some (p, w0) /\ p < target_p /\
    slew_update env w0 = Some (tt, w1) /\
    read_fg_pulses env w1 = Some (now, ws).



(** Fuel that lets a move with timeout [timeout] return when the timer
    is paced by [K]. *)
Definition move_fuel (K : nat) (timeout : Z) : nat :=
  K * Z.to_nat (timeout * 1000 + 1) + brake_fuel K 300 + 1.


End Vocabulary.

(* ------------------------------------------------------------------ *)
(** * Actions on the world *)

Section Actions.

Context {F : Type} `{FloatArith F}.
Variable env : nat -> tick.

#[local] Abbreviation world := (@world F).

(** What the firmware functions do to the world, one step at a time: an
    observation of the hardware, the waiting of [sleep_ms], the reset of
    the counter, a write of the direction pin, the stores and the PWM
    write of [slew_init], the stores of [slew_set_target], and the step
    of [slew_update] (none when the timer has not moved since the last
    one). *)
Inductive action : Type :=
| Tick
| Sleep (ms : Z)
| ResetCounter
| WriteDir (high : bool)
| SlewInit (start_percent : F)
| SlewStore (target_percent rate_percent_per_sec : F)
| SlewStep.

Definition apply_action (a : action) (w : world) : world :=
  match a with
  | Tick => advance env w
  | Sleep ms => set_now_us (now_us w + ms * 1000) w
  | ResetCounter =>
      set_fg_irq_enabled true (set_g_fg_pulses 0 (set_fg_irq_enabled false w))
  | WriteDir high => emit (DirPin high) w
  | SlewInit start_percent =>
      emit (PwmLevel (duty_level start_percent))
        (set_g_slew {| current := start_percent; target := start_percent;
                       rate := rate (g_slew w); last_t := now_us w;
                       initialized := true |} w)
  | SlewStore target_percent r =>
      set_g_slew (slew_store_target target_percent r (g_slew w)) w
  | SlewStep =>
      let s := g_slew w in
      if absolute_time_diff_us (last_t s) (now_us w) <=? 0 then w
      else
        let s' := slew_advance s (now_us w) in
        emit (PwmLevel (duty_level (current s'))) (set_g_slew s' w)
  end.

Definition run_actions (acts : list action) (w : world) : world :=
  fold_left (fun w a => apply_action a w) acts w.

(** Whenever [m] returns, it has done a sequence of actions that all
    satisfy [ok]. *)
Definition traces {A} (ok : action -> Prop) (m : @M F A) : Prop :=
  forall w a w',
    m w = Some (a, w') ->
    exists acts, Forall ok acts /\ w' = run_actions acts w.

(** Whenever [m] returns from [w], the result and the final world
    satisfy [Q]. *)
Definition ensures {A} (m : @M F A) (w : world) (Q : A -> world -> Prop) : Prop :=
  forall a w', m w = Some (a, w') -> Q a w'.

(** The actions of the limiter: observations, the initialisation at 0 %,
    stores of a target and steps. *)
Definition drive_action (a : action) : Prop :=
  match a with
  | Tick | SlewStore _ _ | SlewStep => True
  | SlewInit start_percent => start_percent = of_int 0
  | Sleep _ | ResetCounter | WriteDir _ => False
  end.

(** The actions of a hold with nudges toward [tow_up_cw]. *)
Definition hold_action (tow_up_cw : bool) (a : action) : Prop :=
  match a with
  | Sleep ms => ms = 10
  | ResetCounter => True
  | WriteDir high => high = negb tow_up_cw
  | _ => drive_action a
  end.

(** Edges that arrive on the FG line during the [n] ticks from position
    [i]. *)
Fixpoint arrived (i n : nat) : Z :=
  match n with
  | O => 0
  | S n' => Z.of_N (tick_edges (env i)) + arrived (S i) n'
  end.

(** Consecutive observations are at most [gap] microseconds apart. *)
Definition gapped (gap : Z) : Prop :=
  forall i, Z.of_N (tick_dt (env i)) <= gap.

(** The level the PWM channel carries: the latest one written. *)
Fixpoint last_pwm (os : list output) : option Z :=
  match os with
  | [] => None
  | PwmLevel level :: _ => Some level
  | DirPin _ :: os' => last_pwm os'
  end.

(** The level of the direction pin: the latest one written. *)
Fixpoint last_dir (os : list output) : option bool :=
  match os with
  | [] => None
  | DirPin high :: _ => Some high
  | PwmLevel _ :: os' => last_dir os'
  end.

(** Once the limiter is initialised, the PWM channel carries the duty of
    its [current]. *)
Definition pwm_tracks (w : world) : Prop :=
  initialized (g_slew w) = true ->
  last_pwm (outputs w) = Some (duty_level (current (g_slew w))).

(** The counter holds the edges that arrived since position [p0],
    modulo [2^32], and the FG interrupt is enabled. *)
Definition counts_from (p0 : nat) (w : world) : Prop :=
  fg_irq_enabled w = true /\
  (p0 <= env_pos w)%nat /\
  g_fg_pulses w = wrap32 (arrived p0 (env_pos w - p0)).



(** The limiter is initialised and commands a speed of the band in
    which the stall detection expects no pulse. *)
Definition unwatched (w : world) : Prop :=
  initialized (g_slew w) = true /\ min_pulses_for (target (g_slew w)) = 0.

(** The counter holds the edges that arrived since some reset, and the
    outputs since [base] are PWM levels only. *)
Definition undisturbed (base : list output) (w : world) : Prop :=
  (exists p0, counts_from p0 w) /\
  (exists levels, outputs w = map PwmLevel levels ++ base).

End Actions.

Arguments Tick {F}.
Arguments Sleep {F} ms.
Arguments ResetCounter {F}.
Arguments WriteDir {F} high.
Arguments SlewStep {F}.

(* ------------------------------------------------------------------ *)
(** * Diagnostics and the main program *)

Section Program.

Context {F : Type} `{FloatArith F}.
Variable env : nat -> tick.

(** The level of the FG pin at each position of the environment, as
    [gpio_get (FG_PIN)] reads it. *)
Variable fg_level : nat -> bool.

#[local] Abbreviation world := (@world F).
#[local] Abbreviation M := (@M F).

#[local] Notation "x <- m ;; k" := (bind m (fun x => k))
  (at level 61, m at next level, right associativity).
#[local] Notation "m ;;; k" := (bind m (fun _ => k))
  (at level 61, right associativity).

Definition pwm_init_motor : M unit := pwm_set_chan_level 0.

Definition gpio_get_fg : M bool := gets (fun w => fg_level (env_pos w)).

(** A line of the monitor: [pulses], [dp] and [FG_lvl]. *)
Record report : Type := { rep_pulses : Z; rep_dp : Z; rep_lvl : bool }.

(** The loop of [monitor_fg_for_ms]; [log] holds the lines printed so
    far, in order. *)
Fixpoint monitor_loop (fuel : nat) (ms t0 last : Z) (log : list report)
    : M (list report) :=
  match fuel with
  | O => out_of_fuel
  | S fuel' =>
      t <- get_absolute_time env ;;
      if absolute_time_diff_us t0 t <? ms * 1000 then
        slew_update env ;;;
        sleep_ms env 200 ;;;
        cur <- read_fg_pulses env ;;
        let dp := wrap32 (cur - last) in
        lvl <- gpio_get_fg ;;
        monitor_loop fuel' ms t0 cur
          (log ++ [{| rep_pulses := cur; rep_dp := dp; rep_lvl := lvl |}])
      else ret log
  end.

(** The result is what the function prints: the lines of the loop and
    the total of the last line. *)
Definition monitor_fg_for_ms (fuel : nat) (ms : Z) : M (list report * Z) :=
  reset_fg_pulses ;;;
  t0 <- get_absolute_time env ;;
  log <- monitor_loop fuel ms t0 0 [] ;;
  total <- read_fg_pulses env ;;
  ret (log, total).

(** A line of the hand-spin test: [pulses], [dp], [lvl], [cmd], [cur]. *)
Record hand_report : Type := {
  hand_pulses : Z;
  hand_dp : Z;
  hand_lvl : bool;
  hand_cmd : F;
  hand_cur : F
}.

Fixpoint hand_spin_loop (fuel : nat) (ms t0 last : Z) (log : list hand_report)
    : M (list hand_report) :=
  match fuel with
  | O => out_of_fuel
  | S fuel' =>
      t <- get_absolute_time env ;;
      if absolute_time_diff_us t0 t <? ms * 1000 then
        slew_update env ;;;
        sleep_ms env 200 ;;;
        cur <- read_fg_pulses env ;;
        lvl <- gpio_get_fg ;;
        s <- gets g_slew ;;
        hand_spin_loop fuel' ms t0 cur
          (log ++ [{| hand_pulses := cur; hand_dp := wrap32 (cur - last);
                      hand_lvl := lvl; hand_cmd := target s;
                      hand_cur := current s |}])
      else ret log
  end.

Definition fg_hand_spin_test (fuel : nat) (ms : Z) (wake_percent wake_rate : F)
    : M (list hand_report * Z) :=
  set_direction_cw true ;;;
  slew_set_target env wake_percent wake_rate ;;;
  reset_fg_pulses ;;;
  t0 <- get_absolute_time env ;;
  log <- hand_spin_loop fuel ms t0 0 [] ;;
  brake_to_stop env fuel 200 ;;;
  total <- read_fg_pulses env ;;
  ret (log, total).

(** [main] up to its loop: the FG interrupt is enabled, the PWM slice
    set up, and the program waits 5 s. *)
Definition main_init : M unit :=
  gpio_set_irq_enabled true ;;;
  pwm_init_motor ;;;
  sleep_ms env 5000.

(** One round of the loop of [main]; the results of the three calls are
    dropped, as in the source. *)
Definition main_cycle (fuel : nat) : M unit :=
  unwind_payload_m env fuel (lit 6 10) (of_int 100) ;;;
  hold_payload_ms env fuel 2000 true hold_defaults ;;;
  wind_payload_m env fuel (lit 6 10) (of_int 100) ;;;
  sleep_ms env 5000.

(** [main] with the first [rounds] rounds of its endless loop. *)
Fixpoint main_rounds (fuel rounds : nat) : M unit :=
  match rounds with
  | O => ret tt
  | S rounds' => main_cycle fuel ;;; main_rounds fuel rounds'
  end.

Definition main (fuel rounds : nat) : M unit :=
  main_init ;;; main_rounds fuel rounds.

(** The levels written to the direction pin, latest first. *)
Fixpoint dir_writes (os : list output) : list bool :=
  match os with
  | [] => []
  | DirPin high :: os' => high :: dir_writes os'
  | PwmLevel _ :: os' => dir_writes os'
  end.

(** What the monitor keeps while it runs: the counter in the range of
    [uint32_t], no output but PWM levels, and time moving forward. *)
Definition watching (base : list output) (t : Z) (w : world) : Prop :=
  0 <= g_fg_pulses w < 4294967296 /\
  (exists levels, outputs w = map PwmLevel levels ++ base) /\
  t <= now_us w.

(** The sum of the [dp] column and the last entry of the [pulses]
    column. *)
Definition sum_dp (log : list report) : Z :=
  fold_right (fun r acc => rep_dp r + acc) 0 log.

Definition last_pulses (log : list report) : Z :=
  last (map rep_pulses log) 0.

End Program.

(** ** The limiter in exact arithmetic *)






(* ------------------------------------------------------------------ *)
(** * The first revision of the firmware

    [Motor-Control.cpp]: the same pins, constants, [set_speed],
    [set_direction_cw] and converter, a blocking ramp in place of the
    limiter.  [current], the static local of [ramp_to], is passed to
    each function that reaches [ramp_to] and returned by it. *)

Module Legacy.

Section Firmware.

Context {F : Type} `{FloatArith F}.
Variable env : nat -> tick.

#[local] Abbreviation world := (@world F).
#[local] Abbreviation M := (@M F).

#[local] Notation "x <- m ;; k" := (bind m (fun x => k))
  (at level 61, m at next level, right associativity).
#[local] Notation "m ;;; k" := (bind m (fun _ => k))
  (at level 61, right associativity).

(** [for (float p = current; p <= target_percent; p += step_percent)]. *)
Fixpoint ramp_up (fuel : nat) (p target_percent : F) (step_delay_ms : Z)
    (step_percent : F) : M unit :=
  match fuel with
  | O => out_of_fuel
  | S fuel' =>
      if fle p target_percent then
        set_speed p ;;;
        sleep_ms env step_delay_ms ;;;
        ramp_up fuel' (fadd p step_percent) target_percent step_delay_ms step_percent
      else ret tt
  end.

(** [for (float p = current; p >= target_percent; p -= step_percent)]. *)
Fixpoint ramp_down (fuel : nat) (p target_percent : F) (step_delay_ms : Z)
    (step_percent : F) : M unit :=
  match fuel with
  | O => out_of_fuel
  | S fuel' =>
      if fle target_percent p then
        set_speed p ;;;
        sleep_ms env step_delay_ms ;;;
        ramp_down fuel' (fsub p step_percent) target_percent step_delay_ms step_percent
      else ret tt
  end.

(** The result is the new value of the static [current]. *)
Definition ramp_to (fuel : nat) (target_percent : F) (step_delay_ms : Z)
    (step_percent current : F) : M F :=
  (if flt current target_percent
   then ramp_up fuel current target_percent step_delay_ms step_percent
   else ramp_down fuel current target_percent step_delay_ms step_percent) ;;;
  ret target_percent.

Definition brake_to_stop (fuel : nat) (settle_ms : Z) (current : F) : M F :=
  current' <- ramp_to fuel (of_int 0) 10 (of_int 1) current ;;
  sleep_ms env settle_ms ;;;
  ret current'.

(** The locals of [move_meters] that change in the loop, and the static
    [current] of the ramp. *)
Record move_locals : Type := {
  last_pulses : Z;
  last_progress : Z;
  slowdown_triggered : bool;
  ramp_current : F
}.

(** How a part of the loop body ends: the function returns, with the
    [current] the ramp is left with, or the body goes on. *)
Inductive outcome : Type :=
| Done (result : bool) (current : F)
| Go (locals : move_locals).

(** The stall check of the loop body: progress, or no pulse for 300 ms. *)
Definition progress_check (fuel : nat) (now : Z) (l : move_locals) : M outcome :=
  if negb (now =? last_pulses l) then
    t <- get_absolute_time env ;;
    ret (Go {| last_pulses := now; last_progress := t;
               slowdown_triggered := slowdown_triggered l;
               ramp_current := ramp_current l |})
  else
    t <- get_absolute_time env ;;
    if absolute_time_diff_us (last_progress l) t >? 300000 then
      current' <- brake_to_stop fuel 300 (ramp_current l) ;;
      ret (Done false current')
    else ret (Go l).

Definition timeout_check (fuel : nat) (timeout_ms t0 : Z) (l : move_locals)
    : M outcome :=
  t <- get_absolute_time env ;;
  if absolute_time_diff_us t0 t >? timeout_ms * 1000 then
    current' <- brake_to_stop fuel 300 (ramp_current l) ;;
    ret (Done false current')
  else ret (Go l).

(** Slowdown near the end, once: [remaining] is a [uint32_t]
    difference. *)
Definition slowdown (fuel : nat) (now target_p : Z) (l : move_locals)
    : M move_locals :=
  let remaining := wrap32 (target_p - now) in
  if negb (slowdown_triggered l) && (remaining <? target_p / 5) then
    current' <- ramp_to fuel (of_int 50) 10 (of_int 1) (ramp_current l) ;;
    ret {| last_pulses := last_pulses l; last_progress := last_progress l;
           slowdown_triggered := true; ramp_current := current' |}
  else ret l.

Definition move_body (fuel : nat) (timeout_ms target_p t0 : Z) (l : move_locals)
    : M outcome :=
  now <- read_fg_pulses env ;;
  r <- progress_check fuel now l ;;
  match r with
  | Done b c => ret (Done b c)
  | Go l1 =>
      r <- timeout_check fuel timeout_ms t0 l1 ;;
      match r with
      | Done b c => ret (Done b c)
      | Go l2 =>
          l3 <- slowdown fuel now target_p l2 ;;
          ret (Go l3)
      end
  end.

(** The result is the result of [move_meters] and the new [current] of
    the ramp. *)
Fixpoint move_loop (fuel : nat) (timeout_ms target_p t0 : Z) (l : move_locals)
    : M (bool * F) :=
  match fuel with
  | O => out_of_fuel
  | S fuel' =>
      p <- read_fg_pulses env ;;
      if p <? target_p then
        r <- move_body fuel' timeout_ms target_p t0 l ;;
        match r with
        | Done b c => ret (b, c)
        | Go l' => move_loop fuel' timeout_ms target_p t0 l'
        end
      else
        current' <- brake_to_stop fuel' 300 (ramp_current l) ;;
        ret (true, current')
  end.

Definition move_meters (fuel : nat) (cw : bool) (meters cruise_percent : F)
    (timeout_ms : Z) (current : F) : M (bool * F) :=
  let target_p := target_pulses_for_meters meters in
  if target_p =? 0 then ret (true, current)
  else
    modify (set_g_fg_pulses 0) ;;;
    set_direction_cw cw ;;;
    current' <- ramp_to fuel cruise_percent 10 (of_int 1) current ;;
    t0 <- get_absolute_time env ;;
    last_progress0 <- get_absolute_time env ;;
    move_loop fuel timeout_ms target_p t0
      {| last_pulses := 0; last_progress := last_progress0;
         slowdown_triggered := false; ramp_current := current' |}.

(** [while (g_fg_pulses < nudge_pulses) { tight_loop_contents(); }]. *)
Fixpoint nudge_wait (fuel : nat) (a : @hold_args F) : M unit :=
  match fuel with
  | O => out_of_fuel
  | S fuel' =>
      p <- read_fg_pulses env ;;
      if p <? nudge_pulses a then nudge_wait fuel' a else ret tt
  end.

(** One nudge up; the result is the new [last_nudge] and the new
    [current] of the ramp. *)
Definition nudge (fuel : nat) (tow_up_cw : bool) (a : @hold_args F) (current : F)
    : M (Z * F) :=
  modify (set_g_fg_pulses 0) ;;;
  set_direction_cw tow_up_cw ;;;
  current1 <- ramp_to fuel (nudge_speed_percent a) 8 (of_int 10) current ;;
  nudge_wait fuel a ;;;
  current2 <- brake_to_stop fuel 200 current1 ;;
  modify (set_g_fg_pulses 0) ;;;
  t <- get_absolute_time env ;;
  ret (t, current2).

Definition hold_body (fuel : nat) (tow_up_cw : bool) (a : @hold_args F)
    (last_nudge : Z) (current : F) : M (Z * F) :=
  p <- read_fg_pulses env ;;
  if p >? deadband_pulses a then
    t <- get_absolute_time env ;;
    if absolute_time_diff_us last_nudge t >? min_nudge_gap_ms a * 1000
    then nudge fuel tow_up_cw a current
    else ret (last_nudge, current)
  else ret (last_nudge, current).

Fixpoint hold_loop (fuel : nat) (hold_ms : Z) (tow_up_cw : bool) (a : @hold_args F)
    (t0 last_nudge : Z) (current : F) : M (bool * F) :=
  match fuel with
  | O => out_of_fuel
  | S fuel' =>
      t <- get_absolute_time env ;;
      if absolute_time_diff_us t0 t <? hold_ms * 1000 then
        r <- hold_body fuel' tow_up_cw a last_nudge current ;;
        sleep_ms env 10 ;;;
        hold_loop fuel' hold_ms tow_up_cw a t0 (fst r) (snd r)
      else ret (true, current)
  end.

Definition hold_payload_ms (fuel : nat) (hold_ms : Z) (tow_up_cw : bool)
    (a : @hold_args F) (current : F) : M (bool * F) :=
  current' <- brake_to_stop fuel 200 current ;;
  modify (set_g_fg_pulses 0) ;;;
  t0 <- get_absolute_time env ;;
  last_nudge <- get_absolute_time env ;;
  hold_loop fuel hold_ms tow_up_cw a t0 last_nudge current'.

End Firmware.

(** What the ramp keeps: since [base] only PWM levels were written, and
    the timer has reached [t]. *)
Definition ramping {F : Type} (base : list output) (t : Z) (w : @world F) : Prop :=
  (exists levels, outputs w = map PwmLevel levels ++ base) /\ t <= now_us w.



End Legacy.

(* ------------------------------------------------------------------ *)
(** * Inputs of the examples *)

(** Environments of the examples: an observation every 10 ms, with no
    edge ([quiet]) or with one edge each ([busy]). *)
Definition quiet : nat -> tick := fun _ => {| tick_dt := 10000; tick_edges := 0 |}.
Definition busy : nat -> tick := fun _ => {| tick_dt := 10000; tick_edges := 1 |}.

(** The limiter initialised and commanding 50 % at 200 %/s, the drive
    still at 0 %, the counter at 0. *)
Definition cruising : @world Binary32.float32 :=
  {| now_us := 0; g_fg_pulses := 0; fg_irq_enabled := true;
     g_slew := {| current := of_int 0; target := of_int 50; rate := of_int 200;
                  last_t := 0; initialized := true |};
     outputs := []; env_pos := 0 |}.



(** The FG pin reads low at every observation. *)
Definition fg_low : nat -> bool := fun _ => false.

(** An observation every 10 ms and a single edge, at observation 40. *)
Definition one_slip : nat -> tick :=
  fun i => {| tick_dt := 10000; tick_edges := if (i =? 40)%nat then 1 else 0 |}.


(** Observations so close that the microsecond timer does not move. *)
Definition frozen : nat -> tick := fun _ => {| tick_dt := 0; tick_edges := 0 |}.

(** [cruising] with the counter two pulses short of a target of 321. *)
Definition near_target : @world Binary32.float32 := set_g_fg_pulses 319 cruising.

(** One edge every 20 observations, 1 ms apart. *)
Definition slow_pulses : nat -> tick :=
  fun i => {| tick_dt := 1000; tick_edges := if (i mod 20 =? 0)%nat then 1 else 0 |}.


(* ------------------------------------------------------------------ *)
(** * The constants in binary32 *)

(** [0.6f] is 0x3F19999A, [(float)M_PI] is 0x40490FDB, and the pulses
    per metre are 534.76: about 535, as the source says. *)
Example literal_0_6 :
  @lit Binary32.float32 binary32 6 10 = S754_finite false 10066330 (-24).
Proof. vm_compute. reflexivity. Qed.

Example literal_pi :
  @M_PI_f Binary32.float32 binary32 = S754_finite false 13176795 (-22).
Proof. vm_compute. reflexivity. Qed.

Example pulses_per_meter_value :
  @pulses_per_meter Binary32.float32 binary32 = S754_finite false 8761518 (-14) /\
  to_uint (fadd (@pulses_per_meter Binary32.float32 binary32) (lit 1 2)) = 535.
Proof. split; vm_compute; reflexivity. Qed.

(** A move of 0.6 m with an edge at every observation reaches its 321
    pulses and returns [true], the limiter commanding 0 and the counter at
    or above the target. *)
Example move_reaches_target :
  exists w' : @world Binary32.float32,
    move_meters busy 200 false (lit 6 10) (move_defaults (of_int 100) 60000) boot
      = Some (true, w') /\
    target (g_slew w') = of_int 0 /\
    321 <= g_fg_pulses w'.
Proof.
  eexists. split; [vm_compute; reflexivity|].
  split; vm_compute; [reflexivity | discriminate].
Qed.

(* ------------------------------------------------------------------ *)
(** * The monad and the environment *)

Section MonadFacts.

Context {F : Type} `{FloatArith F}.
Variable env : nat -> tick.

#[local] Abbreviation world := (@world F).
#[local] Abbreviation M := (@M F).

Lemma returns_ret {A} (a : A) (w : world) (Q : A -> world -> Prop) :
  Q a w -> returns (ret a) w Q.
Proof. intros HQ. exists a, w. split; [reflexivity | exact HQ]. Qed.

Lemma returns_bind {A B} (m : M A) (k : A -> M B) w (Q : B -> world -> Prop) :
  returns m w (fun a w' => returns (k a) w' Q) -> returns (bind m k) w Q.
Proof.
  intros (a & w1 & Hm & b & w2 & Hk & HQ).
  exists b, w2. unfold bind. rewrite Hm. split; assumption.
Qed.

Lemma returns_weaken {A} (m : M A) w (Q Q' : A -> world -> Prop) :
  returns m w Q -> (forall a w', Q a w' -> Q' a w') -> returns m w Q'.
Proof.
  intros (a & w1 & Hm & HQ) Himp. exists a, w1. split; auto.
Qed.

Lemma elapsed_nonneg i n : 0 <= elapsed env i n.
Proof.
  revert i. induction n as [|n IH]; intros i; simpl; [lia|].
  specialize (IH (S i)). lia.
Qed.

Lemma elapsed_add i a b :
  elapsed env i (a + b) = elapsed env i a + elapsed env (i + a) b.
Proof.
  revert i. induction a as [|a IH]; intros i; simpl.
  - rewrite Nat.add_0_r. lia.
  - rewrite IH. replace (S i + a)%nat with (i + S a)%nat by lia. lia.
Qed.

Lemma elapsed_mono i n n' : (n <= n')%nat -> elapsed env i n <= elapsed env i n'.
Proof.
  intros Hle. replace n' with (n + (n' - n))%nat by lia.
  rewrite elapsed_add. pose proof (elapsed_nonneg (i + n) (n' - n)). lia.
Qed.

Lemma paced_elapsed K i m : paced env K -> Z.of_nat m <= elapsed env i (K * m).
Proof.
  intros HK. revert i. induction m as [|m IH]; intros i.
  - rewrite Nat.mul_0_r. simpl. lia.
  - replace (K * S m)%nat with (K + K * m)%nat by lia.
    rewrite elapsed_add. specialize (HK i). specialize (IH (i + K)%nat). lia.
Qed.

Lemma later_refl (w : world) : later env w w.
Proof. split; [lia|]. rewrite Nat.sub_diag. simpl. lia. Qed.

Lemma later_trans (w1 w2 w3 : world) :
  later env w1 w2 -> later env w2 w3 -> later env w1 w3.
Proof.
  intros [Hp1 Ht1] [Hp2 Ht2]. split; [lia|].
  replace (env_pos w3 - env_pos w1)%nat
    with ((env_pos w2 - env_pos w1) + (env_pos w3 - env_pos w2))%nat by lia.
  rewrite elapsed_add.
  replace (env_pos w1 + (env_pos w2 - env_pos w1))%nat with (env_pos w2) by lia.
  lia.
Qed.

(** After [K * d] ticks at least [d] microseconds have passed. *)
Lemma later_paced K (w w' : world) d :
  paced env K -> later env w w' ->
  (K * d <= env_pos w' - env_pos w)%nat ->
  now_us w + Z.of_nat d <= now_us w'.
Proof.
  intros HK [Hp Ht] Hd.
  pose proof (paced_elapsed K (env_pos w) d HK).
  pose proof (elapsed_mono (env_pos w) _ _ Hd). lia.
Qed.

Lemma advance_pos (w : world) : env_pos (advance env w) = S (env_pos w).
Proof. unfold advance, fg_irq_edges. destruct (fg_irq_enabled w); reflexivity. Qed.

Lemma advance_now (w : world) :
  now_us (advance env w) = now_us w + Z.of_N (tick_dt (env (env_pos w))).
Proof. unfold advance, fg_irq_edges. destruct (fg_irq_enabled w); reflexivity. Qed.

Lemma advance_slew (w : world) : g_slew (advance env w) = g_slew w.
Proof. unfold advance, fg_irq_edges. destruct (fg_irq_enabled w); reflexivity. Qed.

Lemma advance_outputs (w : world) : outputs (advance env w) = outputs w.
Proof. unfold advance, fg_irq_edges. destruct (fg_irq_enabled w); reflexivity. Qed.

Lemma advance_irq (w : world) : fg_irq_enabled (advance env w) = fg_irq_enabled w.
Proof.
  unfold advance, fg_irq_edges.
  destruct (fg_irq_enabled w) eqn:E; simpl; congruence.
Qed.

Lemma advance_pulses (w : world) :
  g_fg_pulses (advance env w) =
  if fg_irq_enabled w
  then wrap32 (g_fg_pulses w + Z.of_N (tick_edges (env (env_pos w))))
  else g_fg_pulses w.
Proof. unfold advance, fg_irq_edges. destruct (fg_irq_enabled w); reflexivity. Qed.

Lemma later_advance (w : world) : later env w (advance env w).
Proof.
  split; rewrite advance_pos; [lia|].
  replace (S (env_pos w) - env_pos w)%nat with 1%nat by lia.
  rewrite advance_now. simpl. lia.
Qed.

End MonadFacts.

(* ------------------------------------------------------------------ *)
(** * The slew limiter and the brake *)

Section SlewFacts.

Context {F : Type} `{FloatArith F}.
Variable env : nat -> tick.

#[local] Abbreviation world := (@world F).

Lemma stable_later (w0 : world) : stable env (later env w0).
Proof.
  split; [|split].
  - intros w Hw. eapply later_trans; [exact Hw | apply later_advance].
  - intros w s Hw. exact Hw.
  - intros w o Hw. exact Hw.
Qed.

Lemma stable_pos n : stable env (fun w : world => (n <= env_pos w)%nat).
Proof.
  split; [|split].
  - intros w Hw. rewrite advance_pos. lia.
  - intros w s Hw. exact Hw.
  - intros w o Hw. exact Hw.
Qed.

Lemma stable_idle : stable env (idle (F:=F) env).
Proof.
  split; [|split].
  - intros w [Hp Hs]. split.
    + rewrite advance_pulses, Hp, (Hs (env_pos w)) by lia.
      destruct (fg_irq_enabled w); reflexivity.
    + rewrite advance_pos. intros j Hj. apply Hs. lia.
  - intros w s Hw. exact Hw.
  - intros w o Hw. exact Hw.
Qed.

Lemma slew_init_spec start (w : world) :
  returns (slew_init env start) w (fun _ w' =>
    g_slew w' = {| current := start; target := start; rate := rate (g_slew w);
                   last_t := now_us (advance env w); initialized := true |} /\
    outputs w' = PwmLevel (duty_level start) :: outputs w /\
    (env_pos w < env_pos w')%nat /\
    forall P, stable env P -> P w -> P w').
Proof.
  eexists; eexists; split; [reflexivity|].
  cbn. rewrite advance_slew, advance_outputs, advance_pos.
  repeat split; try lia.
  intros P (P1 & P2 & P3) HP. apply P3. apply (P2 (advance env w)). auto.
Qed.

Lemma ensure_initialized_spec (w : world) :
  returns (ensure_initialized env) w (fun _ w' =>
    initialized (g_slew w') = true /\
    (initialized (g_slew w) = true -> w' = w) /\
    rate (g_slew w') = rate (g_slew w) /\
    (forall P, stable env P -> P w -> P w')).
Proof.
  unfold returns, ensure_initialized, bind, gets.
  destruct (initialized (g_slew w)) eqn:Hi.
  - exists tt, w. split; [reflexivity|]. auto.
  - destruct (slew_init_spec (of_int 0) w) as (a & w' & Hr & Hs & Ho & Hp & HP).
    exists a, w'. split; [exact Hr|]. rewrite Hs. cbn.
    repeat split; auto. discriminate.
Qed.

Lemma slew_set_target_spec tp r (w : world) :
  returns (slew_set_target env tp r) w (fun _ w' =>
    commands (clamp_percent tp)
             (if fle r (of_int 0) then of_int 1 else r) w' /\
    (initialized (g_slew w) = true ->
       w' = set_g_slew (slew_store_target tp r (g_slew w)) w) /\
    (forall P, stable env P -> P w -> P w')).
Proof.
  unfold slew_set_target. apply returns_bind.
  eapply returns_weaken; [apply ensure_initialized_spec|].
  intros [] w1 (Hi & Hsame & Hr & HP). simpl.
  apply returns_ret. unfold commands. cbn.
  repeat split; auto.
  - intros Hw. rewrite (Hsame Hw). reflexivity.
  - intros P HsP HPw. pose proof HsP as (_ & P2 & _). apply P2.
    apply HP; assumption.
Qed.

Lemma slew_update_initialized (w : world) :
  initialized (g_slew w) = true ->
  slew_update env w = Some (tt, slew_update_result env w).
Proof.
  intros Hi. unfold slew_update_result.
  cbv [slew_update bind ensure_initialized gets ret modify get_absolute_time
       set_speed pwm_set_chan_level].
  rewrite Hi. cbn.
  destruct (absolute_time_diff_us _ _ <=? 0); reflexivity.
Qed.

Lemma slew_update_result_facts (w : world) :
  let w' := slew_update_result env w in
  target (g_slew w') = target (g_slew w) /\
  rate (g_slew w') = rate (g_slew w) /\
  initialized (g_slew w') = initialized (g_slew w) /\
  env_pos w' = S (env_pos w) /\
  (forall P, stable env P -> P w -> P w').
Proof.
  unfold slew_update_result.
  destruct (absolute_time_diff_us _ _ <=? 0); cbn;
    rewrite ?advance_slew, ?advance_pos; repeat split; auto.
  - intros P (P1 & _) HP. auto.
  - intros P (P1 & P2 & P3) HP. apply P3, (P2 (advance env w)). auto.
Qed.

Lemma slew_update_spec (w : world) :
  returns (slew_update env) w (fun _ w' =>
    initialized (g_slew w') = true /\
    (initialized (g_slew w) = true ->
       target (g_slew w') = target (g_slew w) /\
       rate (g_slew w') = rate (g_slew w)) /\
    (env_pos w < env_pos w')%nat /\
    (forall P, stable env P -> P w -> P w')).
Proof.
  destruct (initialized (g_slew w)) eqn:Hi.
  - exists tt, (slew_update_result env w). split; [apply slew_update_initialized; exact Hi|].
    destruct (slew_update_result_facts w) as (Ht & Hr & Hi' & Hp & HP).
    repeat split; auto; try congruence. lia.
  - destruct (slew_init_spec (of_int 0) w) as ([] & w1 & Hr1 & Hs1 & Ho1 & Hp1 & HP1).
    exists tt, (slew_update_result env w1). split.
    + assert (Hi1 : initialized (g_slew w1) = true) by (rewrite Hs1; reflexivity).
      pose proof (slew_update_initialized w1 Hi1) as Hu.
      cbv [slew_update bind ensure_initialized gets ret] in Hu |- *.
      rewrite Hi, Hr1. rewrite Hi1 in Hu. exact Hu.
    + destruct (slew_update_result_facts w1) as (Ht & Hr & Hi' & Hp & HP).
      repeat split; auto.
      * rewrite Hi', Hs1. reflexivity.
      * discriminate.
      * discriminate.
      * lia.
      * intros P HsP HPw. apply HP; [exact HsP|]. apply HP1; assumption.
Qed.

End SlewFacts.

Section BrakeFacts.

Context {F : Type} `{FloatArith F}.
Variable env : nat -> tick.

#[local] Abbreviation world := (@world F).

Lemma returns_get_absolute_time (w : world) (Q : Z -> world -> Prop) :
  Q (now_us (advance env w)) (advance env w) ->
  returns (get_absolute_time env) w Q.
Proof. intros HQ. eexists; eexists; split; [reflexivity | exact HQ]. Qed.

Lemma returns_read_fg_pulses (w : world) (Q : Z -> world -> Prop) :
  Q (g_fg_pulses (advance env w)) (advance env w) ->
  returns (read_fg_pulses env) w Q.
Proof. intros HQ. eexists; eexists; split; [reflexivity | exact HQ]. Qed.

Lemma returns_gets {A} (f : world -> A) (w : world) (Q : A -> world -> Prop) :
  Q (f w) w -> returns (gets f) w Q.
Proof. intros HQ. eexists; eexists; split; [reflexivity | exact HQ]. Qed.

Lemma returns_modify (f : world -> world) (w : world) (Q : unit -> world -> Prop) :
  Q tt (f w) -> returns (modify f) w Q.
Proof. intros HQ. eexists; eexists; split; [reflexivity | exact HQ]. Qed.

Lemma stable_advance (P : world -> Prop) (w : world) :
  stable env P -> P w -> P (advance env w).
Proof. intros (P1 & _) HP. auto. Qed.

(** The settle wait of the brake returns as soon as the timer has moved
    by [settle_us]; it keeps the command of the limiter. *)
Lemma brake_wait_returns (K : nat) (w0 : world) (settle_us : Z) :
  paced env K ->
  forall (fuel : nat) (w : world),
    later env w0 w ->
    initialized (g_slew w) = true ->
    (1 <= fuel)%nat ->
    (K * Z.to_nat settle_us + 1 <= fuel + (env_pos w - env_pos w0))%nat ->
    returns (brake_wait env fuel (now_us w0) settle_us) w (fun _ w' =>
      initialized (g_slew w') = true /\
      target (g_slew w') = target (g_slew w) /\
      rate (g_slew w') = rate (g_slew w) /\
      (forall P, stable env P -> P w -> P w')).
Proof.
  intros HK. induction fuel as [|fuel IH]; intros w Hl Hi H1 Hb; [lia|].
  cbn [brake_wait]. apply returns_bind, returns_get_absolute_time.
  pose proof (later_advance env w) as Hadv.
  pose proof (later_trans env _ _ _ Hl Hadv) as Hl1.
  unfold absolute_time_diff_us.
  destruct (now_us (advance env w) - now_us w0 <? settle_us) eqn:Hlt.
  - apply Z.ltb_lt in Hlt.
    assert (Hpos : (env_pos (advance env w) - env_pos w0 < K * Z.to_nat settle_us)%nat).
    { destruct (Nat.lt_ge_cases (env_pos (advance env w) - env_pos w0)
                                (K * Z.to_nat settle_us)) as [Hc|Hc]; [exact Hc|].
      pose proof (later_paced env K _ _ _ HK Hl1 Hc). lia. }
    rewrite advance_pos in Hpos. destruct Hl as [Hp0 _].
    apply returns_bind.
    eapply returns_weaken; [apply slew_update_spec|].
    intros [] w2 (Hi2 & Hkeep & Hp2 & HP2). cbv beta.
    rewrite advance_slew in Hkeep. destruct (Hkeep Hi) as [Ht2 Hr2].
    rewrite advance_pos in Hp2.
    eapply returns_weaken.
    + apply IH; [|exact Hi2|lia|lia].
      apply (HP2 _ (stable_later env w0)). exact Hl1.
    + intros [] w3 (Hi3 & Ht3 & Hr3 & HP3). cbv beta.
      repeat split; try congruence.
      intros P HsP HPw. apply HP3; [exact HsP|]. apply HP2; [exact HsP|].
      apply stable_advance; assumption.
  - apply returns_ret. rewrite advance_slew. repeat split; auto.
    intros P HsP HPw. apply stable_advance; assumption.
Qed.

Lemma brake_to_stop_returns (K : nat) (settle_ms : Z) (fuel : nat) (w : world) :
  paced env K ->
  (brake_fuel K settle_ms <= fuel)%nat ->
  returns (brake_to_stop env fuel settle_ms) w (fun _ w' =>
    commands (clamp_percent (of_int 0))
             (if fle (of_int 400) (of_int 0) then of_int 1 else of_int 400) w' /\
    (forall P, stable env P -> P w -> P w')).
Proof.
  intros HK Hfuel. unfold brake_to_stop, brake_fuel in *.
  apply returns_bind.
  eapply returns_weaken; [apply slew_set_target_spec|].
  intros [] w1 ((Hi1 & Ht1 & Hr1) & _ & HP1). cbv beta.
  apply returns_bind, returns_get_absolute_time.
  eapply returns_weaken.
  - apply (brake_wait_returns K (advance env w1)); try assumption.
    + apply later_refl.
    + rewrite advance_slew. exact Hi1.
    + lia.
    + lia.
  - intros [] w3 (Hi3 & Ht3 & Hr3 & HP3). cbv beta.
    rewrite advance_slew in Ht3, Hr3.
    split; [unfold commands; repeat split; congruence|].
    intros P HsP HPw. apply HP3; [exact HsP|].
    apply stable_advance; [exact HsP|]. apply HP1; assumption.
Qed.

End BrakeFacts.

(* ------------------------------------------------------------------ *)
(** * The move loop *)

Section MoveFacts.

Context {F : Type} `{FloatArith F}.
Variable env : nat -> tick.

#[local] Abbreviation world := (@world F).
#[local] Abbreviation M := (@M F).





(** The stall detection always returns; when it makes the function
    return, the result is [false] and the brake has run. *)
Lemma stall_detection_returns (K fuel : nat) a l (w : world) :
  paced env K -> (brake_fuel K 300 <= fuel)%nat ->
  returns (stall_detection env fuel a l) w (fun r w' =>
    (env_pos w < env_pos w')%nat /\
    (forall P, stable env P -> P w -> P w') /\
    match r with
    | Return b => b = false /\ braked w'
    | Continue l' => last_speed l' = last_speed l
    end).
Proof.
  intros HK Hfuel. unfold stall_detection.
  apply returns_bind, returns_get_absolute_time.
  destruct (absolute_time_diff_us _ _ >? _).
  - apply returns_bind, returns_read_fg_pulses.
    apply returns_bind, returns_gets.
    destruct ((_ >? 0) && (_ <? _)).
    + apply returns_bind.
      eapply returns_weaken; [apply (brake_to_stop_returns env K); assumption|].
      intros [] w3 (Hb & HP). cbv beta. apply returns_ret.
      split; [|split; [|split; [reflexivity | exact Hb]]].
      * pose proof (HP _ (stable_pos env (env_pos (advance env (advance env w))))) as Hp.
        cbv beta in Hp. rewrite !advance_pos in Hp.
        specialize (Hp (Nat.le_refl _)). lia.
      * intros P HsP HPw. apply HP; [exact HsP|].
        do 2 (apply stable_advance; [exact HsP|]). exact HPw.
    + apply returns_bind, returns_read_fg_pulses.
      apply returns_bind, returns_get_absolute_time.
      apply returns_ret. rewrite !advance_pos.
      split; [lia|]. split; [|reflexivity].
      intros P HsP HPw. do 4 (apply stable_advance; [exact HsP|]). exact HPw.
  - apply returns_ret. rewrite advance_pos.
    split; [lia|]. split; [|reflexivity].
    intros P HsP HPw. apply stable_advance; assumption.
Qed.


Lemma timeout_check_returns (K fuel : nat) a t0 l (w : world) :
  paced env K -> (brake_fuel K 300 <= fuel)%nat ->
  returns (timeout_check env fuel a t0 l) w (fun r w' =>
    (forall P, stable env P -> P w -> P w') /\
    match r with
    | Return b =>
        b = false /\ braked w' /\
        timeout_ms a * 1000 < now_us (advance env w) - t0
    | Continue l' =>
        l' = l /\ w' = advance env w /\
        now_us (advance env w) - t0 <= timeout_ms a * 1000
    end).
Proof.
  intros HK Hfuel. unfold timeout_check.
  apply returns_bind, returns_get_absolute_time.
  unfold absolute_time_diff_us.
  destruct (_ >? _) eqn:Hgt.
  - apply Z.gtb_lt in Hgt. apply returns_bind.
    eapply returns_weaken; [apply (brake_to_stop_returns env K); assumption|].
    intros [] w3 (Hb & HP). cbv beta. apply returns_ret.
    split; [|auto].
    intros P HsP HPw. apply HP; [exact HsP|]. apply stable_advance; assumption.
  - apply returns_ret. split.
    + intros P HsP HPw. apply stable_advance; assumption.
    + repeat split.
      destruct (Z.gtb_spec (now_us (advance env w) - t0) (timeout_ms a * 1000));
        [discriminate | lia].
Qed.

Lemma speed_selection_returns a now target_p pad_pulses l (w : world) :
  returns (speed_selection env a now target_p pad_pulses l) w (fun _ w' =>
    forall P, stable env P -> P w -> P w').
Proof.
  unfold speed_selection. destruct (flt _ _).
  - apply returns_bind.
    eapply returns_weaken; [apply slew_set_target_spec|].
    intros [] w1 (_ & _ & HP). cbv beta. apply returns_ret. exact HP.
  - apply returns_ret. auto.
Qed.

(** One pass through the body of the loop.  When the body goes on, the
    timeout check has read a time [wt] within the timeout. *)
Lemma move_body_returns (K fuel : nat) a target_p pad_pulses t0 l (w : world) :
  paced env K -> (brake_fuel K 300 <= fuel)%nat ->
  returns (move_body env fuel a target_p pad_pulses t0 l) w (fun r w' =>
    (forall P, stable env P -> P w -> P w') /\
    match r with
    | Return b => b = false /\ braked w'
    | Continue _ =>
        exists wt : world,
          (env_pos w < env_pos wt)%nat /\
          (forall P, stable env P -> P w -> P wt) /\
          now_us wt - t0 <= timeout_ms a * 1000 /\
          (forall P, stable env P -> P wt -> P w')
    end).
Proof.
  intros HK Hfuel. unfold move_body.
  apply returns_bind.
  eapply returns_weaken; [apply slew_update_spec|].
  intros [] w1 (_ & _ & Hp1 & HP1). cbv beta.
  apply returns_bind, returns_read_fg_pulses.
  apply returns_bind.
  eapply returns_weaken; [apply (stall_detection_returns K); assumption|].
  intros r w3 (Hp3 & HP3 & Hr). cbv beta.
  assert (HP03 : forall P, stable env P -> P w -> P w3).
  { intros P HsP HPw. apply HP3; [exact HsP|].
    apply stable_advance; [exact HsP|]. apply HP1; assumption. }
  destruct r as [b|l1].
  - apply returns_ret. split; [exact HP03 | exact Hr].
  - apply returns_bind.
    eapply returns_weaken; [apply (timeout_check_returns K); assumption|].
    intros r w4 (HP4 & Hr4). cbv beta.
    destruct r as [b|l2].
    + apply returns_ret. destruct Hr4 as (Hb & Hbr & _).
      split; [|split; assumption].
      intros P HsP HPw. apply HP4; [exact HsP|]. apply HP03; assumption.
    + destruct Hr4 as (-> & -> & Hle).
      apply returns_bind.
      eapply returns_weaken; [apply speed_selection_returns|].
      intros l3 w5 HP5. cbv beta. apply returns_ret.
      split.
      * intros P HsP HPw. apply HP5; [exact HsP|].
        apply stable_advance; [exact HsP|]. apply HP03; assumption.
      * exists (advance env w3). rewrite advance_pos.
        rewrite advance_pos in Hp3.
        repeat split; try assumption; try lia.
        intros P HsP HPw. apply stable_advance; [exact HsP|].
        apply HP03; assumption.
Qed.

(** The loop returns, whatever the counter does: at the latest when the
    timeout check sees the timeout.  Every return goes through the
    brake, and the result is [true] only when the test of the loop has
    read the counter at or above the target. *)
Lemma move_loop_returns (K : nat) (w0 : world) a target_p pad_pulses :
  paced env K ->
  forall (fuel : nat) l (w : world),
    later env w0 w ->
    (brake_fuel K 300 + 1 <= fuel)%nat ->
    (move_fuel K (timeout_ms a) <= fuel + (env_pos w - env_pos w0))%nat ->
    returns (move_loop env fuel a target_p pad_pulses (now_us w0) l) w
      (fun b w' =>
         braked w' /\ (forall P, stable env P -> P w -> P w') /\
         (b = true ->
          exists wx : world,
            (forall P, stable env P -> P w -> P wx) /\
            target_p <= g_fg_pulses (advance env wx))).
Proof.
  intros HK. unfold move_fuel.
  induction fuel as [|fuel IH]; intros l w Hl H1 Hb; [lia|].
  cbn [move_loop]. apply returns_bind, returns_read_fg_pulses.
  destruct (Z.ltb_spec (g_fg_pulses (advance env w)) target_p) as [Hbelow|Hreached].
  - apply returns_bind.
    eapply returns_weaken; [apply (move_body_returns K); [exact HK | lia]|].
    intros r w2 (HP2 & Hr). cbv beta.
    pose proof (HP2 _ (stable_later env w0)
                  (later_trans env _ _ _ Hl (later_advance env w))) as Hl2.
    destruct r as [b|l'].
    + apply returns_ret. destruct Hr as (-> & Hbr). split; [exact Hbr|].
      split; [|discriminate].
      intros P HsP HPw. apply HP2; [exact HsP|]. apply stable_advance; assumption.
    + destruct Hr as (wt & Hpt & HPt & Hle & HPt2).
      pose proof (HPt _ (stable_later env w0)
                    (later_trans env _ _ _ Hl (later_advance env w))) as Hlt.
      assert (Hpos : (env_pos wt - env_pos w0
                      < K * Z.to_nat (timeout_ms a * 1000 + 1))%nat).
      { destruct (Nat.lt_ge_cases (env_pos wt - env_pos w0)
                    (K * Z.to_nat (timeout_ms a * 1000 + 1))) as [Hc|Hc]; [exact Hc|].
        pose proof (later_paced env K _ _ _ HK Hlt Hc). lia. }
      pose proof (HPt2 _ (stable_pos env (env_pos wt)) (Nat.le_refl _)) as Hp2.
      cbv beta in Hp2. rewrite advance_pos in Hpt. destruct Hl as [Hp0 _].
      assert (HP02 : forall P, stable env P -> P w -> P w2).
      { intros P HsP HPw. apply HP2; [exact HsP|].
        apply stable_advance; assumption. }
      eapply returns_weaken.
      * apply IH; [exact Hl2 | lia | lia].
      * intros b w3 (Hbr & HP3 & Htrue). cbv beta. split; [exact Hbr|]. split.
        -- intros P HsP HPw. apply HP3; [exact HsP|]. apply HP02; assumption.
        -- intros Hb'. destruct (Htrue Hb') as (wx & HPx & Hx).
           exists wx. split; [|exact Hx].
           intros P HsP HPw. apply HPx; [exact HsP|]. apply HP02; assumption.
  - apply returns_bind.
    eapply returns_weaken; [apply (brake_to_stop_returns env K); [exact HK | lia]|].
    intros [] w2 (Hbr & HP2). cbv beta. apply returns_ret.
    split; [exact Hbr|]. split.
    + intros P HsP HPw. apply HP2; [exact HsP|]. apply stable_advance; assumption.
    + intros _. exists w. split; [auto | exact Hreached].
Qed.



Lemma returns_reset_fg_pulses (w : world) (Q : unit -> world -> Prop) :
  Q tt (set_fg_irq_enabled true (set_g_fg_pulses 0 (set_fg_irq_enabled false w))) ->
  returns reset_fg_pulses w Q.
Proof. intros HQ. eexists; eexists; split; [reflexivity | exact HQ]. Qed.

(** [move_meters] returns for every request: at once with [true] and an
    untouched world when the target is zero pulses, else out of the
    loop, after the brake. *)
Lemma move_meters_returns (K fuel : nat) cw meters a (w : world) :
  paced env K -> (move_fuel K (timeout_ms a) <= fuel)%nat ->
  returns (move_meters env fuel cw meters a) w (fun b w' =>
    (target_pulses_for_meters meters = 0 -> b = true /\ w' = w) /\
    (target_pulses_for_meters meters <> 0 -> braked w')).
Proof.
  intros HK Hfuel. unfold move_meters.
  destruct (target_pulses_for_meters meters =? 0) eqn:Ht.
  - apply Z.eqb_eq in Ht. apply returns_ret. split; [auto | intros Hn; contradiction].
  - apply Z.eqb_neq in Ht.
    apply returns_bind, returns_reset_fg_pulses.
    apply returns_bind. unfold set_direction_cw, gpio_put_dir.
    apply returns_modify.
    apply returns_bind.
    eapply returns_weaken; [apply slew_set_target_spec|].
    intros [] w1 _. cbv beta.
    apply returns_bind, returns_get_absolute_time.
    apply returns_bind, returns_get_absolute_time.
    apply returns_bind, returns_read_fg_pulses.
    eapply returns_weaken.
    + apply (move_loop_returns K (advance env w1)); [exact HK| | |].
      * eapply later_trans; apply later_advance.
      * unfold move_fuel in Hfuel. lia.
      * lia.
    + intros b w' (Hbr & _). cbv beta. split; [intros Hz; contradiction | auto].
Qed.


(** A request of no distance: nothing is touched. *)
Lemma move_meters_nothing_to_do (fuel : nat) cw meters a (w : world) :
  fle meters (of_int 0) = true ->
  target_pulses_for_meters meters = 0 /\
  move_meters env fuel cw meters a w = Some (true, w).
Proof.
  intros Hle.
  assert (Ht : target_pulses_for_meters meters = 0).
  { unfold target_pulses_for_meters. rewrite Hle. reflexivity. }
  split; [exact Ht|]. unfold move_meters. rewrite Ht. reflexivity.
Qed.

(** ** Speed selection *)

Lemma remaining_pulses_guarded (now target_p : Z) :
  remaining_pulses now target_p = Z.max 0 (target_p - now).
Proof. unfold remaining_pulses. destruct (Z.ltb_spec now target_p); lia. Qed.

Lemma desired_speed_for_cases (a : @move_args F) now target_p pad_pulses :
  (now < pad_pulses \/ remaining_pulses now target_p < pad_pulses ->
     desired_speed_for a now target_p pad_pulses = padding_speed a) /\
  (pad_pulses <= now -> pad_pulses <= remaining_pulses now target_p ->
     desired_speed_for a now target_p pad_pulses = cruise_percent a).
Proof.
  unfold desired_speed_for.
  destruct (Z.ltb_spec now pad_pulses);
    destruct (Z.ltb_spec (remaining_pulses now target_p) pad_pulses);
    split; intros; try reflexivity; lia.
Qed.

(** The collapse of the padding, away from the wrap of [pad_pulses * 2]. *)
Lemma pad_pulses_for_cases target_p (padding : F) :
  let pad := target_pulses_for_meters padding in
  0 <= pad < 2147483648 ->
  (target_p <= 2 * pad -> pad_pulses_for target_p padding = target_p / 2) /\
  (2 * pad < target_p -> pad_pulses_for target_p padding = pad).
Proof.
  intros pad Hr. unfold pad_pulses_for. fold pad. unfold wrap32.
  rewrite Z.mod_small by lia.
  destruct (Z.geb_spec (pad * 2) target_p); split; intros; try reflexivity; lia.
Qed.

(** In a move with collapsed padding the middle pulse count selects the
    cruise speed. *)
Lemma collapsed_midpoint_cruises (a : @move_args F) target_p :
  0 <= target_p ->
  desired_speed_for a (target_p / 2) target_p (target_p / 2) = cruise_percent a.
Proof.
  intros Ht. apply desired_speed_for_cases; [lia|].
  rewrite remaining_pulses_guarded.
  pose proof (Z.mul_div_le target_p 2 eq_refl). lia.
Qed.

End MoveFacts.

(* ------------------------------------------------------------------ *)
(** * The hold loop *)

Section HoldFacts.

Context {F : Type} `{FloatArith F}.
Variable env : nat -> tick.

#[local] Abbreviation world := (@world F).











End HoldFacts.

(* ------------------------------------------------------------------ *)
(** * Stall, timeout and the result of a move (binary32) *)

Section MoveClaims.

#[local] Abbreviation float32 := Binary32.float32.
#[local] Abbreviation world := (@world float32).




End MoveClaims.



Section OutcomeClaims.

#[local] Abbreviation float32 := Binary32.float32.
#[local] Abbreviation world := (@world float32).



End OutcomeClaims.






(* ------------------------------------------------------------------ *)
(** * Frame of a move of no distance, speed selection, PWM writes *)

(** C9.  For every [meters <= 0] the target is 0 pulses and [move_meters]
    returns [true] at once, in the world it was called in: no level of the
    direction pin written, no reset of the counter, no command to the
    limiter, no PWM level written. *)
Theorem no_distance_no_motion :
  forall (F : Type) (A : FloatArith F) (env : nat -> tick) (fuel : nat)
         (cw : bool) (meters : F) (a : @move_args F) (w : @world F),
    fle meters (of_int 0) = true ->
    target_pulses_for_meters meters = 0 /\
    exists w',
      move_meters env fuel cw meters a w = Some (true, w') /\
      w' = w /\
      outputs w' = outputs w /\
      g_fg_pulses w' = g_fg_pulses w /\
      g_slew w' = g_slew w.
Proof.
  intros F A env fuel cw meters a w Hle.
  destruct (move_meters_nothing_to_do env fuel cw meters a w Hle) as [Ht Hrun].
  split; [exact Ht|]. exists w. repeat split. exact Hrun.
Qed.

(** Witness of C9: a request of -0.3 m while [cruising], with no fuel at
    all. *)
Lemma no_distance_no_motion_witness :
  target_pulses_for_meters (@lit Binary32.float32 _ (-3) 10) = 0 /\
  exists w',
    move_meters busy 0 true (lit (-3) 10) (move_defaults (of_int 100) 60000) cruising
      = Some (true, w') /\
    w' = cruising /\
    outputs w' = outputs cruising /\
    g_fg_pulses w' = g_fg_pulses cruising /\
    g_slew w' = g_slew cruising.
Proof.
  apply (no_distance_no_motion Binary32.float32 binary32 busy 0 true (lit (-3) 10)).
  vm_compute. reflexivity.
Defined.

(** C10.  The remaining pulses of the move loop are [target - now] only
    when [now] is below the target, and 0 when the counter read into [now]
    has reached or passed it: never above the target, where the bare
    [uint32_t] difference would wrap to almost [2^32]; the comparison with
    [pad_pulses] then selects the padding speed.  The case arises: edges
    that arrive between the test of the loop and the read into [now] take
    the counter from 320 to 322 with a target of 321. *)
Theorem remaining_never_wraps :
  forall (F : Type) (A : FloatArith F) (a : @move_args F) (now target_p pad_pulses : Z),
    0 <= now < 4294967296 ->
    0 <= target_p < 4294967296 ->
    remaining_pulses now target_p = Z.max 0 (target_p - now) /\
    0 <= remaining_pulses now target_p <= target_p /\
    (target_p <= now -> remaining_pulses now target_p = 0) /\
    (target_p < now -> wrap32 (target_p - now) = 4294967296 - (now - target_p)) /\
    (target_p <= now -> 0 < pad_pulses ->
       desired_speed_for a now target_p pad_pulses = padding_speed a) /\
    (exists now' ws,
       enters_body busy 321 near_target now' ws /\ 321 <= now' /\
       remaining_pulses now' 321 = 0).
Proof.
  intros F A a now target_p pad_pulses Hnow Htarget.
  pose proof (remaining_pulses_guarded now target_p) as Hrem.
  split; [exact Hrem|]. split; [lia|]. split; [lia|]. split; [|split].
  - intros Hlt. unfold wrap32.
    replace (target_p - now) with (4294967296 - (now - target_p) + (-1) * 4294967296) by lia.
    rewrite Z.mod_add by lia. apply Z.mod_small. lia.
  - intros Hle Hpad. apply desired_speed_for_cases. right. lia.
  - do 2 eexists. split; [|split].
    + unfold enters_body. do 3 eexists.
      split; [reflexivity|]. split; [vm_compute; reflexivity|]. split.
      * vm_compute. reflexivity.
      * vm_compute. reflexivity.
    + vm_compute. discriminate.
    + vm_compute. reflexivity.
Qed.

(** Witness of C10: the counter read as 323 with a target of 321. *)
Lemma remaining_never_wraps_witness :
  remaining_pulses 323 321 = Z.max 0 (321 - 323) /\
  0 <= remaining_pulses 323 321 <= 321 /\
  (321 <= 323 -> remaining_pulses 323 321 = 0) /\
  (321 < 323 -> wrap32 (321 - 323) = 4294967296 - (323 - 321)) /\
  (321 <= 323 -> 0 < 107 ->
     desired_speed_for (@move_defaults Binary32.float32 _ (of_int 100) 60000) 323 321 107
     = padding_speed (move_defaults (of_int 100) 60000)) /\
  (exists now' ws,
     enters_body busy 321 near_target now' ws /\ 321 <= now' /\
     remaining_pulses now' 321 = 0).
Proof.
  apply (remaining_never_wraps Binary32.float32 binary32); lia.
Defined.

(** C7, at the failing input.  A move of 0.4 m with the default padding of
    0.2 m has a target of 214 pulses and a padding of 107 pulses, which
    collapses to [214 / 2 = 107]: the move is too short to reach cruise.
    At the traveled count 107 the selected speed is the cruise speed
    (100 %), not the padding speed (50 %), and a run of that move writes a
    PWM level above the level of the padding speed. *)
Theorem short_move_selects_cruise_midway :
  let a := @move_defaults Binary32.float32 _ (of_int 100) 60000 in
  target_pulses_for_meters (@lit Binary32.float32 _ 4 10) = 214 /\
  target_pulses_for_meters (padding_m a) = 107 /\
  pad_pulses_for 214 (padding_m a) = 107 /\
  desired_speed_for a 107 214 107 = cruise_percent a /\
  cruise_percent a <> padding_speed a /\
  exists w',
    move_meters slow_pulses 2000 false (lit 4 10) a boot = Some (true, w') /\
    existsb (fun o => match o with
                      | PwmLevel level => duty_level (padding_speed a) <? level
                      | DirPin _ => false
                      end) (outputs w') = true.
Proof.
  cbv zeta.
  split; [vm_compute; reflexivity|].
  split; [vm_compute; reflexivity|].
  split; [vm_compute; reflexivity|].
  split; [vm_compute; reflexivity|].
  split; [vm_compute; discriminate|].
  eexists. split; vm_compute; reflexivity.
Qed.

(** C8, as the code has it.  On an initialised limiter an update in which
    the timer has moved since the last update steps [current] and writes
    its PWM level, also when [current] has not changed; an update in which
    the timer has not moved returns without a write.  The update of a
    limiter that is not initialised writes the level of 0 % first. *)
Theorem update_writes_when_time_moved :
  forall (F : Type) (A : FloatArith F) (env : nat -> tick) (w : @world F),
    exists w',
      slew_update env w = Some (tt, w') /\
      (initialized (g_slew w) = true ->
       let dt_us := now_us (advance env w) - last_t (g_slew w) in
       (0 < dt_us ->
          current (g_slew w') = slew_step (g_slew w) dt_us /\
          outputs w' = PwmLevel (duty_level (current (g_slew w'))) :: outputs w) /\
       (dt_us <= 0 -> g_slew w' = g_slew w /\ outputs w' = outputs w)) /\
      (initialized (g_slew w) = false ->
       In (PwmLevel (duty_level (@of_int F A 0))) (outputs w')).
Proof.
  intros F A env w.
  destruct (initialized (g_slew w)) eqn:Hi.
  - exists (slew_update_result env w).
    split; [apply slew_update_initialized; exact Hi|].
    split; [|discriminate]. intros _ dt_us. subst dt_us.
    unfold slew_update_result, absolute_time_diff_us. rewrite advance_slew.
    destruct (Z.leb_spec (now_us (advance env w) - last_t (g_slew w)) 0) as [Hle|Hgt].
    + split; [lia|]. intros _. rewrite advance_slew, advance_outputs. split; reflexivity.
    + split; [|lia]. intros _. cbn. rewrite advance_outputs.
      unfold absolute_time_diff_us. split; reflexivity.
  - destruct (slew_init_spec env (of_int 0) w) as ([] & w1 & Hr1 & Hs1 & Ho1 & _).
    assert (Hi1 : initialized (g_slew w1) = true) by (rewrite Hs1; reflexivity).
    exists (slew_update_result env w1). split.
    + pose proof (slew_update_initialized env w1 Hi1) as Hu.
      cbv [slew_update bind ensure_initialized gets ret] in Hu |- *.
      rewrite Hi, Hr1. rewrite Hi1 in Hu. exact Hu.
    + split; [discriminate|]. intros _.
      unfold slew_update_result.
      destruct (_ <=? 0); cbn; rewrite advance_outputs, Ho1; cbn; auto.
Qed.

(** Counterexample to C8: an update of the initialised limiter before the
    microsecond timer has moved writes no PWM level. *)
Lemma update_without_write :
  exists w',
    slew_update frozen cruising = Some (tt, w') /\
    outputs w' = outputs cruising.
Proof.
  eexists. split; vm_compute; reflexivity.
Qed.

(** Witness of C8: an update of [cruising], 10 ms after its last one. *)
Lemma update_writes_when_time_moved_witness :
  exists w',
    slew_update quiet cruising = Some (tt, w') /\
    (initialized (g_slew cruising) = true ->
     let dt_us := now_us (advance quiet cruising) - last_t (g_slew cruising) in
     (0 < dt_us ->
        current (g_slew w') = slew_step (g_slew cruising) dt_us /\
        outputs w' = PwmLevel (duty_level (current (g_slew w'))) :: outputs cruising) /\
     (dt_us <= 0 -> g_slew w' = g_slew cruising /\ outputs w' = outputs cruising)) /\
    (initialized (g_slew cruising) = false ->
     In (PwmLevel (duty_level (@of_int Binary32.float32 binary32 0))) (outputs w')).
Proof.
  exact (update_writes_when_time_moved Binary32.float32 binary32 quiet cruising).
Defined.

(* ------------------------------------------------------------------ *)
(** * Exact arithmetic: the converter and the limiter *)

Module ExactFacts.

#[local] Open Scope Q_scope.

Lemma ltb_lt (a b : Q) : Exact.ltb a b = true <-> a < b.
Proof.
  unfold Exact.ltb. rewrite negb_true_iff.
  destruct (Qle_bool b a) eqn:E.
  - apply Qle_bool_iff in E. split; [discriminate | intros Hlt; lra].
  - split; [intros _ | reflexivity].
    destruct (Qlt_le_dec a b) as [Hlt|Hle]; [exact Hlt|].
    apply Qle_bool_iff in Hle. congruence.
Qed.

Lemma ltb_ge (a b : Q) : Exact.ltb a b = false <-> b <= a.
Proof.
  unfold Exact.ltb. rewrite negb_false_iff. apply Qle_bool_iff.
Qed.
















End ExactFacts.





(* ------------------------------------------------------------------ *)
(** * What the functions do to the world *)

Section TraceFacts.

Context {F : Type} `{FloatArith F}.
Variable env : nat -> tick.

#[local] Abbreviation world := (@world F).
#[local] Abbreviation M := (@M F).

Lemma run_actions_app (acts1 acts2 : list action) (w : world) :
  run_actions env (acts1 ++ acts2) w = run_actions env acts2 (run_actions env acts1 w).
Proof. apply fold_left_app. Qed.

Lemma run_actions_invariant (I : world -> Prop) (ok : action -> Prop) :
  (forall a w, ok a -> I w -> I (apply_action env a w)) ->
  forall acts w, Forall ok acts -> I w -> I (run_actions env acts w).
Proof.
  intros Hstep acts. induction acts as [|a acts IH]; intros w Hok Hw.
  - exact Hw.
  - inversion Hok; subst. cbn. apply IH; auto.
Qed.

Lemma bind_inv {A B} (m : M A) (k : A -> M B) (w : world) r :
  bind m k w = Some r -> exists a w1, m w = Some (a, w1) /\ k a w1 = Some r.
Proof.
  unfold bind. destruct (m w) as [[a w1]|]; [|discriminate].
  intros E. now exists a, w1.
Qed.

Lemma traces_ret {A} (ok : action -> Prop) (a : A) : traces env ok (ret a).
Proof.
  intros w a' w' E. inversion E; subst. exists []. split; [constructor | reflexivity].
Qed.

Lemma traces_bind {A B} (ok : action -> Prop) (m : M A) (k : A -> M B) :
  traces env ok m -> (forall a, traces env ok (k a)) -> traces env ok (bind m k).
Proof.
  intros Hm Hk w b w' E. apply bind_inv in E. destruct E as (a & w1 & Em & Ek).
  destruct (Hm _ _ _ Em) as (acts1 & F1 & ->).
  destruct (Hk a _ _ _ Ek) as (acts2 & F2 & ->).
  exists (acts1 ++ acts2). split; [apply Forall_app; auto | now rewrite run_actions_app].
Qed.

Lemma traces_weaken {A} (ok ok' : action -> Prop) (m : M A) :
  (forall a, ok a -> ok' a) -> traces env ok m -> traces env ok' m.
Proof.
  intros Hsub Hm w a w' E. destruct (Hm _ _ _ E) as (acts & Hf & ->).
  exists acts. split; [|reflexivity]. eapply Forall_impl; eauto.
Qed.

Lemma traces_does {A} (ok : action -> Prop) (m : M A) (acts : list action) :
  Forall ok acts ->
  (forall w, exists a, m w = Some (a, run_actions env acts w)) ->
  traces env ok m.
Proof.
  intros Hf Hm w a w' E. destruct (Hm w) as (a' & E'). rewrite E' in E.
  inversion E; subst. now exists acts.
Qed.

Lemma traces_get_absolute_time (ok : action -> Prop) :
  ok Tick -> traces env ok (get_absolute_time env).
Proof.
  intros Ht. apply traces_does with (acts := [Tick]); [now repeat constructor|].
  intros w. now eexists.
Qed.

Lemma traces_read_fg_pulses (ok : action -> Prop) :
  ok Tick -> traces env ok (read_fg_pulses env).
Proof.
  intros Ht. apply traces_does with (acts := [Tick]); [now repeat constructor|].
  intros w. now eexists.
Qed.

Lemma traces_gets {A} (ok : action -> Prop) (f : world -> A) : traces env ok (gets f).
Proof. apply traces_does with (acts := []); [constructor|]. intros w. now eexists. Qed.

Lemma traces_sleep_ms (ok : action -> Prop) ms :
  ok (Sleep ms) -> ok Tick -> traces env ok (sleep_ms env ms).
Proof.
  intros Hs Ht. apply traces_does with (acts := [Sleep ms; Tick]); [now repeat constructor|].
  intros w. now eexists.
Qed.

Lemma traces_reset_fg_pulses (ok : action -> Prop) :
  ok ResetCounter -> traces env ok reset_fg_pulses.
Proof.
  intros Hr. apply traces_does with (acts := [ResetCounter]); [now repeat constructor|].
  intros w. now eexists.
Qed.

Lemma traces_set_direction_cw (ok : action -> Prop) cw :
  ok (WriteDir (negb cw)) -> traces env ok (set_direction_cw cw).
Proof.
  intros Hd. apply traces_does with (acts := [WriteDir (negb cw)]); [now repeat constructor|].
  intros w. now eexists.
Qed.

Lemma traces_slew_init (ok : action -> Prop) start :
  ok Tick -> ok (SlewInit start) -> traces env ok (slew_init env start).
Proof.
  intros Ht Hi. apply traces_does with (acts := [Tick; SlewInit start]);
    [now repeat constructor|].
  intros w. now eexists.
Qed.

Lemma traces_ensure_initialized : traces env drive_action (ensure_initialized env).
Proof.
  unfold ensure_initialized. apply traces_bind; [apply traces_gets|].
  intros [|]; [apply traces_ret|]. apply traces_slew_init; reflexivity.
Qed.

Lemma traces_slew_set_target tp r : traces env drive_action (slew_set_target env tp r).
Proof.
  unfold slew_set_target. apply traces_bind; [apply traces_ensure_initialized|].
  intros _. apply traces_does with (acts := [SlewStore tp r]); [now repeat constructor|].
  intros w. now eexists.
Qed.

Lemma traces_slew_update : traces env drive_action (slew_update env).
Proof.
  unfold slew_update. apply traces_bind; [apply traces_ensure_initialized|].
  intros _. apply traces_does with (acts := [Tick; SlewStep]); [now repeat constructor|].
  intros w. exists tt. cbv [bind get_absolute_time gets run_actions fold_left apply_action].
  destruct (absolute_time_diff_us (last_t (g_slew (advance env w)))
              (now_us (advance env w)) <=? 0); reflexivity.
Qed.

Ltac traces_step :=
  first
    [ assumption
    | apply traces_ret
    | apply traces_gets
    | apply traces_get_absolute_time; exact I
    | apply traces_read_fg_pulses; exact I
    | apply traces_ensure_initialized
    | apply traces_slew_set_target
    | apply traces_slew_update
    | match goal with
      | |- traces _ _ (bind _ _) => apply traces_bind; [|intro]
      | |- traces _ _ (if ?c then _ else _) => destruct c
      | |- traces _ _ (match ?r with Return _ => _ | Continue _ => _ end) => destruct r
      end ].

Lemma traces_brake_wait t0 settle_us :
  forall fuel, traces env drive_action (brake_wait env fuel t0 settle_us).
Proof.
  induction fuel as [|fuel IH]; cbn [brake_wait].
  - intros w a w' E. discriminate.
  - repeat traces_step.
Qed.

Lemma traces_brake_to_stop fuel settle_ms :
  traces env drive_action (brake_to_stop env fuel settle_ms).
Proof. unfold brake_to_stop. repeat traces_step. apply traces_brake_wait. Qed.

Lemma traces_stall_detection fuel a l :
  traces env drive_action (stall_detection env fuel a l).
Proof.
  unfold stall_detection. repeat traces_step. apply traces_brake_to_stop.
Qed.

Lemma traces_timeout_check fuel a t0 l :
  traces env drive_action (timeout_check env fuel a t0 l).
Proof.
  unfold timeout_check. repeat traces_step. apply traces_brake_to_stop.
Qed.

Lemma traces_speed_selection a now target_p pad_pulses l :
  traces env drive_action (speed_selection env a now target_p pad_pulses l).
Proof. unfold speed_selection. cbv zeta. repeat traces_step. Qed.

Lemma traces_move_body fuel a target_p pad_pulses t0 l :
  traces env drive_action (move_body env fuel a target_p pad_pulses t0 l).
Proof.
  unfold move_body. repeat traces_step.
  - apply traces_stall_detection.
  - apply traces_timeout_check.
  - apply traces_speed_selection.
Qed.

Lemma traces_move_loop a target_p pad_pulses t0 :
  forall fuel l, traces env drive_action (move_loop env fuel a target_p pad_pulses t0 l).
Proof.
  induction fuel as [|fuel IH]; intros l; cbn [move_loop].
  - intros w b w' E. discriminate.
  - repeat traces_step.
    + apply traces_move_body.
    + apply IH.
    + apply traces_brake_to_stop.
Qed.

(** A move that has something to do resets the counter, writes the
    direction pin and then only drives the limiter. *)
Lemma move_meters_does fuel cw meters a (w : world) b w' :
  target_pulses_for_meters meters <> 0 ->
  move_meters env fuel cw meters a w = Some (b, w') ->
  exists acts,
    Forall drive_action acts /\
    w' = run_actions env (ResetCounter :: WriteDir (negb cw) :: acts) w.
Proof.
  intros Ht E. unfold move_meters in E. cbv zeta in E.
  destruct (target_pulses_for_meters meters =? 0) eqn:E0; [apply Z.eqb_eq in E0; contradiction|].
  apply bind_inv in E. destruct E as ([] & w1 & E1 & E).
  apply bind_inv in E. destruct E as ([] & w2 & E2 & E).
  inversion E1; subst w1. inversion E2; subst w2. clear E1 E2.
  assert (Hrest : traces env drive_action
            (bind (slew_set_target env
                     (if pad_pulses_for (target_pulses_for_meters meters) (padding_m a) >? 0
                      then padding_speed a else cruise_percent a) (of_int 200))
               (fun _ => bind (get_absolute_time env) (fun t0 =>
                  bind (get_absolute_time env) (fun stall_ref_time0 =>
                    bind (read_fg_pulses env) (fun stall_ref_pulses0 =>
                      move_loop env fuel a (target_pulses_for_meters meters)
                        (pad_pulses_for (target_pulses_for_meters meters) (padding_m a)) t0
                        {| last_speed :=
                             if pad_pulses_for (target_pulses_for_meters meters) (padding_m a) >? 0
                             then padding_speed a else cruise_percent a;
                           stall_ref_time := stall_ref_time0;
                           stall_ref_pulses := stall_ref_pulses0 |})))))).
  { repeat traces_step. apply traces_move_loop. }
  destruct (Hrest _ _ _ E) as (acts & Hf & ->).
  exists acts. split; [exact Hf | reflexivity].
Qed.

Lemma drive_is_hold_action tow_up_cw (a : @action F) :
  drive_action a -> hold_action tow_up_cw a.
Proof. destruct a; cbn; tauto. Qed.

Lemma traces_nudge_wait a :
  forall fuel, traces env drive_action (nudge_wait env fuel a).
Proof.
  induction fuel as [|fuel IH]; cbn [nudge_wait].
  - intros w r w' E. discriminate.
  - repeat traces_step.
Qed.

Lemma traces_nudge fuel tow_up_cw a :
  traces env (hold_action tow_up_cw) (nudge env fuel tow_up_cw a).
Proof.
  unfold nudge.
  apply traces_bind; [apply traces_reset_fg_pulses; exact I|].
  intros _. apply traces_bind; [apply traces_set_direction_cw; reflexivity|].
  intros _. apply traces_bind;
    [eapply traces_weaken; [apply drive_is_hold_action | apply traces_slew_set_target]|].
  intros _. apply traces_bind;
    [eapply traces_weaken; [apply drive_is_hold_action | apply traces_nudge_wait]|].
  intros _. apply traces_bind;
    [eapply traces_weaken; [apply drive_is_hold_action | apply traces_brake_to_stop]|].
  intros _. apply traces_bind; [apply traces_reset_fg_pulses; exact I|].
  intros _. apply traces_get_absolute_time. exact I.
Qed.

Lemma traces_hold_body fuel tow_up_cw a last_nudge :
  traces env (hold_action tow_up_cw) (hold_body env fuel tow_up_cw a last_nudge).
Proof.
  unfold hold_body.
  apply traces_bind;
    [eapply traces_weaken; [apply drive_is_hold_action | apply traces_slew_update]|].
  intros _. apply traces_bind; [apply traces_read_fg_pulses; exact I|].
  intros p. destruct (p >? deadband_pulses a); [|apply traces_ret].
  apply traces_bind; [apply traces_get_absolute_time; exact I|].
  intros t. destruct (absolute_time_diff_us last_nudge t >? min_nudge_gap_ms a * 1000);
    [apply traces_nudge | apply traces_ret].
Qed.

Lemma traces_hold_loop hold_ms tow_up_cw a t0 :
  forall fuel last_nudge,
    traces env (hold_action tow_up_cw)
      (hold_loop env fuel hold_ms tow_up_cw a t0 last_nudge).
Proof.
  induction fuel as [|fuel IH]; intros last_nudge; cbn [hold_loop].
  - intros w r w' E. discriminate.
  - apply traces_bind; [apply traces_get_absolute_time; exact I|].
    intros t. destruct (absolute_time_diff_us t0 t <? hold_ms * 1000); [|apply traces_ret].
    apply traces_bind; [apply traces_hold_body|].
    intros last_nudge'. apply traces_bind; [apply traces_sleep_ms; [reflexivity | exact I]|].
    intros _. apply IH.
Qed.

Lemma traces_hold_payload_ms fuel hold_ms tow_up_cw a :
  traces env (hold_action tow_up_cw) (hold_payload_ms env fuel hold_ms tow_up_cw a).
Proof.
  unfold hold_payload_ms.
  apply traces_bind;
    [eapply traces_weaken; [apply drive_is_hold_action | apply traces_brake_to_stop]|].
  intros _. apply traces_bind; [apply traces_reset_fg_pulses; exact I|].
  intros _. apply traces_bind; [apply traces_get_absolute_time; exact I|].
  intros t0. apply traces_bind; [apply traces_get_absolute_time; exact I|].
  intros last_nudge. apply traces_hold_loop.
Qed.

(** ** What the actions keep *)

Lemma drive_outputs (acts : list action) :
  forall w : world,
    Forall drive_action acts ->
    exists levels, outputs (run_actions env acts w) = map PwmLevel levels ++ outputs w.
Proof.
  induction acts as [|a acts IH]; intros w Hok.
  - now exists [].
  - inversion Hok as [|? ? Ha Hacts]; subst. cbn [run_actions fold_left].
    destruct (IH (apply_action env a w) Hacts) as (levels & E).
    unfold run_actions in E. rewrite E.
    destruct a; cbn in Ha; try contradiction; cbn [apply_action].
    + exists levels. now rewrite advance_outputs.
    + exists (levels ++ [duty_level start_percent]).
      rewrite map_app, <- app_assoc. reflexivity.
    + now exists levels.
    + destruct (absolute_time_diff_us (last_t (g_slew w)) (now_us w) <=? 0).
      * now exists levels.
      * eexists (levels ++ [_]). rewrite map_app, <- app_assoc. reflexivity.
Qed.

Lemma last_dir_levels levels (os : list output) :
  last_dir (map PwmLevel levels ++ os) = last_dir os.
Proof. induction levels as [|l levels IH]; [reflexivity | exact IH]. Qed.

Lemma pwm_tracks_action (a : action) (w : world) :
  pwm_tracks w -> pwm_tracks (apply_action env a w).
Proof.
  unfold pwm_tracks. destruct a; cbn [apply_action].
  - now rewrite advance_slew, advance_outputs.
  - auto.
  - auto.
  - auto.
  - reflexivity.
  - auto.
  - destruct (absolute_time_diff_us (last_t (g_slew w)) (now_us w) <=? 0);
      [auto | reflexivity].
Qed.

Lemma pwm_tracks_run (acts : list action) (w : world) :
  pwm_tracks w -> pwm_tracks (run_actions env acts w).
Proof.
  intros Hw. apply run_actions_invariant with (ok := fun _ => True); auto.
  - intros a w0 _. apply pwm_tracks_action.
  - apply Forall_forall. auto.
Qed.

Lemma arrived_snoc i n :
  arrived env i (S n) = arrived env i n + Z.of_N (tick_edges (env (i + n)%nat)).
Proof.
  revert i. induction n as [|n IH]; intros i.
  - cbn. rewrite Nat.add_0_r. lia.
  - change (arrived env i (S (S n)))
      with (Z.of_N (tick_edges (env i)) + arrived env (S i) (S n)).
    rewrite IH. cbn [arrived]. rewrite Nat.add_succ_comm. lia.
Qed.

Lemma arrived_nonneg i n : 0 <= arrived env i n.
Proof.
  revert i. induction n as [|n IH]; intros i; cbn; [lia|].
  specialize (IH (S i)). lia.
Qed.

Lemma arrived_mono i n n' : (n <= n')%nat -> arrived env i n <= arrived env i n'.
Proof.
  induction 1 as [|m Hm IH]; [lia|]. rewrite arrived_snoc. lia.
Qed.

Lemma counts_from_advance p0 (w : world) :
  counts_from env p0 w -> counts_from env p0 (advance env w).
Proof.
  intros (Hirq & Hpos & Hg). unfold counts_from.
  rewrite advance_irq, advance_pos, advance_pulses, Hirq, Hg.
  repeat split; [lia|].
  replace (S (env_pos w) - p0)%nat with (S (env_pos w - p0)) by lia.
  rewrite arrived_snoc. replace (p0 + (env_pos w - p0))%nat with (env_pos w) by lia.
  unfold wrap32. now rewrite Zplus_mod_idemp_l.
Qed.

Lemma counts_from_drive p0 (a : action) (w : world) :
  drive_action a -> counts_from env p0 w -> counts_from env p0 (apply_action env a w).
Proof.
  destruct a; cbn; try contradiction; intros _ Hc.
  - now apply counts_from_advance.
  - exact Hc.
  - exact Hc.
  - destruct (absolute_time_diff_us (last_t (g_slew w)) (now_us w) <=? 0); exact Hc.
Qed.

Lemma move_meters_outputs :
  forall fuel cw meters (a : @move_args F) (w : world) b w',
    target_pulses_for_meters meters <> 0 ->
    move_meters env fuel cw meters a w = Some (b, w') ->
    (exists levels,
       outputs w' = map PwmLevel levels ++ DirPin (negb cw) :: outputs w) /\
    last_dir (outputs w') = Some (negb cw).
Proof.
  intros fuel cw meters a w b w' Ht E.
  destruct (move_meters_does _ _ _ _ _ _ _ Ht E) as (acts & Hok & ->).
  cbn [run_actions fold_left apply_action].
  destruct (drive_outputs acts
              (emit (DirPin (negb cw))
                 (set_fg_irq_enabled true (set_g_fg_pulses 0 (set_fg_irq_enabled false w))))
              Hok) as (levels & El).
  unfold run_actions in El. rewrite El. cbn [outputs emit set_fg_irq_enabled set_g_fg_pulses].
  split; [now exists levels|]. now rewrite last_dir_levels.
Qed.

(** X1: a move that has something to do writes the direction pin once,
    LOW for clockwise and HIGH for counter-clockwise, before any PWM
    level of the call, and writes nothing but PWM levels after it; the
    pin still has that level when the move returns. *)
Theorem move_writes_direction_first :
  forall fuel cw meters (a : @move_args F) (w : world) b w',
    target_pulses_for_meters meters <> 0 ->
    move_meters env fuel cw meters a w = Some (b, w') ->
    (exists levels,
       outputs w' = map PwmLevel levels ++ DirPin (negb cw) :: outputs w) /\
    last_dir (outputs w') = Some (negb cw).
Proof. exact move_meters_outputs. Qed.

(** X2: a move and a hold keep the PWM channel in step with the
    limiter: if the latest PWM level is the duty of [g_slew.current]
    before the call (or the limiter is not initialised yet), it is so
    when the call returns. *)
Theorem pwm_follows_limiter :
  (forall fuel cw meters (a : @move_args F) (w : world) b w',
     pwm_tracks w ->
     move_meters env fuel cw meters a w = Some (b, w') ->
     pwm_tracks w') /\
  (forall fuel hold_ms tow_up_cw (a : @hold_args F) (w : world) b w',
     pwm_tracks w ->
     hold_payload_ms env fuel hold_ms tow_up_cw a w = Some (b, w') ->
     pwm_tracks w').
Proof.
  split.
  - intros fuel cw meters a w b w' Hw E.
    destruct (Z.eq_dec (target_pulses_for_meters meters) 0) as [E0|Hn].
    + unfold move_meters in E. cbv zeta in E. rewrite E0 in E. cbn in E.
      inversion E; subst. exact Hw.
    + destruct (move_meters_does _ _ _ _ _ _ _ Hn E) as (acts & _ & ->).
      now apply pwm_tracks_run.
  - intros fuel hold_ms tow_up_cw a w b w' Hw E.
    destruct (traces_hold_payload_ms _ _ _ _ _ _ _ E) as (acts & _ & ->).
    now apply pwm_tracks_run.
Qed.

(** X3: when a move that had something to do returns, the FG interrupt
    is enabled and the counter holds the number of edges that arrived
    during the call, modulo [2^32]: the reset comes before the first
    observation and nothing else writes the counter. *)
Theorem move_counts_every_edge :
  forall fuel cw meters (a : @move_args F) (w : world) b w',
    target_pulses_for_meters meters <> 0 ->
    move_meters env fuel cw meters a w = Some (b, w') ->
    fg_irq_enabled w' = true /\
    (env_pos w <= env_pos w')%nat /\
    g_fg_pulses w' = wrap32 (arrived env (env_pos w) (env_pos w' - env_pos w)).
Proof.
  intros fuel cw meters a w b w' Ht E.
  destruct (move_meters_does _ _ _ _ _ _ _ Ht E) as (acts & Hok & ->).
  cbn [run_actions fold_left apply_action].
  apply (run_actions_invariant (counts_from env (env_pos w)) drive_action);
    [apply counts_from_drive | exact Hok |].
  unfold counts_from. cbn. rewrite Nat.sub_diag. repeat split. lia.
Qed.

(** ** Results and durations *)

Lemma ensures_ret {A} (a : A) (w : world) (Q : A -> world -> Prop) :
  Q a w -> ensures (ret a) w Q.
Proof. intros HQ a' w' E. inversion E; subst. exact HQ. Qed.

Lemma ensures_bind {A B} (m : M A) (k : A -> M B) (w : world) (Q : B -> world -> Prop) :
  ensures m w (fun a w1 => ensures (k a) w1 Q) -> ensures (bind m k) w Q.
Proof.
  intros Hm b w' E. apply bind_inv in E. destruct E as (a & w1 & Em & Ek).
  exact (Hm _ _ Em _ _ Ek).
Qed.

Lemma ensures_weaken {A} (m : M A) (w : world) (Q Q' : A -> world -> Prop) :
  ensures m w Q -> (forall a w', Q a w' -> Q' a w') -> ensures m w Q'.
Proof. intros Hm HQ a w' E. apply HQ, Hm, E. Qed.

Lemma ensures_conj {A} (m : M A) (w : world) (Q Q' : A -> world -> Prop) :
  ensures m w Q -> ensures m w Q' -> ensures m w (fun a w' => Q a w' /\ Q' a w').
Proof. intros H1 H2 a w' E. split; [apply H1 | apply H2]; exact E. Qed.

Lemma ensures_returns {A} (m : M A) (w : world) (Q : A -> world -> Prop) :
  returns m w Q -> ensures m w Q.
Proof.
  intros (a & w' & E & HQ) a' w'' E'. rewrite E in E'. inversion E'; subst. exact HQ.
Qed.

Lemma ensures_traces {A} (ok : action -> Prop) (m : M A) (I : world -> Prop) (w : world) :
  traces env ok m ->
  (forall a w, ok a -> I w -> I (apply_action env a w)) ->
  I w -> ensures m w (fun _ w' => I w').
Proof.
  intros Hm HI Hw a w' E. destruct (Hm _ _ _ E) as (acts & Hok & ->).
  apply (run_actions_invariant I ok); assumption.
Qed.

Lemma ensures_get_absolute_time (w : world) (Q : Z -> world -> Prop) :
  Q (now_us (advance env w)) (advance env w) -> ensures (get_absolute_time env) w Q.
Proof. intros HQ a w' E. inversion E; subst. exact HQ. Qed.

Lemma ensures_read_fg_pulses (w : world) (Q : Z -> world -> Prop) :
  Q (g_fg_pulses (advance env w)) (advance env w) -> ensures (read_fg_pulses env) w Q.
Proof. intros HQ a w' E. inversion E; subst. exact HQ. Qed.

Lemma ensures_gets {A} (f : world -> A) (w : world) (Q : A -> world -> Prop) :
  Q (f w) w -> ensures (gets f) w Q.
Proof. intros HQ a w' E. inversion E; subst. exact HQ. Qed.

Lemma ensures_out_of_fuel {A} (w : world) (Q : A -> world -> Prop) :
  ensures out_of_fuel w Q.
Proof. intros a w' E. discriminate. Qed.

Lemma advance_now_le (w : world) : now_us w <= now_us (advance env w).
Proof. rewrite advance_now. lia. Qed.

Lemma drive_now_le t (a : action) (w : world) :
  drive_action a -> t <= now_us w -> t <= now_us (apply_action env a w).
Proof.
  destruct a; cbn; try contradiction; intros _ Hw; auto.
  - pose proof (advance_now_le w). lia.
  - destruct (absolute_time_diff_us (last_t (g_slew w)) (now_us w) <=? 0); exact Hw.
Qed.

Lemma drive_pos_le n (a : action) (w : world) :
  drive_action a -> (n <= env_pos w)%nat -> (n <= env_pos (apply_action env a w))%nat.
Proof.
  destruct a; cbn; try contradiction; intros _ Hw; auto.
  - rewrite advance_pos. lia.
  - destruct (absolute_time_diff_us (last_t (g_slew w)) (now_us w) <=? 0); exact Hw.
Qed.

(** The settle loop returns no earlier than [settle_us] after [t0], with
    the command of the limiter as it was. *)
Lemma brake_wait_ensures t0 settle_us :
  forall fuel (w : world),
    initialized (g_slew w) = true ->
    ensures (brake_wait env fuel t0 settle_us) w (fun _ w' =>
      t0 + settle_us <= now_us w' /\
      initialized (g_slew w') = true /\
      target (g_slew w') = target (g_slew w) /\
      rate (g_slew w') = rate (g_slew w)).
Proof.
  induction fuel as [|fuel IH]; intros w Hi; cbn [brake_wait].
  - apply ensures_out_of_fuel.
  - apply ensures_bind, ensures_get_absolute_time.
    unfold absolute_time_diff_us.
    destruct (now_us (advance env w) - t0 <? settle_us) eqn:Hlt.
    + apply ensures_bind.
      eapply ensures_weaken; [apply ensures_returns, slew_update_spec|].
      intros [] w2 (Hi2 & Hkeep & _). cbv beta.
      rewrite advance_slew in Hkeep. destruct (Hkeep Hi) as [Ht2 Hr2].
      eapply ensures_weaken; [apply IH; exact Hi2|].
      intros [] w3 (Hd & Hi3 & Ht3 & Hr3). cbv beta. repeat split; congruence || lia.
    + apply ensures_ret. apply Z.ltb_ge in Hlt. rewrite advance_slew.
      repeat split; auto. lia.
Qed.

(** However long the loop is given, a brake that returns has lasted at
    least [settle_ms] and leaves the limiter commanding a stop. *)
Lemma brake_to_stop_ensures fuel settle_ms (w : world) :
  ensures (brake_to_stop env fuel settle_ms) w (fun _ w' =>
    now_us w + settle_ms * 1000 <= now_us w' /\ braked w').
Proof.
  unfold brake_to_stop. apply ensures_bind.
  eapply ensures_weaken.
  - apply ensures_conj.
    + apply ensures_returns, slew_set_target_spec.
    + apply (ensures_traces drive_action _ (fun w' => now_us w <= now_us w'));
        [apply traces_slew_set_target | apply drive_now_le | lia].
  - intros [] w1 [((Hi & Ht & Hr) & _) Hn]. cbv beta.
    apply ensures_bind, ensures_get_absolute_time.
    eapply ensures_weaken; [apply brake_wait_ensures; now rewrite advance_slew|].
    intros [] w2 (Hd & Hi2 & Ht2 & Hr2). cbv beta.
    pose proof (advance_now_le w1). rewrite advance_slew in Ht2, Hr2.
    split; [lia|]. unfold braked, commands. repeat split; congruence.
Qed.

(** X4: with a live timer and enough fuel for the settle loop,
    [brake_to_stop] returns, no earlier than [settle_ms] after the
    call, with the limiter commanding 0 % at 400 %/s; it writes PWM
    levels only and leaves the direction pin alone. *)
Theorem brake_lasts_settle_time :
  forall (K : nat) settle_ms fuel (w : world),
    paced env K ->
    (brake_fuel K settle_ms <= fuel)%nat ->
    exists w',
      brake_to_stop env fuel settle_ms w = Some (tt, w') /\
      now_us w + settle_ms * 1000 <= now_us w' /\
      target (g_slew w') = clamp_percent (of_int 0) /\
      rate (g_slew w') = (if fle (of_int 400) (of_int 0) then of_int 1 else of_int 400) /\
      exists levels, outputs w' = map PwmLevel levels ++ outputs w.
Proof.
  intros K settle_ms fuel w HK Hf.
  destruct (brake_to_stop_returns env K settle_ms fuel w HK Hf) as ([] & w' & E & _).
  exists w'. split; [exact E|].
  destruct (brake_to_stop_ensures _ _ _ _ _ E) as (Hd & _ & Ht & Hr).
  repeat split; auto.
  destruct (traces_brake_to_stop _ _ _ _ _ E) as (acts & Hok & ->).
  now apply drive_outputs.
Qed.

Lemma nudge_ensures fuel tow_up_cw a (w : world) :
  ensures (nudge env fuel tow_up_cw a) w (fun _ w' => braked w').
Proof.
  unfold nudge.
  do 4 (apply ensures_bind; intros ? ? _).
  apply ensures_bind.
  eapply ensures_weaken; [apply brake_to_stop_ensures|].
  intros [] w5 [_ Hb]. cbv beta.
  apply ensures_bind. intros [] w6 E6. inversion E6; subst.
  apply ensures_get_absolute_time. exact Hb.
Qed.

Lemma hold_body_ensures fuel tow_up_cw a last_nudge (w : world) :
  braked w -> ensures (hold_body env fuel tow_up_cw a last_nudge) w (fun _ w' => braked w').
Proof.
  intros (Hi & Ht & Hr). unfold hold_body. apply ensures_bind.
  eapply ensures_weaken; [apply ensures_returns, slew_update_spec|].
  intros [] w1 (Hi1 & Hkeep & _). cbv beta. destruct (Hkeep Hi) as [Ht1 Hr1].
  assert (Hb1 : braked (advance env w1)).
  { unfold braked, commands. rewrite advance_slew. repeat split; congruence. }
  apply ensures_bind, ensures_read_fg_pulses.
  destruct (g_fg_pulses (advance env w1) >? deadband_pulses a); [|now apply ensures_ret].
  apply ensures_bind, ensures_get_absolute_time.
  destruct (absolute_time_diff_us last_nudge (now_us (advance env (advance env w1)))
              >? min_nudge_gap_ms a * 1000).
  - apply nudge_ensures.
  - apply ensures_ret. unfold braked, commands in *. now rewrite advance_slew.
Qed.

Lemma hold_loop_ensures hold_ms tow_up_cw a t0 :
  forall fuel last_nudge (w : world),
    braked w ->
    ensures (hold_loop env fuel hold_ms tow_up_cw a t0 last_nudge) w (fun b w' =>
      b = true /\ t0 + hold_ms * 1000 <= now_us w' /\ braked w').
Proof.
  induction fuel as [|fuel IH]; intros last_nudge w Hb; cbn [hold_loop].
  - apply ensures_out_of_fuel.
  - apply ensures_bind, ensures_get_absolute_time.
    assert (Hb1 : braked (advance env w)).
    { unfold braked, commands in *. now rewrite advance_slew. }
    unfold absolute_time_diff_us.
    destruct (now_us (advance env w) - t0 <? hold_ms * 1000) eqn:Hlt.
    + apply ensures_bind.
      eapply ensures_weaken; [apply hold_body_ensures; exact Hb1|].
      intros last_nudge' w2 Hb2. cbv beta.
      apply ensures_bind. intros [] w3 E3. inversion E3; subst.
      apply IH. unfold braked, commands in *. now rewrite advance_slew.
    + apply ensures_ret. apply Z.ltb_ge in Hlt. split; [reflexivity|].
      split; [lia | exact Hb1].
Qed.

Lemma hold_payload_ms_ensures :
  forall fuel hold_ms tow_up_cw (a : @hold_args F) (w : world) b w',
    hold_payload_ms env fuel hold_ms tow_up_cw a w = Some (b, w') ->
    b = true /\
    now_us w + 200 * 1000 + hold_ms * 1000 <= now_us w' /\
    initialized (g_slew w') = true /\
    target (g_slew w') = clamp_percent (of_int 0).
Proof.
  intros fuel hold_ms tow_up_cw a w.
  change (ensures (hold_payload_ms env fuel hold_ms tow_up_cw a) w (fun b w' =>
    b = true /\ now_us w + 200 * 1000 + hold_ms * 1000 <= now_us w' /\
    initialized (g_slew w') = true /\ target (g_slew w') = clamp_percent (of_int 0))).
  unfold hold_payload_ms. apply ensures_bind.
  eapply ensures_weaken; [apply brake_to_stop_ensures|].
  intros [] w1 [Hd Hb]. cbv beta.
  apply ensures_bind. intros [] w2 E2. inversion E2; subst. clear E2.
  apply ensures_bind, ensures_get_absolute_time.
  apply ensures_bind, ensures_get_absolute_time.
  eapply ensures_weaken.
  - apply hold_loop_ensures. unfold braked, commands in *.
    now rewrite !advance_slew.
  - intros b' w3 (-> & Hd3 & Hi3 & Ht3 & _). cbv beta.
    rewrite advance_now in Hd3. cbn in Hd3. repeat split; auto. lia.
Qed.

(** X5: a hold reports nothing but [true]; when it returns, at least
    200 ms of settling and [hold_ms] of holding have passed since the
    call, and the limiter commands 0 % again, also after nudges. *)
Theorem hold_lasts_and_ends_stopped :
  forall fuel hold_ms tow_up_cw (a : @hold_args F) (w : world) b w',
    hold_payload_ms env fuel hold_ms tow_up_cw a w = Some (b, w') ->
    b = true /\
    now_us w + 200 * 1000 + hold_ms * 1000 <= now_us w' /\
    initialized (g_slew w') = true /\
    target (g_slew w') = clamp_percent (of_int 0).
Proof. exact hold_payload_ms_ensures. Qed.

(** ** Success and failure of a move *)

Lemma ensures_does {A} (ok : action -> Prop) (m : M A) (w : world) :
  traces env ok m ->
  ensures m w (fun _ w' => exists acts, Forall ok acts /\ w' = run_actions env acts w).
Proof. intros Hm a w' E. exact (Hm _ _ _ E). Qed.

Lemma stall_detection_fails fuel a l (w : world) :
  ensures (stall_detection env fuel a l) w (fun r _ => r <> Return true).
Proof.
  unfold stall_detection. apply ensures_bind, ensures_get_absolute_time.
  destruct (_ >? _); [|apply ensures_ret; discriminate].
  apply ensures_bind, ensures_read_fg_pulses.
  apply ensures_bind. intros cmd w1 _.
  destruct (_ && _).
  - apply ensures_bind. intros _ w2 _. apply ensures_ret. discriminate.
  - apply ensures_bind, ensures_read_fg_pulses.
    apply ensures_bind, ensures_get_absolute_time.
    apply ensures_ret. discriminate.
Qed.

Lemma timeout_check_fails fuel a t0 l (w : world) :
  ensures (timeout_check env fuel a t0 l) w (fun r _ => r <> Return true).
Proof.
  unfold timeout_check. apply ensures_bind, ensures_get_absolute_time.
  destruct (_ >? _); [|apply ensures_ret; discriminate].
  apply ensures_bind. intros _ w2 _. apply ensures_ret. discriminate.
Qed.

Lemma move_body_fails fuel a target_p pad_pulses t0 l (w : world) :
  ensures (move_body env fuel a target_p pad_pulses t0 l) w (fun r _ => r <> Return true).
Proof.
  unfold move_body. apply ensures_bind. intros _ w1 _.
  apply ensures_bind. intros now w2 _.
  apply ensures_bind.
  eapply ensures_weaken; [apply stall_detection_fails|].
  intros [b|l1] w3 Hr; cbv beta; [apply ensures_ret; exact Hr|].
  apply ensures_bind.
  eapply ensures_weaken; [apply timeout_check_fails|].
  intros [b|l2] w4 Hr'; cbv beta; [apply ensures_ret; exact Hr'|].
  apply ensures_bind. intros l3 w5 _. apply ensures_ret. discriminate.
Qed.

(** A loop that reports success has read a count of at least the target
    and then braked. *)
Lemma move_loop_success (I : world -> Prop) a target_p pad_pulses t0 :
  (forall a w, drive_action a -> I w -> I (apply_action env a w)) ->
  forall fuel l (w : world),
    I w ->
    ensures (move_loop env fuel a target_p pad_pulses t0 l) w (fun b w' =>
      b = true ->
      exists wx acts,
        I wx /\ target_p <= g_fg_pulses wx /\
        Forall drive_action acts /\ w' = run_actions env acts wx).
Proof.
  intros HI. induction fuel as [|fuel IH]; intros l w Hw; cbn [move_loop].
  - apply ensures_out_of_fuel.
  - apply ensures_bind, ensures_read_fg_pulses.
    assert (Hw1 : I (advance env w)) by (apply (HI Tick); [exact Logic.I | exact Hw]).
    destruct (g_fg_pulses (advance env w) <? target_p) eqn:Hlt.
    + apply ensures_bind.
      eapply ensures_weaken.
      * apply ensures_conj; [apply move_body_fails|].
        apply (ensures_traces drive_action _ I);
          [apply traces_move_body | exact HI | exact Hw1].
      * intros [b|l'] w2 [Hr Hw2]; cbv beta.
        -- apply ensures_ret. intros ->. now contradiction Hr.
        -- apply IH. exact Hw2.
    + apply Z.ltb_ge in Hlt. apply ensures_bind.
      eapply ensures_weaken; [apply (ensures_does drive_action), traces_brake_to_stop|].
      intros [] w2 (acts & Hok & ->). cbv beta. apply ensures_ret. intros _.
      exists (advance env w), acts. auto.
Qed.

Lemma wrap32_le z : 0 <= z -> wrap32 z <= z.
Proof. intros Hz. unfold wrap32. apply Z.mod_le; lia. Qed.

(** X6: a move reports success only if at least [target] edges arrived
    on the FG line during the call. *)
Theorem move_success_needs_edges :
  forall fuel cw meters (a : @move_args F) (w w' : world),
    move_meters env fuel cw meters a w = Some (true, w') ->
    (env_pos w <= env_pos w')%nat /\
    target_pulses_for_meters meters
      <= arrived env (env_pos w) (env_pos w' - env_pos w).
Proof.
  intros fuel cw meters a w w' E.
  enough (Hgoal : ensures (move_meters env fuel cw meters a) w (fun b w' =>
            b = true ->
            (env_pos w <= env_pos w')%nat /\
            target_pulses_for_meters meters
              <= arrived env (env_pos w) (env_pos w' - env_pos w)))
    by exact (Hgoal _ _ E eq_refl).
  unfold move_meters. cbv zeta.
  destruct (target_pulses_for_meters meters =? 0) eqn:E0.
  { apply Z.eqb_eq in E0. apply ensures_ret. intros _.
    rewrite E0, Nat.sub_diag. cbn. lia. }
  apply ensures_bind. intros [] w1 E1. inversion E1; subst w1. clear E1.
  apply ensures_bind. intros [] w2 E2. inversion E2; subst w2. clear E2.
  set (I := fun w' : world => counts_from env (env_pos w) w').
  assert (HI : forall a w, drive_action a -> I w -> I (apply_action env a w))
    by (intros; now apply counts_from_drive).
  apply ensures_bind.
  eapply ensures_weaken.
  { apply (ensures_traces drive_action _ I); [apply traces_slew_set_target | exact HI |].
    unfold I, counts_from. cbn. rewrite Nat.sub_diag. repeat split. lia. }
  intros [] w3 Hw3. cbv beta.
  apply ensures_bind, ensures_get_absolute_time.
  apply ensures_bind, ensures_get_absolute_time.
  apply ensures_bind, ensures_read_fg_pulses.
  eapply ensures_weaken.
  { apply (move_loop_success I); [exact HI|].
    do 3 apply (HI Tick _ Logic.I). exact Hw3. }
  intros b' w4 Hs Hb. destruct (Hs Hb) as (wx & acts & (Hirq & Hpos & Hg) & Hge & Hok & ->).
  assert (Hp : (env_pos wx <= env_pos (run_actions env acts wx))%nat).
  { apply (run_actions_invariant (fun w' => (env_pos wx <= env_pos w')%nat) drive_action);
      [apply drive_pos_le | exact Hok | lia]. }
  split; [lia|].
  pose proof (wrap32_le _ (arrived_nonneg (env_pos w) (env_pos wx - env_pos w))).
  pose proof (arrived_mono (env_pos w) (env_pos wx - env_pos w)
                (env_pos (run_actions env acts wx) - env_pos w)).
  lia.
Qed.

(** ** Below the lowest band *)

Lemma unwatched_advance (w : world) : unwatched w -> unwatched (advance env w).
Proof. unfold unwatched. now rewrite advance_slew. Qed.

Lemma stall_detection_unwatched fuel a l (w : world) :
  unwatched w ->
  ensures (stall_detection env fuel a l) w (fun r w' =>
    (exists l', r = Continue l') /\ unwatched w').
Proof.
  intros Hu. unfold stall_detection. apply ensures_bind, ensures_get_absolute_time.
  destruct (_ >? _).
  - apply ensures_bind, ensures_read_fg_pulses.
    apply ensures_bind, ensures_gets.
    do 2 apply unwatched_advance in Hu. destruct Hu as [Hi Hm]. cbv beta zeta.
    rewrite Hm. cbn [Z.gtb Z.compare andb].
    apply ensures_bind, ensures_read_fg_pulses.
    apply ensures_bind, ensures_get_absolute_time.
    apply ensures_ret. split; [now eexists|].
    do 2 apply unwatched_advance. now split.
  - apply ensures_ret. split; [now eexists | now apply unwatched_advance].
Qed.

Lemma timeout_check_unwatched fuel a t0 l (w : world) :
  unwatched w ->
  ensures (timeout_check env fuel a t0 l) w (fun r w' =>
    match r with
    | Return _ => t0 + timeout_ms a * 1000 + 300 * 1000 < now_us w'
    | Continue _ => unwatched w'
    end).
Proof.
  intros Hu. unfold timeout_check. apply ensures_bind, ensures_get_absolute_time.
  unfold absolute_time_diff_us.
  destruct (now_us (advance env w) - t0 >? timeout_ms a * 1000) eqn:Hgt.
  - apply Z.gtb_lt in Hgt. apply ensures_bind.
    eapply ensures_weaken; [apply brake_to_stop_ensures|].
    intros [] w2 [Hd _]. cbv beta. apply ensures_ret. lia.
  - apply ensures_ret. now apply unwatched_advance.
Qed.

Lemma speed_selection_unwatched a now target_p pad_pulses l (w : world) :
  min_pulses_for (clamp_percent (cruise_percent a)) = 0 ->
  min_pulses_for (clamp_percent (padding_speed a)) = 0 ->
  unwatched w ->
  ensures (speed_selection env a now target_p pad_pulses l) w (fun _ w' => unwatched w').
Proof.
  intros Hc Hp Hu. unfold speed_selection. cbv zeta.
  destruct (flt _ _); [|now apply ensures_ret].
  apply ensures_bind.
  eapply ensures_weaken; [apply ensures_returns, slew_set_target_spec|].
  intros [] w1 ((Hi & Ht & _) & _). cbv beta. apply ensures_ret.
  split; [exact Hi|]. rewrite Ht. unfold desired_speed_for.
  destruct (now <? pad_pulses); [exact Hp|].
  destruct (remaining_pulses now target_p <? pad_pulses); assumption.
Qed.

Lemma move_body_unwatched fuel a target_p pad_pulses t0 l (w : world) :
  min_pulses_for (clamp_percent (cruise_percent a)) = 0 ->
  min_pulses_for (clamp_percent (padding_speed a)) = 0 ->
  unwatched w ->
  ensures (move_body env fuel a target_p pad_pulses t0 l) w (fun r w' =>
    match r with
    | Return _ => t0 + timeout_ms a * 1000 + 300 * 1000 < now_us w'
    | Continue _ => unwatched w'
    end).
Proof.
  intros Hc Hp [Hi Hm]. unfold move_body. apply ensures_bind.
  eapply ensures_weaken; [apply ensures_returns, slew_update_spec|].
  intros [] w1 (Hi1 & Hkeep & _). cbv beta. destruct (Hkeep Hi) as [Ht1 _].
  assert (Hu1 : unwatched w1) by (split; [exact Hi1 | now rewrite Ht1]).
  apply ensures_bind, ensures_read_fg_pulses.
  apply ensures_bind.
  eapply ensures_weaken;
    [apply stall_detection_unwatched; apply unwatched_advance; exact Hu1|].
  intros r w3 [(l1 & ->) Hu3]. cbv beta.
  apply ensures_bind.
  eapply ensures_weaken; [apply timeout_check_unwatched; exact Hu3|].
  intros [b|l2] w4 Hr; cbv beta; [apply ensures_ret; exact Hr|].
  apply ensures_bind.
  eapply ensures_weaken; [apply speed_selection_unwatched; assumption|].
  intros l3 w5 Hu5. cbv beta. apply ensures_ret. exact Hu5.
Qed.

Lemma move_loop_unwatched a target_p pad_pulses t0 :
  min_pulses_for (clamp_percent (cruise_percent a)) = 0 ->
  min_pulses_for (clamp_percent (padding_speed a)) = 0 ->
  forall fuel l (w : world),
    unwatched w ->
    ensures (move_loop env fuel a target_p pad_pulses t0 l) w (fun b w' =>
      b = false -> t0 + timeout_ms a * 1000 + 300 * 1000 < now_us w').
Proof.
  intros Hc Hp. induction fuel as [|fuel IH]; intros l w Hu; cbn [move_loop].
  - apply ensures_out_of_fuel.
  - apply ensures_bind, ensures_read_fg_pulses.
    destruct (_ <? _).
    + apply ensures_bind.
      eapply ensures_weaken;
        [apply move_body_unwatched; [exact Hc | exact Hp | apply unwatched_advance, Hu]|].
      intros [b|l'] w2 Hr; cbv beta.
      * apply ensures_ret. intros _. exact Hr.
      * apply IH. exact Hr.
    + apply ensures_bind. intros _ w2 _. apply ensures_ret. discriminate.
Qed.

(** X7: when the cruise speed and the padding speed are both below
    15 %, the stall detection expects no pulse and never ends the move:
    a failure is reported only after more than [timeout_ms], and the
    300 ms of the brake, have passed since the call. *)
Theorem slow_move_fails_by_timeout_only :
  forall fuel cw meters (a : @move_args F) (w w' : world),
    min_pulses_for (clamp_percent (cruise_percent a)) = 0 ->
    min_pulses_for (clamp_percent (padding_speed a)) = 0 ->
    move_meters env fuel cw meters a w = Some (false, w') ->
    now_us w + timeout_ms a * 1000 + 300 * 1000 < now_us w'.
Proof.
  intros fuel cw meters a w w' Hc Hp E.
  enough (Hgoal : ensures (move_meters env fuel cw meters a) w (fun b w' =>
            b = false -> now_us w + timeout_ms a * 1000 + 300 * 1000 < now_us w'))
    by exact (Hgoal _ _ E eq_refl).
  unfold move_meters. cbv zeta.
  destruct (target_pulses_for_meters meters =? 0); [apply ensures_ret; discriminate|].
  apply ensures_bind. intros [] w1 E1. inversion E1; subst w1. clear E1.
  apply ensures_bind. intros [] w2 E2. inversion E2; subst w2. clear E2.
  apply ensures_bind.
  eapply ensures_weaken.
  { apply ensures_conj.
    - apply ensures_returns, slew_set_target_spec.
    - apply (ensures_traces drive_action _ (fun w' => now_us w <= now_us w'));
        [apply traces_slew_set_target | apply drive_now_le | cbn; lia]. }
  intros [] w3 [((Hi & Ht & _) & _) Hn]. cbv beta.
  assert (Hu : unwatched w3).
  { split; [exact Hi|]. rewrite Ht. destruct (_ >? _); assumption. }
  apply ensures_bind, ensures_get_absolute_time.
  apply ensures_bind, ensures_get_absolute_time.
  apply ensures_bind, ensures_read_fg_pulses.
  eapply ensures_weaken.
  { apply move_loop_unwatched; [exact Hc | exact Hp|]. do 3 apply unwatched_advance. exact Hu. }
  intros b w4 Hb Hf. specialize (Hb Hf). cbv beta in Hb.
  pose proof (advance_now_le w3). lia.
Qed.

(** ** Within the deadband *)

Lemma undisturbed_drive base (a : action) (w : world) :
  drive_action a -> undisturbed env base w -> undisturbed env base (apply_action env a w).
Proof.
  intros Ha [(p0 & Hc) (levels & Ho)]. split.
  - exists p0. now apply counts_from_drive.
  - destruct (drive_outputs [a] w) as (levels' & E); [now repeat constructor|].
    cbn in E. rewrite E, Ho. exists (levels' ++ levels).
    now rewrite map_app, app_assoc.
Qed.

Lemma undisturbed_advance base (w : world) :
  undisturbed env base w -> undisturbed env base (advance env w).
Proof. apply (undisturbed_drive base Tick w Logic.I). Qed.

Lemma undisturbed_deadband base (a : @hold_args F) (w : world) :
  (forall i n, arrived env i n <= deadband_pulses a) ->
  undisturbed env base w ->
  (g_fg_pulses w >? deadband_pulses a) = false.
Proof.
  intros Hfew [(p0 & _ & _ & Hg) _].
  pose proof (wrap32_le _ (arrived_nonneg p0 (env_pos w - p0))).
  specialize (Hfew p0 (env_pos w - p0)%nat).
  destruct (g_fg_pulses w >? deadband_pulses a) eqn:E; [|reflexivity].
  apply Z.gtb_lt in E. lia.
Qed.

Lemma hold_body_undisturbed base fuel tow_up_cw a last_nudge (w : world) :
  (forall i n, arrived env i n <= deadband_pulses a) ->
  undisturbed env base w ->
  ensures (hold_body env fuel tow_up_cw a last_nudge) w (fun _ w' => undisturbed env base w').
Proof.
  intros Hfew Hw. unfold hold_body. apply ensures_bind.
  eapply ensures_weaken.
  { apply (ensures_traces drive_action _ (undisturbed env base));
      [apply traces_slew_update | apply undisturbed_drive | exact Hw]. }
  intros [] w1 Hw1. cbv beta. apply ensures_bind, ensures_read_fg_pulses.
  apply undisturbed_advance in Hw1.
  rewrite (undisturbed_deadband base a _ Hfew Hw1). now apply ensures_ret.
Qed.

Lemma hold_loop_undisturbed base hold_ms tow_up_cw a t0 :
  (forall i n, arrived env i n <= deadband_pulses a) ->
  forall fuel last_nudge (w : world),
    undisturbed env base w ->
    ensures (hold_loop env fuel hold_ms tow_up_cw a t0 last_nudge) w
      (fun _ w' => undisturbed env base w').
Proof.
  intros Hfew. induction fuel as [|fuel IH]; intros last_nudge w Hw; cbn [hold_loop].
  - apply ensures_out_of_fuel.
  - apply ensures_bind, ensures_get_absolute_time.
    apply undisturbed_advance in Hw.
    destruct (_ <? _); [|now apply ensures_ret].
    apply ensures_bind.
    eapply ensures_weaken; [apply hold_body_undisturbed; eassumption|].
    intros last_nudge' w2 Hw2. cbv beta.
    apply ensures_bind. intros [] w3 E3. inversion E3; subst. clear E3.
    apply IH. apply undisturbed_advance. exact Hw2.
Qed.

(** X8: when no more than [deadband_pulses] edges ever arrive, a hold
    never nudges: all it writes are PWM levels, the direction pin is
    left alone, and the counter, reset once, stays within the
    deadband. *)
Theorem hold_within_deadband_never_nudges :
  forall fuel hold_ms tow_up_cw (a : @hold_args F) (w : world) b w',
    (forall i n, arrived env i n <= deadband_pulses a) ->
    hold_payload_ms env fuel hold_ms tow_up_cw a w = Some (b, w') ->
    (exists levels, outputs w' = map PwmLevel levels ++ outputs w) /\
    g_fg_pulses w' <= deadband_pulses a.
Proof.
  intros fuel hold_ms tow_up_cw a w b w' Hfew E.
  enough (Hgoal : ensures (hold_payload_ms env fuel hold_ms tow_up_cw a) w
                    (fun _ w' => undisturbed env (outputs w) w')).
  { pose proof (Hgoal _ _ E) as Hu. split; [exact (proj2 Hu)|].
    pose proof (undisturbed_deadband _ a _ Hfew Hu) as Hd.
    destruct (Z.gtb_spec (g_fg_pulses w') (deadband_pulses a)); [discriminate | lia]. }
  unfold hold_payload_ms. apply ensures_bind.
  eapply ensures_weaken; [apply (ensures_does drive_action), traces_brake_to_stop|].
  intros [] w1 (acts & Hok & ->). cbv beta.
  apply ensures_bind. intros [] w2 E2. inversion E2; subst w2. clear E2.
  apply ensures_bind, ensures_get_absolute_time.
  apply ensures_bind, ensures_get_absolute_time.
  apply hold_loop_undisturbed; [exact Hfew|].
  do 2 apply undisturbed_advance. split.
  - exists (env_pos (run_actions env acts w)). unfold counts_from. cbn.
    rewrite Nat.sub_diag. repeat split. lia.
  - cbn. now apply drive_outputs.
Qed.

(** ** Every way out of the loop brakes *)

Lemma stall_detection_brakes (I : world -> Prop) fuel a l (w : world) :
  (forall a w, drive_action a -> I w -> I (apply_action env a w)) ->
  I w ->
  ensures (stall_detection env fuel a l) w (fun r w' =>
    match r with
    | Return _ => exists wb, I wb /\ brake_to_stop env fuel 300 wb = Some (tt, w')
    | Continue _ => I w'
    end).
Proof.
  intros HI Hw. unfold stall_detection.
  assert (Ht : forall w, I w -> I (advance env w))
    by (intros w0; apply (HI Tick w0 Logic.I)).
  apply ensures_bind, ensures_get_absolute_time.
  destruct (_ >? _); [|apply ensures_ret; auto].
  apply ensures_bind, ensures_read_fg_pulses.
  apply ensures_bind, ensures_gets. cbv beta zeta.
  destruct (_ && _).
  - apply ensures_bind. intros [] w2 E2. apply ensures_ret.
    exists (advance env (advance env w)). auto.
  - apply ensures_bind, ensures_read_fg_pulses.
    apply ensures_bind, ensures_get_absolute_time.
    apply ensures_ret. auto.
Qed.

Lemma timeout_check_brakes (I : world -> Prop) fuel a t0 l (w : world) :
  (forall a w, drive_action a -> I w -> I (apply_action env a w)) ->
  I w ->
  ensures (timeout_check env fuel a t0 l) w (fun r w' =>
    match r with
    | Return _ => exists wb, I wb /\ brake_to_stop env fuel 300 wb = Some (tt, w')
    | Continue _ => I w'
    end).
Proof.
  intros HI Hw. unfold timeout_check.
  assert (Ht : forall w, I w -> I (advance env w))
    by (intros w0; apply (HI Tick w0 Logic.I)).
  apply ensures_bind, ensures_get_absolute_time.
  destruct (_ >? _); [|apply ensures_ret; auto].
  apply ensures_bind. intros [] w2 E2. apply ensures_ret.
  exists (advance env w). auto.
Qed.

Lemma move_body_brakes (I : world -> Prop) fuel a target_p pad_pulses t0 l (w : world) :
  (forall a w, drive_action a -> I w -> I (apply_action env a w)) ->
  I w ->
  ensures (move_body env fuel a target_p pad_pulses t0 l) w (fun r w' =>
    match r with
    | Return _ => exists wb, I wb /\ brake_to_stop env fuel 300 wb = Some (tt, w')
    | Continue _ => I w'
    end).
Proof.
  intros HI Hw. unfold move_body.
  apply ensures_bind.
  eapply ensures_weaken;
    [apply (ensures_traces drive_action _ I); [apply traces_slew_update | exact HI | exact Hw]|].
  intros [] w1 Hw1. cbv beta.
  apply ensures_bind, ensures_read_fg_pulses.
  apply (HI Tick _ Logic.I) in Hw1.
  apply ensures_bind.
  eapply ensures_weaken; [apply stall_detection_brakes; [exact HI | exact Hw1]|].
  intros [b|l1] w3 Hr; cbv beta; [apply ensures_ret; exact Hr|].
  apply ensures_bind.
  eapply ensures_weaken; [apply timeout_check_brakes; [exact HI | exact Hr]|].
  intros [b|l2] w4 Hr'; cbv beta; [apply ensures_ret; exact Hr'|].
  apply ensures_bind.
  eapply ensures_weaken;
    [apply (ensures_traces drive_action _ I);
       [apply traces_speed_selection | exact HI | exact Hr']|].
  intros l3 w5 Hw5. cbv beta. apply ensures_ret. exact Hw5.
Qed.

Lemma move_loop_brakes (I : world -> Prop) a target_p pad_pulses t0 :
  (forall a w, drive_action a -> I w -> I (apply_action env a w)) ->
  forall fuel l (w : world),
    I w ->
    ensures (move_loop env fuel a target_p pad_pulses t0 l) w (fun _ w' =>
      exists fuel' wb, I wb /\ brake_to_stop env fuel' 300 wb = Some (tt, w')).
Proof.
  intros HI. induction fuel as [|fuel IH]; intros l w Hw; cbn [move_loop].
  - apply ensures_out_of_fuel.
  - apply ensures_bind, ensures_read_fg_pulses.
    apply (HI Tick _ Logic.I) in Hw.
    destruct (_ <? _).
    + apply ensures_bind.
      eapply ensures_weaken; [apply move_body_brakes; [exact HI | exact Hw]|].
      intros [b|l'] w2 Hr; cbv beta.
      * apply ensures_ret. destruct Hr as (wb & Hwb & E). now exists fuel, wb.
      * apply IH. exact Hr.
    + apply ensures_bind. intros [] w2 E2. apply ensures_ret.
      now exists fuel, (advance env w).
Qed.

(** A move that has something to do ends with a brake of 300 ms, on
    every path. *)
Lemma move_meters_brakes (I : world -> Prop) fuel cw meters a (w : world) :
  (forall a w, drive_action a -> I w -> I (apply_action env a w)) ->
  (forall w, I w -> I (apply_action env ResetCounter w)) ->
  (forall high w, I w -> I (apply_action env (WriteDir high) w)) ->
  target_pulses_for_meters meters <> 0 ->
  I w ->
  ensures (move_meters env fuel cw meters a) w (fun _ w' =>
    exists fuel' wb, I wb /\ brake_to_stop env fuel' 300 wb = Some (tt, w')).
Proof.
  intros HI Hreset Hdir Ht Hw. unfold move_meters. cbv zeta.
  destruct (target_pulses_for_meters meters =? 0) eqn:E0;
    [apply Z.eqb_eq in E0; contradiction|].
  apply ensures_bind. intros [] w1 E1. inversion E1; subst w1. clear E1.
  apply ensures_bind. intros [] w2 E2. inversion E2; subst w2. clear E2.
  apply Hreset, (Hdir (negb cw)) in Hw.
  apply ensures_bind.
  eapply ensures_weaken;
    [apply (ensures_traces drive_action _ I);
       [apply traces_slew_set_target | exact HI | exact Hw]|].
  intros [] w3 Hw3. cbv beta.
  apply ensures_bind, ensures_get_absolute_time.
  apply ensures_bind, ensures_get_absolute_time.
  apply ensures_bind, ensures_read_fg_pulses.
  apply move_loop_brakes; [exact HI|].
  do 3 apply (HI Tick _ Logic.I). exact Hw3.
Qed.

(** ** How long a move can take *)

Lemma advance_now_gap gap (w : world) :
  gapped env gap -> now_us (advance env w) <= now_us w + gap.
Proof. intros Hg. rewrite advance_now. specialize (Hg (env_pos w)). lia. Qed.

Lemma gapped_nonneg gap : gapped env gap -> 0 <= gap.
Proof. intros Hg. specialize (Hg O). lia. Qed.

Lemma slew_init_within gap start (w : world) :
  gapped env gap ->
  ensures (slew_init env start) w (fun _ w' => now_us w' <= now_us w + gap).
Proof.
  intros Hg [] w' E. cbv [slew_init bind get_absolute_time modify set_speed
                            pwm_set_chan_level] in E.
  inversion E; subst. cbn. now apply advance_now_gap.
Qed.

Lemma ensure_initialized_within gap (w : world) :
  gapped env gap ->
  ensures (ensure_initialized env) w (fun _ w' => now_us w' <= now_us w + gap).
Proof.
  intros Hg. pose proof (gapped_nonneg gap Hg) as Hg0.
  unfold ensure_initialized. apply ensures_bind, ensures_gets.
  destruct (initialized (g_slew w)); [apply ensures_ret; lia|].
  now apply slew_init_within.
Qed.

Lemma slew_set_target_within gap tp r (w : world) :
  gapped env gap ->
  ensures (slew_set_target env tp r) w (fun _ w' => now_us w' <= now_us w + gap).
Proof.
  intros Hg. unfold slew_set_target. apply ensures_bind.
  eapply ensures_weaken; [apply ensure_initialized_within, Hg|].
  intros [] w1 H1. cbv beta. intros [] w2 E. inversion E; subst. exact H1.
Qed.

Lemma slew_update_within gap (w : world) :
  gapped env gap ->
  ensures (slew_update env) w (fun _ w' => now_us w' <= now_us w + 2 * gap).
Proof.
  intros Hg. unfold slew_update. apply ensures_bind.
  eapply ensures_weaken; [apply ensure_initialized_within, Hg|].
  intros [] w1 H1. cbv beta in *.
  apply ensures_bind, ensures_get_absolute_time.
  pose proof (advance_now_gap gap w1 Hg) as Gap1.
  apply ensures_bind, ensures_gets. cbv zeta.
  destruct (_ <=? _); [apply ensures_ret; lia|].
  intros [] w2 E. cbv [bind modify gets set_speed pwm_set_chan_level] in E.
  inversion E; subst. cbn [now_us emit set_g_slew]. lia.
Qed.

Lemma brake_wait_within gap t0 settle_us :
  gapped env gap ->
  forall fuel (w : world),
    now_us w <= t0 + settle_us + 2 * gap ->
    ensures (brake_wait env fuel t0 settle_us) w (fun _ w' =>
      now_us w' <= t0 + settle_us + 3 * gap).
Proof.
  intros Hg. induction fuel as [|fuel IH]; intros w Hw; cbn [brake_wait].
  - apply ensures_out_of_fuel.
  - apply ensures_bind, ensures_get_absolute_time.
    pose proof (advance_now_gap gap w Hg) as Gap2.
    unfold absolute_time_diff_us.
    destruct (Z.ltb_spec (now_us (advance env w) - t0) settle_us).
    + apply ensures_bind.
      eapply ensures_weaken; [apply slew_update_within, Hg|].
      intros [] w2 H2. cbv beta in *. apply IH. lia.
    + apply ensures_ret. lia.
Qed.

Lemma brake_to_stop_within gap fuel settle_ms (w : world) :
  gapped env gap -> 0 <= settle_ms ->
  ensures (brake_to_stop env fuel settle_ms) w (fun _ w' =>
    now_us w' <= now_us w + settle_ms * 1000 + 5 * gap).
Proof.
  intros Hg Hs. pose proof (gapped_nonneg gap Hg) as Hg0.
  unfold brake_to_stop. apply ensures_bind.
  eapply ensures_weaken; [apply slew_set_target_within, Hg|].
  intros [] w1 H1. cbv beta in *.
  apply ensures_bind, ensures_get_absolute_time.
  pose proof (advance_now_gap gap w1 Hg) as Gap3.
  eapply ensures_weaken; [apply (brake_wait_within gap); [exact Hg | lia]|].
  intros [] w2 H2. cbv beta in H2 |- *. lia.
Qed.

Lemma stall_detection_within gap fuel a l (w : world) :
  gapped env gap ->
  ensures (stall_detection env fuel a l) w (fun r w' =>
    match r with
    | Return _ => now_us w' <= now_us w + 300 * 1000 + 7 * gap
    | Continue _ => now_us w' <= now_us w + 4 * gap
    end).
Proof.
  intros Hg. pose proof (gapped_nonneg gap Hg) as Hg0. unfold stall_detection.
  apply ensures_bind, ensures_get_absolute_time.
  pose proof (advance_now_gap gap w Hg) as Gap4.
  destruct (_ >? _); [|apply ensures_ret; lia].
  apply ensures_bind, ensures_read_fg_pulses.
  pose proof (advance_now_gap gap (advance env w) Hg) as Gap5.
  apply ensures_bind, ensures_gets. cbv beta zeta.
  destruct (_ && _).
  - apply ensures_bind.
    eapply ensures_weaken; [apply (brake_to_stop_within gap); [exact Hg | lia]|].
    intros [] w2 H2. cbv beta in *. apply ensures_ret. lia.
  - apply ensures_bind, ensures_read_fg_pulses.
    apply ensures_bind, ensures_get_absolute_time.
    pose proof (advance_now_gap gap (advance env (advance env w)) Hg) as Gap6.
    pose proof (advance_now_gap gap (advance env (advance env (advance env w))) Hg) as Gap7.
    apply ensures_ret. lia.
Qed.

Lemma timeout_check_within gap fuel a t0 l (w : world) :
  gapped env gap ->
  ensures (timeout_check env fuel a t0 l) w (fun r w' =>
    match r with
    | Return _ => now_us w' <= now_us w + 300 * 1000 + 6 * gap
    | Continue _ => now_us w' <= t0 + timeout_ms a * 1000
    end).
Proof.
  intros Hg. unfold timeout_check.
  apply ensures_bind, ensures_get_absolute_time.
  pose proof (advance_now_gap gap w Hg) as Gap8.
  unfold absolute_time_diff_us.
  destruct (Z.gtb_spec (now_us (advance env w) - t0) (timeout_ms a * 1000)).
  - apply ensures_bind.
    eapply ensures_weaken; [apply (brake_to_stop_within gap); [exact Hg | lia]|].
    intros [] w2 H2. cbv beta in *. apply ensures_ret. lia.
  - apply ensures_ret. lia.
Qed.

Lemma speed_selection_within gap a now target_p pad_pulses l (w : world) :
  gapped env gap ->
  ensures (speed_selection env a now target_p pad_pulses l) w (fun _ w' =>
    now_us w' <= now_us w + gap).
Proof.
  intros Hg. pose proof (gapped_nonneg gap Hg) as Hg0. unfold speed_selection. cbv zeta.
  destruct (flt _ _); [|apply ensures_ret; lia].
  apply ensures_bind.
  eapply ensures_weaken; [apply slew_set_target_within, Hg|].
  intros [] w1 H1. cbv beta in *. apply ensures_ret. exact H1.
Qed.

Lemma move_body_within gap fuel a target_p pad_pulses t0 l (w : world) :
  gapped env gap ->
  ensures (move_body env fuel a target_p pad_pulses t0 l) w (fun r w' =>
    match r with
    | Return _ => now_us w' <= now_us w + 300 * 1000 + 13 * gap
    | Continue _ => now_us w' <= t0 + timeout_ms a * 1000 + gap
    end).
Proof.
  intros Hg. pose proof (gapped_nonneg gap Hg) as Hg0. unfold move_body.
  apply ensures_bind.
  eapply ensures_weaken; [apply slew_update_within, Hg|].
  intros [] w1 H1. cbv beta in *.
  apply ensures_bind, ensures_read_fg_pulses.
  pose proof (advance_now_gap gap w1 Hg) as Gap9.
  apply ensures_bind.
  eapply ensures_weaken; [apply stall_detection_within, Hg|].
  intros [b|l1] w3 H3; cbv beta iota in H3 |- *; [apply ensures_ret; lia|].
  apply ensures_bind.
  eapply ensures_weaken; [apply timeout_check_within, Hg|].
  intros [b|l2] w4 H4; cbv beta iota in H4 |- *; [apply ensures_ret; lia|].
  apply ensures_bind.
  eapply ensures_weaken; [apply speed_selection_within, Hg|].
  intros l3 w5 H5. cbv beta in *. apply ensures_ret. cbv beta iota. lia.
Qed.

Lemma move_loop_within gap a target_p pad_pulses t0 :
  gapped env gap ->
  forall fuel l (w : world),
    now_us w <= t0 + timeout_ms a * 1000 + 2 * gap ->
    ensures (move_loop env fuel a target_p pad_pulses t0 l) w (fun _ w' =>
      now_us w' <= t0 + timeout_ms a * 1000 + 300 * 1000 + 16 * gap).
Proof.
  intros Hg. pose proof (gapped_nonneg gap Hg) as Hg0.
  induction fuel as [|fuel IH]; intros l w Hw; cbn [move_loop].
  - apply ensures_out_of_fuel.
  - apply ensures_bind, ensures_read_fg_pulses.
    pose proof (advance_now_gap gap w Hg) as Gap10.
    destruct (_ <? _).
    + apply ensures_bind.
      eapply ensures_weaken; [apply move_body_within, Hg|].
      intros [b|l'] w2 H2; cbv beta iota in H2 |- *.
      * apply ensures_ret. lia.
      * apply IH. lia.
    + apply ensures_bind.
      eapply ensures_weaken; [apply (brake_to_stop_within gap); [exact Hg | lia]|].
      intros [] w2 H2. cbv beta in *. apply ensures_ret. lia.
Qed.

Lemma move_meters_within gap fuel cw meters a (w : world) :
  gapped env gap -> 0 <= timeout_ms a ->
  ensures (move_meters env fuel cw meters a) w (fun _ w' =>
    now_us w' <= now_us w + timeout_ms a * 1000 + 300 * 1000 + 18 * gap).
Proof.
  intros Hg Ht. pose proof (gapped_nonneg gap Hg) as Hg0.
  unfold move_meters. cbv zeta.
  destruct (_ =? 0); [apply ensures_ret; lia|].
  apply ensures_bind. intros [] w1 E1. inversion E1; subst w1. clear E1.
  apply ensures_bind. intros [] w2 E2. inversion E2; subst w2. clear E2.
  apply ensures_bind.
  eapply ensures_weaken; [apply slew_set_target_within, Hg|].
  intros [] w3 H3. cbv beta. cbn in H3.
  apply ensures_bind, ensures_get_absolute_time.
  apply ensures_bind, ensures_get_absolute_time.
  apply ensures_bind, ensures_read_fg_pulses.
  pose proof (advance_now_gap gap w3 Hg) as Gap11.
  pose proof (advance_now_gap gap (advance env w3) Hg) as Gap12.
  pose proof (advance_now_gap gap (advance env (advance env w3)) Hg) as Gap13.
  eapply ensures_weaken; [apply (move_loop_within gap); [exact Hg | lia]|].
  intros b w4 H4. cbv beta in H4 |- *. lia.
Qed.

(** X15: with a live timer and observations of the hardware at most
    [gap] apart, a move returns, and no later than [timeout_ms] plus
    the 300 ms of the brake plus 18 gaps after the call: the timeout
    bounds the time a move can block. *)
Theorem move_returns_within_timeout :
  forall (K : nat) (gap : Z) fuel cw meters (a : @move_args F) (w : world),
    paced env K ->
    gapped env gap ->
    0 <= timeout_ms a ->
    (move_fuel K (timeout_ms a) <= fuel)%nat ->
    exists b w',
      move_meters env fuel cw meters a w = Some (b, w') /\
      now_us w' <= now_us w + timeout_ms a * 1000 + 300 * 1000 + 18 * gap.
Proof.
  intros K gap fuel cw meters a w HK Hg Ht Hf.
  destruct (move_meters_returns env K fuel cw meters a w HK Hf) as (b & w' & E & _).
  exists b, w'. split; [exact E|].
  exact (move_meters_within gap fuel cw meters a w Hg Ht b w' E).
Qed.

(** ** No failure before its time *)

Lemma stall_detection_patient t_call fuel a l (w : world) :
  t_call <= stall_ref_time l -> t_call <= now_us w ->
  ensures (stall_detection env fuel a l) w (fun r w' =>
    match r with
    | Return _ => t_call + stall_window_us a + 300 * 1000 < now_us w'
    | Continue l' => t_call <= stall_ref_time l' /\ t_call <= now_us w'
    end).
Proof.
  intros Hl Hw. unfold stall_detection.
  apply ensures_bind, ensures_get_absolute_time.
  pose proof (advance_now_le w) as A1.
  unfold absolute_time_diff_us.
  destruct (Z.gtb_spec (now_us (advance env w) - stall_ref_time l) (stall_window_us a))
    as [Hgt|Hle]; [|apply ensures_ret; split; lia].
  apply ensures_bind, ensures_read_fg_pulses.
  pose proof (advance_now_le (advance env w)) as A2.
  apply ensures_bind, ensures_gets. cbv beta zeta.
  destruct (_ && _).
  - apply ensures_bind.
    eapply ensures_weaken; [apply brake_to_stop_ensures|].
    intros [] w2 [Hd _]. cbv beta in *. apply ensures_ret. cbv beta iota. lia.
  - apply ensures_bind, ensures_read_fg_pulses.
    apply ensures_bind, ensures_get_absolute_time.
    pose proof (advance_now_le (advance env (advance env w))) as A3.
    pose proof (advance_now_le (advance env (advance env (advance env w)))) as A4.
    apply ensures_ret. cbn [stall_ref_time]. split; lia.
Qed.

Lemma timeout_check_patient t_call fuel a t0 l (w : world) :
  t_call <= t0 -> t_call <= now_us w ->
  ensures (timeout_check env fuel a t0 l) w (fun r w' =>
    match r with
    | Return _ => t_call + timeout_ms a * 1000 + 300 * 1000 < now_us w'
    | Continue l' => l' = l /\ t_call <= now_us w'
    end).
Proof.
  intros Ht Hw. unfold timeout_check.
  apply ensures_bind, ensures_get_absolute_time.
  pose proof (advance_now_le w) as A1.
  unfold absolute_time_diff_us.
  destruct (Z.gtb_spec (now_us (advance env w) - t0) (timeout_ms a * 1000))
    as [Hgt|Hle]; [|apply ensures_ret; split; [reflexivity | lia]].
  apply ensures_bind.
  eapply ensures_weaken; [apply brake_to_stop_ensures|].
  intros [] w2 [Hd _]. cbv beta in *. apply ensures_ret. cbv beta iota. lia.
Qed.

Lemma move_body_patient t_call fuel a target_p pad_pulses t0 l (w : world) :
  t_call <= t0 -> t_call <= stall_ref_time l -> t_call <= now_us w ->
  ensures (move_body env fuel a target_p pad_pulses t0 l) w (fun r w' =>
    match r with
    | Return _ =>
        t_call + Z.min (stall_window_us a) (timeout_ms a * 1000) + 300 * 1000 < now_us w'
    | Continue l' => t_call <= stall_ref_time l' /\ t_call <= now_us w'
    end).
Proof.
  intros Ht Hl Hw. unfold move_body.
  apply ensures_bind.
  eapply ensures_weaken.
  { apply (ensures_traces drive_action _ (fun w' => t_call <= now_us w'));
      [apply traces_slew_update | apply drive_now_le | exact Hw]. }
  intros [] w1 Hw1. cbv beta in *.
  apply ensures_bind, ensures_read_fg_pulses.
  pose proof (advance_now_le w1) as A1.
  apply ensures_bind.
  eapply ensures_weaken; [apply (stall_detection_patient t_call); [exact Hl | lia]|].
  intros [b|l1] w3 H3; cbv beta iota in H3 |- *; [apply ensures_ret; cbv beta iota; lia|].
  destruct H3 as [Hl1 Hw3].
  apply ensures_bind.
  eapply ensures_weaken; [apply (timeout_check_patient t_call); [exact Ht | exact Hw3]|].
  intros [b|l2] w4 H4; cbv beta iota in H4 |- *; [apply ensures_ret; cbv beta iota; lia|].
  destruct H4 as [-> Hw4].
  apply ensures_bind.
  eapply ensures_weaken.
  { apply ensures_conj.
    - apply (ensures_traces drive_action _ (fun w' => t_call <= now_us w'));
        [apply traces_speed_selection | apply drive_now_le | exact Hw4].
    - apply (ensures_weaken _ _ (fun l3 _ => stall_ref_time l3 = stall_ref_time l1)
                                (fun l3 _ => stall_ref_time l3 = stall_ref_time l1));
        [|auto].
      unfold speed_selection. cbv zeta. destruct (flt _ _); [|now apply ensures_ret].
      apply ensures_bind. intros [] w5 _. now apply ensures_ret. }
  intros l3 w5 [Hw5 Hl3]. cbv beta in *. apply ensures_ret. cbv beta iota.
  split; [rewrite Hl3; exact Hl1 | exact Hw5].
Qed.

Lemma move_loop_patient t_call a target_p pad_pulses t0 :
  t_call <= t0 ->
  forall fuel l (w : world),
    t_call <= stall_ref_time l -> t_call <= now_us w ->
    ensures (move_loop env fuel a target_p pad_pulses t0 l) w (fun b w' =>
      b = false ->
      t_call + Z.min (stall_window_us a) (timeout_ms a * 1000) + 300 * 1000 < now_us w').
Proof.
  intros Ht. induction fuel as [|fuel IH]; intros l w Hl Hw; cbn [move_loop].
  - apply ensures_out_of_fuel.
  - apply ensures_bind, ensures_read_fg_pulses.
    pose proof (advance_now_le w) as A1.
    destruct (_ <? _).
    + apply ensures_bind.
      eapply ensures_weaken; [apply (move_body_patient t_call); [exact Ht | exact Hl | lia]|].
      intros [b|l'] w2 H2; cbv beta iota in H2 |- *.
      * apply ensures_ret. intros _. exact H2.
      * apply IH; apply H2.
    + apply ensures_bind. intros c w2 _. apply ensures_ret. discriminate.
Qed.

(** X25: a move never reports a failure early: when it returns [false],
    more than the stall window or more than the timeout, whichever is
    shorter, and the 300 ms of the brake have passed since the call. *)
Theorem move_never_fails_early :
  forall fuel cw meters (a : @move_args F) (w w' : world),
    move_meters env fuel cw meters a w = Some (false, w') ->
    now_us w + Z.min (stall_window_us a) (timeout_ms a * 1000) + 300 * 1000 < now_us w'.
Proof.
  intros fuel cw meters a w w' E.
  enough (Hgoal : ensures (move_meters env fuel cw meters a) w (fun b w' =>
            b = false ->
            now_us w + Z.min (stall_window_us a) (timeout_ms a * 1000) + 300 * 1000
              < now_us w')) by exact (Hgoal _ _ E eq_refl).
  unfold move_meters. cbv zeta.
  destruct (_ =? 0); [apply ensures_ret; discriminate|].
  apply ensures_bind. intros [] w1 E1. inversion E1; subst w1. clear E1.
  apply ensures_bind. intros [] w2 E2. inversion E2; subst w2. clear E2.
  apply ensures_bind.
  eapply ensures_weaken.
  { apply (ensures_traces drive_action _ (fun w' => now_us w <= now_us w'));
      [apply traces_slew_set_target | apply drive_now_le | cbn; lia]. }
  intros [] w3 Hw3. cbv beta in *.
  apply ensures_bind, ensures_get_absolute_time.
  apply ensures_bind, ensures_get_absolute_time.
  apply ensures_bind, ensures_read_fg_pulses.
  pose proof (advance_now_le w3) as A1.
  pose proof (advance_now_le (advance env w3)) as A2.
  pose proof (advance_now_le (advance env (advance env w3))) as A3.
  apply (move_loop_patient (now_us w)); cbn [stall_ref_time]; lia.
Qed.

(** ** The speed profile *)

(** X26: for a padding of fewer than [2^31] pulses the two padded
    stretches of a move never overlap: [pad_pulses] is at most half the
    target, the padding speed is selected before [pad_pulses] and after
    [target - pad_pulses], and the cruise speed from [pad_pulses] to
    [target - pad_pulses], both ends included. *)
Theorem speed_profile_zones :
  forall (a : @move_args F) (target_p : Z),
    0 <= target_p ->
    0 <= target_pulses_for_meters (padding_m a) < 2147483648 ->
    let pad := pad_pulses_for target_p (padding_m a) in
    0 <= pad /\ 2 * pad <= target_p /\
    forall now,
      (now < pad -> desired_speed_for a now target_p pad = padding_speed a) /\
      (pad <= now <= target_p - pad ->
         desired_speed_for a now target_p pad = cruise_percent a) /\
      (0 < pad -> target_p - pad < now ->
         desired_speed_for a now target_p pad = padding_speed a).
Proof.
  intros a target_p Ht Hpad pad.
  destruct (pad_pulses_for_cases target_p (padding_m a) Hpad) as [Hsmall Hbig].
  assert (Hp : 0 <= pad /\ 2 * pad <= target_p).
  { unfold pad.
    destruct (Z.le_gt_cases target_p (2 * target_pulses_for_meters (padding_m a)))
      as [Hc|Hc].
    - rewrite (Hsmall Hc). pose proof (Z.div_pos target_p 2 Ht ltac:(lia)).
      pose proof (Z.mul_div_le target_p 2 ltac:(lia)). lia.
    - rewrite (Hbig Hc). lia. }
  destruct Hp as [Hp0 Hp2]. split; [exact Hp0|]. split; [exact Hp2|].
  intros now. destruct (desired_speed_for_cases a now target_p pad) as [Hslow Hfast].
  pose proof (remaining_pulses_guarded now target_p) as Hrem.
  split; [|split].
  - intros Hlt. apply Hslow. now left.
  - intros [Hlo Hhi]. apply Hfast; [exact Hlo|]. rewrite Hrem. lia.
  - intros Hpos Hgt. apply Hslow. right. rewrite Hrem. lia.
Qed.

End TraceFacts.

(* ------------------------------------------------------------------ *)
(** * The main program and the diagnostics *)

Section ProgramFacts.

Context {F : Type} `{FloatArith F}.
Variable env : nat -> tick.
Variable fg_level : nat -> bool.

#[local] Abbreviation world := (@world F).
#[local] Abbreviation M := (@M F).

Lemma dir_writes_levels levels (os : list output) :
  dir_writes (map PwmLevel levels ++ os) = dir_writes os.
Proof. induction levels as [|l levels IH]; [reflexivity | exact IH]. Qed.

Lemma sleep_ms_ensures ms (w : world) :
  ensures (sleep_ms env ms) w (fun _ w' =>
    now_us w + ms * 1000 <= now_us w' /\ outputs w' = outputs w /\ g_slew w' = g_slew w).
Proof.
  intros [] w' E. inversion E; subst. clear E.
  rewrite advance_now, advance_outputs, advance_slew. cbn. repeat split. lia.
Qed.

(** A move that has something to do writes the direction pin once and
    takes at least the 300 ms of its brake. *)
Lemma move_meters_round fuel cw meters (a : @move_args F) (w : world) :
  target_pulses_for_meters meters <> 0 ->
  ensures (move_meters env fuel cw meters a) w (fun _ w' =>
    dir_writes (outputs w') = negb cw :: dir_writes (outputs w) /\
    now_us w + 300 * 1000 <= now_us w').
Proof.
  intros Ht b w' E. split.
  - destruct (move_meters_outputs env _ _ _ _ _ _ _ Ht E) as [(levels & ->) _].
    now rewrite dir_writes_levels.
  - destruct (move_meters_brakes env (fun wb => now_us w <= now_us wb)
                fuel cw meters a w) with (a := b) (w' := w')
      as (fuel' & wb & Hwb & Eb); auto.
    + apply drive_now_le.
    + lia.
    + destruct (brake_to_stop_ensures env _ _ _ _ _ Eb) as [Hd _]. lia.
Qed.

Lemma hold_dir_writes base (a : action) (w : world) :
  hold_action true a ->
  (exists k, dir_writes (outputs w) = repeat false k ++ base) ->
  exists k, dir_writes (outputs (apply_action env a w)) = repeat false k ++ base.
Proof.
  intros Ha (k & Hk). destruct a; cbn in Ha; try contradiction; cbn [apply_action].
  - exists k. now rewrite advance_outputs.
  - now exists k.
  - now exists k.
  - subst. exists (S k). cbn. now rewrite Hk.
  - now exists k.
  - now exists k.
  - destruct (absolute_time_diff_us (last_t (g_slew w)) (now_us w) <=? 0); now exists k.
Qed.

(** X18: a round of the loop of [main] that completes has written the
    direction pin HIGH for the unwind and after that only LOW, for the
    nudges of the hold and for the wind; it has taken at least 7.8 s:
    two brakes of 300 ms, 2.2 s of hold and the pause of 5 s. *)
Theorem main_cycle_unwinds_then_winds :
  forall fuel (w w' : world),
    target_pulses_for_meters (lit 6 10) <> 0 ->
    main_cycle env fuel w = Some (tt, w') ->
    (exists k, dir_writes (outputs w')
               = repeat false (S k) ++ true :: dir_writes (outputs w)) /\
    now_us w + 7800 * 1000 <= now_us w'.
Proof.
  intros fuel w w' Ht.
  enough (Hgoal : ensures (main_cycle env fuel) w (fun _ w' =>
            (exists k, dir_writes (outputs w')
                       = repeat false (S k) ++ true :: dir_writes (outputs w)) /\
            now_us w + 7800 * 1000 <= now_us w')) by exact (Hgoal tt w').
  unfold main_cycle, unwind_payload_m, wind_payload_m.
  apply ensures_bind.
  eapply ensures_weaken; [apply move_meters_round, Ht|].
  intros b1 w1 [Hd1 Hn1]. cbv beta.
  apply ensures_bind.
  eapply ensures_weaken.
  { apply ensures_conj.
    - apply (ensures_traces env (hold_action true) _
               (fun w2 => exists k, dir_writes (outputs w2)
                                    = repeat false k ++ dir_writes (outputs w1)));
        [apply traces_hold_payload_ms | apply hold_dir_writes | now exists O].
    - intros b w2 E2. exact (hold_payload_ms_ensures env _ _ _ _ _ _ _ E2). }
  intros b2 w2 [(k & Hd2) (_ & Hn2 & _)]. cbv beta.
  apply ensures_bind.
  eapply ensures_weaken; [apply move_meters_round, Ht|].
  intros b3 w3 [Hd3 Hn3]. cbv beta.
  eapply ensures_weaken; [apply sleep_ms_ensures|].
  intros [] w4 (Hn4 & Ho4 & _). cbv beta. split; [|lia].
  exists k. rewrite Ho4, Hd3, Hd2, Hd1. reflexivity.
Qed.

(** ** The monitor *)

Lemma sum_dp_snoc (log : list report) (r : report) :
  sum_dp (log ++ [r]) = sum_dp log + rep_dp r.
Proof.
  unfold sum_dp. induction log as [|r0 log IH]; cbn; [lia|].
  unfold sum_dp in IH. cbn in IH. rewrite IH. lia.
Qed.

Lemma last_pulses_snoc (log : list report) (r : report) :
  last_pulses (log ++ [r]) = rep_pulses r.
Proof. unfold last_pulses. rewrite map_app. apply last_last. Qed.

Lemma wrap32_range z : 0 <= wrap32 z < 4294967296.
Proof. unfold wrap32. apply Z.mod_pos_bound. lia. Qed.

Lemma counter_range_advance (w : world) :
  0 <= g_fg_pulses w < 4294967296 -> 0 <= g_fg_pulses (advance env w) < 4294967296.
Proof.
  intros Hw. rewrite advance_pulses. destruct (fg_irq_enabled w); [apply wrap32_range | exact Hw].
Qed.

Lemma watching_drive base t (a : action) (w : world) :
  drive_action a -> watching base t w -> watching base t (apply_action env a w).
Proof.
  intros Ha (Hc & (levels & Ho) & Hn). split; [|split].
  - destruct a; cbn in Ha; try contradiction; cbn [apply_action]; try exact Hc.
    + apply counter_range_advance, Hc.
    + destruct (absolute_time_diff_us (last_t (g_slew w)) (now_us w) <=? 0); exact Hc.
  - destruct (drive_outputs env [a] w) as (levels' & E); [now repeat constructor|].
    cbn in E. rewrite E, Ho. exists (levels' ++ levels).
    now rewrite map_app, app_assoc.
  - now apply drive_now_le.
Qed.

Lemma watching_advance base t (w : world) :
  watching base t w -> watching base t (advance env w).
Proof. apply (watching_drive base t Tick w Logic.I). Qed.

Lemma watching_sleep base t ms (w : world) :
  watching base t w ->
  watching base (t + ms * 1000) (advance env (set_now_us (now_us w + ms * 1000) w)).
Proof.
  intros (Hc & Ho & Hn). split; [|split].
  - apply counter_range_advance. exact Hc.
  - rewrite advance_outputs. exact Ho.
  - rewrite advance_now. cbn. lia.
Qed.

Lemma wrap32_sum_step (total last cur : Z) :
  wrap32 total = last -> 0 <= cur < 4294967296 ->
  wrap32 (total + wrap32 (cur - last)) = cur.
Proof.
  unfold wrap32. intros Hsum Hcur.
  rewrite Zplus_mod_idemp_r, <- Zplus_mod_idemp_l, Hsum.
  replace (last + (cur - last)) with cur by lia. now apply Z.mod_small.
Qed.

Lemma monitor_loop_ensures base ms t0 :
  forall fuel last log (w : world),
    watching base (t0 + 200 * 1000 * Z.of_nat (length log)) w ->
    last_pulses log = last ->
    wrap32 (sum_dp log) = last ->
    (log = [] \/ 200 * (Z.of_nat (length log) - 1) < ms) ->
    ensures (monitor_loop env fg_level fuel ms t0 last log) w (fun log' w' =>
      wrap32 (sum_dp log') = last_pulses log' /\
      (log' = [] \/ 200 * (Z.of_nat (length log') - 1) < ms) /\
      (exists levels, outputs w' = map PwmLevel levels ++ base) /\
      0 <= g_fg_pulses w' < 4294967296).
Proof.
  induction fuel as [|fuel IH]; intros last log w Hw Hlast Hsum Hcount; cbn [monitor_loop].
  - apply ensures_out_of_fuel.
  - apply ensures_bind, ensures_get_absolute_time.
    apply watching_advance in Hw.
    unfold absolute_time_diff_us.
    destruct (Z.ltb_spec (now_us (advance env w) - t0) (ms * 1000)) as [Hlt|Hge].
    + assert (Hlen : 200 * Z.of_nat (length log) < ms)
        by (destruct Hw as (_ & _ & Hn); lia).
      apply ensures_bind.
      eapply ensures_weaken.
      { apply (ensures_traces env drive_action _
                 (watching base (t0 + 200 * 1000 * Z.of_nat (length log))));
          [apply traces_slew_update | apply watching_drive | exact Hw]. }
      intros [] w2 Hw2. cbv beta.
      apply ensures_bind. intros [] w3 E3. inversion E3; subst w3. clear E3.
      apply (watching_sleep base _ 200) in Hw2.
      apply ensures_bind, ensures_read_fg_pulses.
      apply watching_advance in Hw2.
      apply ensures_bind, ensures_gets. cbv zeta.
      apply IH.
      * rewrite length_app, Nat2Z.inj_add. cbn [length].
        replace (t0 + 200 * 1000 * (Z.of_nat (length log) + Z.of_nat 1))
          with (t0 + 200 * 1000 * Z.of_nat (length log) + 200 * 1000) by lia.
        exact Hw2.
      * apply last_pulses_snoc.
      * rewrite sum_dp_snoc. cbn [rep_dp]. apply wrap32_sum_step; [exact Hsum|].
        apply Hw2.
      * right. rewrite length_app, Nat2Z.inj_add. cbn [length]. lia.
    + apply ensures_ret. destruct Hw as (Hc & Ho & _). repeat split; auto; try apply Hc.
      congruence.
Qed.

Lemma commands_advance t r (w : world) :
  commands t r w -> commands t r (advance env w).
Proof. unfold commands. now rewrite advance_slew. Qed.

Lemma commands_update t r (w : world) :
  commands t r w -> ensures (slew_update env) w (fun _ w' => commands t r w').
Proof.
  intros (Hi & Ht & Hr).
  eapply ensures_weaken; [apply ensures_returns, slew_update_spec|].
  intros [] w1 (Hi1 & Hkeep & _). cbv beta. destruct (Hkeep Hi) as [Ht1 Hr1].
  unfold commands. repeat split; congruence.
Qed.

Lemma monitor_loop_keeps_command t r ms t0 :
  forall fuel last log (w : world),
    commands t r w ->
    ensures (monitor_loop env fg_level fuel ms t0 last log) w (fun _ w' =>
      commands t r w').
Proof.
  induction fuel as [|fuel IH]; intros last log w Hw; cbn [monitor_loop].
  - apply ensures_out_of_fuel.
  - apply ensures_bind, ensures_get_absolute_time.
    apply commands_advance in Hw.
    destruct (_ <? _); [|now apply ensures_ret].
    apply ensures_bind.
    eapply ensures_weaken; [apply commands_update, Hw|].
    intros [] w2 Hw2. cbv beta.
    apply ensures_bind. intros [] w3 E3. inversion E3; subst w3. clear E3.
    apply ensures_bind, ensures_read_fg_pulses.
    apply ensures_bind, ensures_gets. cbv zeta.
    apply IH. apply commands_advance.
    unfold commands in *. now rewrite advance_slew.
Qed.

(** X19: the lines the monitor prints are consistent: the [dp] column
    adds up to the last [pulses] printed, modulo [2^32]; the lines are
    at least 200 ms apart, so that more than one line means that
    [ms] exceeds 200 ms times the lines before the last; and the monitor
    writes no direction and leaves the command of an initialised limiter
    as it is. *)
Theorem monitor_lines_add_up :
  forall fuel ms (w : world) log total w',
    monitor_fg_for_ms env fg_level fuel ms w = Some ((log, total), w') ->
    wrap32 (sum_dp log) = last_pulses log /\
    (log = [] \/ 200 * (Z.of_nat (length log) - 1) < ms) /\
    (exists levels, outputs w' = map PwmLevel levels ++ outputs w) /\
    0 <= total < 4294967296 /\
    (initialized (g_slew w) = true ->
     target (g_slew w') = target (g_slew w) /\ rate (g_slew w') = rate (g_slew w)).
Proof.
  intros fuel ms w log total w' E.
  enough (Hgoal : ensures (monitor_fg_for_ms env fg_level fuel ms) w (fun r w' =>
            wrap32 (sum_dp (fst r)) = last_pulses (fst r) /\
            (fst r = [] \/ 200 * (Z.of_nat (length (fst r)) - 1) < ms) /\
            (exists levels, outputs w' = map PwmLevel levels ++ outputs w) /\
            0 <= snd r < 4294967296 /\
            (initialized (g_slew w) = true ->
             target (g_slew w') = target (g_slew w) /\
             rate (g_slew w') = rate (g_slew w)))) by exact (Hgoal _ _ E).
  unfold monitor_fg_for_ms.
  apply ensures_bind. intros [] w1 E1. inversion E1; subst w1. clear E1.
  apply ensures_bind, ensures_get_absolute_time.
  apply ensures_bind.
  eapply ensures_weaken.
  { eapply (ensures_conj _ _ _
              (fun _ w' => initialized (g_slew w) = true ->
                          commands (target (g_slew w)) (rate (g_slew w)) w')).
    - apply (monitor_loop_ensures (outputs w)); try reflexivity; [|now left].
      cbn [length Z.of_nat]. split; [|split].
      + rewrite advance_pulses. cbn. apply wrap32_range.
      + exists []. now rewrite advance_outputs.
      + lia.
    - intros log' w2 E2 Hi.
      refine (monitor_loop_keeps_command (target (g_slew w)) (rate (g_slew w))
                _ _ _ _ _ _ _ _ _ E2).
      unfold commands. rewrite advance_slew. cbn. auto. }
  intros log' w2 [(Hsum & Hcount & (levels & Ho) & Hc) Hcmd]. cbv beta.
  apply ensures_bind, ensures_read_fg_pulses. apply ensures_ret. cbn [fst snd].
  split; [exact Hsum|]. split; [exact Hcount|]. split; [|split].
  - exists levels. now rewrite advance_outputs.
  - now apply counter_range_advance.
  - intros Hi. rewrite advance_slew. destruct (Hcmd Hi) as (_ & Ht & Hr). now split.
Qed.

(** ** The hand-spin test *)

Lemma hand_spin_loop_ensures t r base ms t0 :
  forall fuel last log (w : world),
    commands t r w ->
    (exists levels, outputs w = map PwmLevel levels ++ base) ->
    Forall (fun line => hand_cmd line = t) log ->
    ensures (hand_spin_loop env fg_level fuel ms t0 last log) w (fun log' w' =>
      Forall (fun line => hand_cmd line = t) log' /\
      commands t r w' /\
      (exists levels, outputs w' = map PwmLevel levels ++ base) /\
      t0 + ms * 1000 <= now_us w').
Proof.
  induction fuel as [|fuel IH]; intros last log w Hw Ho Hlog; cbn [hand_spin_loop].
  - apply ensures_out_of_fuel.
  - apply ensures_bind, ensures_get_absolute_time.
    apply commands_advance in Hw.
    unfold absolute_time_diff_us.
    destruct (Z.ltb_spec (now_us (advance env w) - t0) (ms * 1000)) as [Hlt|Hge].
    + apply ensures_bind.
      eapply ensures_weaken.
      { apply ensures_conj; [apply commands_update, Hw|].
        apply (ensures_traces env drive_action _
                 (fun w' => exists levels, outputs w' = map PwmLevel levels ++ base));
          [apply traces_slew_update | | now rewrite advance_outputs].
        intros a w0 Ha (levels & Hl).
        destruct (drive_outputs env [a] w0) as (levels' & E); [now repeat constructor|].
        cbn in E. rewrite E, Hl. exists (levels' ++ levels).
        now rewrite map_app, app_assoc. }
      intros [] w2 [Hw2 Ho2]. cbv beta.
      apply ensures_bind. intros [] w3 E3. inversion E3; subst w3. clear E3.
      apply ensures_bind, ensures_read_fg_pulses.
      apply ensures_bind, ensures_gets.
      apply ensures_bind, ensures_gets.
      apply IH.
      * apply commands_advance. unfold commands in *. now rewrite advance_slew.
      * now rewrite !advance_outputs.
      * apply Forall_app. split; [exact Hlog|]. constructor; [|constructor].
        cbn [hand_cmd]. rewrite !advance_slew. cbn. apply Hw2.
    + apply ensures_ret. repeat split; try apply Hw; auto.
      * now rewrite advance_outputs.
      * lia.
Qed.

(** X20: the hand-spin test writes the direction pin once, LOW, before
    anything else; every line it prints shows the clamped wake
    percentage as the command; and it returns, no earlier than [ms] plus
    the 200 ms of its brake after the call, with the limiter commanding
    0 %. *)
Theorem hand_spin_test_keeps_driver_awake :
  forall fuel ms wake_percent wake_rate (w : world) log total w',
    fg_hand_spin_test env fg_level fuel ms wake_percent wake_rate w
      = Some ((log, total), w') ->
    dir_writes (outputs w') = false :: dir_writes (outputs w) /\
    Forall (fun line => hand_cmd line = clamp_percent wake_percent) log /\
    target (g_slew w') = clamp_percent (of_int 0) /\
    now_us w + ms * 1000 + 200 * 1000 <= now_us w'.
Proof.
  intros fuel ms wake_percent wake_rate w log total w' E.
  enough (Hgoal : ensures (fg_hand_spin_test env fg_level fuel ms wake_percent wake_rate) w
            (fun r w' =>
               dir_writes (outputs w') = false :: dir_writes (outputs w) /\
               Forall (fun line => hand_cmd line = clamp_percent wake_percent) (fst r) /\
               target (g_slew w') = clamp_percent (of_int 0) /\
               now_us w + ms * 1000 + 200 * 1000 <= now_us w')) by exact (Hgoal _ _ E).
  unfold fg_hand_spin_test.
  apply ensures_bind. intros [] w1 E1. inversion E1; subst w1. clear E1.
  apply ensures_bind.
  eapply ensures_weaken.
  { apply ensures_conj.
    - apply ensures_returns, slew_set_target_spec.
    - apply ensures_conj.
      + apply (ensures_traces env drive_action _
                 (fun w' => exists levels,
                    outputs w' = map PwmLevel levels ++ DirPin false :: outputs w));
          [apply traces_slew_set_target | | now exists []].
        intros a w0 Ha (levels & Hl).
        destruct (drive_outputs env [a] w0) as (levels' & E0); [now repeat constructor|].
        cbn in E0. rewrite E0, Hl. exists (levels' ++ levels).
        now rewrite map_app, app_assoc.
      + apply (ensures_traces env drive_action _ (fun w' => now_us w <= now_us w'));
          [apply traces_slew_set_target | apply drive_now_le | cbn; lia]. }
  intros [] w2 [(Hcmd & _) [Ho2 Hn2]]. cbv beta.
  apply ensures_bind. intros [] w3 E3. inversion E3; subst w3. clear E3.
  apply ensures_bind, ensures_get_absolute_time.
  apply ensures_bind.
  eapply ensures_weaken.
  { apply (hand_spin_loop_ensures (clamp_percent wake_percent)
             (if fle wake_rate (of_int 0) then of_int 1 else wake_rate)
             (DirPin false :: outputs w)).
    - apply commands_advance. exact Hcmd.
    - rewrite advance_outputs. exact Ho2.
    - constructor. }
  intros log' w4 (Hlog & _ & (levels & Ho4) & Hn4). cbv beta.
  apply ensures_bind.
  eapply ensures_weaken.
  { apply ensures_conj; [apply brake_to_stop_ensures|].
    apply (ensures_does env drive_action), traces_brake_to_stop. }
  intros [] w5 [[Hn5 (_ & Ht5 & _)] (acts & Hok & ->)]. cbv beta.
  apply ensures_bind, ensures_read_fg_pulses. apply ensures_ret. cbn [fst].
  rewrite advance_outputs, advance_slew, advance_now.
  destruct (drive_outputs env acts w4 Hok) as (levels' & Ho5).
  split; [|split; [exact Hlog|split; [exact Ht5|]]].
  - rewrite Ho5, Ho4, !dir_writes_levels. reflexivity.
  - pose proof (advance_now_le env w2) as Hadv. rewrite advance_now in Hn4.
    cbn in Hn4. lia.
Qed.

End ProgramFacts.

(* ------------------------------------------------------------------ *)
(** * The drive in exact arithmetic *)

Section ExactDrive.

Import ExactFacts.

#[local] Open Scope Q_scope.

Variable env : nat -> tick.

#[local] Abbreviation world := (@world Q).










(** ** The limiter over time *)










(** ** Braking to a standstill *)










(** ** Arriving at the target *)



End ExactDrive.

(* ------------------------------------------------------------------ *)
(** * The clamp in binary32 *)

Section ClampBinary32.

#[local] Abbreviation float32 := Binary32.float32.

Lemma SFcompare_antisym (x y : float32) c :
  SFcompare x y = Some c -> SFcompare y x = Some (CompOpp c).
Proof.
  destruct x as [sx|sx| |sx mx ex], y as [sy|sy| |sy my ey]; cbn;
    try discriminate; intros E; inversion E; subst; clear E;
    try (destruct sx; reflexivity); try (destruct sy; reflexivity);
    try (destruct sx, sy; reflexivity).
  destruct sx, sy; try reflexivity.
  - rewrite (Z.compare_antisym ex ey).
    destruct (ex ?= ey)%Z; cbn [CompOpp]; try reflexivity.
    rewrite CompOpp_involutive, Pos.compare_cont_antisym. reflexivity.
  - rewrite (Z.compare_antisym ex ey).
    destruct (ex ?= ey)%Z; cbn [CompOpp]; try reflexivity.
    rewrite Pos.compare_cont_antisym. reflexivity.
Qed.

Lemma SFcompare_defined (x y : float32) :
  x <> S754_nan -> y <> S754_nan -> exists c, SFcompare x y = Some c.
Proof.
  destruct x, y; cbn; intros Hx Hy; try contradiction; eauto.
Qed.

(** For numbers, not less means greater or equal. *)
Lemma SFltb_false_SFleb (x y : float32) :
  x <> S754_nan -> y <> S754_nan -> SFltb x y = false -> SFleb y x = true.
Proof.
  intros Hx Hy. destruct (SFcompare_defined x y Hx Hy) as (c & E).
  unfold SFltb, SFleb. rewrite E, (SFcompare_antisym x y c E).
  destruct c; cbn; congruence.
Qed.

Lemma SFleb_true_SFltb (x y : float32) :
  SFleb x y = true -> SFltb y x = false.
Proof.
  unfold SFltb, SFleb. destruct (SFcompare x y) as [c|] eqn:E; [|discriminate].
  rewrite (SFcompare_antisym x y c E). destruct c; cbn; congruence.
Qed.

(** X17: in binary32 the clamp of [set_speed] and [slew_set_target]
    takes every number, the infinities included, into [0, 100], and
    leaves the numbers of [0, 100] as they are; a NaN passes through. *)
Theorem clamp_percent_binary32 :
  (forall x : float32,
     x <> S754_nan ->
     SFleb (of_int 0) (clamp_percent x) = true /\
     SFleb (clamp_percent x) (of_int 100) = true) /\
  (forall x : float32,
     SFleb (of_int 0) x = true -> SFleb x (of_int 100) = true ->
     clamp_percent x = x) /\
  clamp_percent (S754_nan : float32) = S754_nan.
Proof.
  assert (H0 : (@of_int float32 _ 0) <> S754_nan) by (vm_compute; discriminate).
  assert (H100 : (@of_int float32 _ 100) <> S754_nan) by (vm_compute; discriminate).
  split; [|split].
  - intros x Hx. unfold clamp_percent.
    change (@flt float32 _) with SFltb.
    match goal with
    | |- context [if ?c then _ else x] => destruct c eqn:E0
    end.
    + split; vm_compute; reflexivity.
    + pose proof (SFltb_false_SFleb x _ Hx H0 E0) as Hge.
      match goal with
      | |- context [if ?c then _ else x] => destruct c eqn:E1
      end.
      * split; vm_compute; reflexivity.
      * split; [exact Hge|]. now apply SFltb_false_SFleb.
  - intros x Hlo Hhi. unfold clamp_percent.
    change (@flt float32 _) with SFltb.
    pose proof (SFleb_true_SFltb _ _ Hlo) as E0.
    pose proof (SFleb_true_SFltb _ _ Hhi) as E1.
    match goal with
    | |- context [if ?c then _ else x] => replace c with false by (symmetry; exact E0)
    end.
    match goal with
    | |- context [if ?c then _ else x] => replace c with false by (symmetry; exact E1)
    end.
    reflexivity.
  - reflexivity.
Qed.

End ClampBinary32.

(* ------------------------------------------------------------------ *)
(** * The ramp of the first revision *)

Section LegacyFacts.

Import ExactFacts.

#[local] Open Scope Q_scope.

Variable env : nat -> tick.

#[local] Abbreviation world := (@world Q).

















End LegacyFacts.

(* ------------------------------------------------------------------ *)
(** * The hold of the first revision *)

Section LegacyHold.

Context {F : Type} `{FloatArith F}.
Variable env : nat -> tick.

#[local] Abbreviation world := (@world F).

Lemma idle_advance (w : world) : idle env w -> idle env (advance env w).
Proof. apply (proj1 (stable_idle env)). Qed.

Lemma idle_emit o (w : world) : idle env w -> idle env (emit o w).
Proof. apply (proj2 (proj2 (stable_idle env))). Qed.

Lemma idle_sleep t (w : world) :
  idle env w -> idle env (advance env (set_now_us t w)).
Proof. intros Hw. apply idle_advance. exact Hw. Qed.

Lemma ramp_up_idle target_percent delay step :
  forall fuel p (w : world),
    idle env w ->
    ensures (Legacy.ramp_up env fuel p target_percent delay step) w
      (fun _ w' => idle env w').
Proof.
  induction fuel as [|fuel IH]; intros p w Hw; cbn [Legacy.ramp_up].
  - apply ensures_out_of_fuel.
  - destruct (fle p target_percent); [|now apply ensures_ret].
    apply ensures_bind. intros [] w1 E1. inversion E1; subst w1. clear E1.
    apply ensures_bind. intros [] w2 E2. inversion E2; subst w2. clear E2.
    apply IH. apply idle_sleep, idle_emit, Hw.
Qed.

Lemma ramp_down_idle target_percent delay step :
  forall fuel p (w : world),
    idle env w ->
    ensures (Legacy.ramp_down env fuel p target_percent delay step) w
      (fun _ w' => idle env w').
Proof.
  induction fuel as [|fuel IH]; intros p w Hw; cbn [Legacy.ramp_down].
  - apply ensures_out_of_fuel.
  - destruct (fle target_percent p); [|now apply ensures_ret].
    apply ensures_bind. intros [] w1 E1. inversion E1; subst w1. clear E1.
    apply ensures_bind. intros [] w2 E2. inversion E2; subst w2. clear E2.
    apply IH. apply idle_sleep, idle_emit, Hw.
Qed.

Lemma ramp_to_idle fuel target_percent delay step current (w : world) :
  idle env w ->
  ensures (Legacy.ramp_to env fuel target_percent delay step current) w
    (fun _ w' => idle env w').
Proof.
  intros Hw. unfold Legacy.ramp_to. apply ensures_bind.
  eapply ensures_weaken.
  - destruct (flt current target_percent);
      [apply ramp_up_idle | apply ramp_down_idle]; exact Hw.
  - intros [] w1 Hw1. cbv beta. apply ensures_ret. exact Hw1.
Qed.

Lemma legacy_nudge_wait_blocks (a : @hold_args F) :
  0 < nudge_pulses a ->
  forall fuel (w : world), idle env w -> Legacy.nudge_wait env fuel a w = None.
Proof.
  intros Hn. induction fuel as [|fuel IH]; intros w Hw; [reflexivity|].
  cbn [Legacy.nudge_wait]. cbv [bind read_fg_pulses].
  pose proof (idle_advance w Hw) as Hw1. destruct Hw1 as [Hg Hs].
  rewrite Hg. replace (0 <? nudge_pulses a) with true by (symmetry; now apply Z.ltb_lt).
  apply IH. split; assumption.
Qed.

(** X24: in the first revision a nudge on a line that has gone silent
    never returns: either its ramp does not, or the wait for
    [nudge_pulses] edges that follows spins for ever on a counter that
    stays at 0.  No timeout covers that wait. *)
Theorem legacy_nudge_never_gives_up :
  forall (a : @hold_args F) tow_up_cw current (w : world),
    silent_from env (env_pos w) ->
    0 < nudge_pulses a ->
    forall fuel, Legacy.nudge env fuel tow_up_cw a current w = None.
Proof.
  intros a tow_up_cw current w Hs Hn fuel.
  unfold Legacy.nudge.
  cbv [bind modify set_direction_cw gpio_put_dir].
  set (w1 := emit (DirPin (negb tow_up_cw)) (set_g_fg_pulses 0 w)).
  assert (Hw1 : idle env w1) by (split; [reflexivity | exact Hs]).
  destruct (Legacy.ramp_to env fuel (nudge_speed_percent a) 8 (of_int 10) current w1)
    as [[c w2]|] eqn:E; [|reflexivity].
  pose proof (ramp_to_idle _ _ _ _ _ _ Hw1 _ _ E) as Hw2. cbv beta in Hw2.
  now rewrite (legacy_nudge_wait_blocks a Hn fuel w2 Hw2).
Qed.

(** ** The move and the hold of the first revision *)

Lemma ramping_emit base t level (w : world) :
  Legacy.ramping base t w -> Legacy.ramping base t (emit (PwmLevel level) w).
Proof.
  intros [(levels & Ho) Hn]. split; [|exact Hn].
  exists (level :: levels). cbn. now rewrite Ho.
Qed.

Lemma ramping_advance base t (w : world) :
  Legacy.ramping base t w -> Legacy.ramping base t (advance env w).
Proof.
  intros [Ho Hn]. split; [now rewrite advance_outputs|].
  pose proof (advance_now_le env w). lia.
Qed.

Lemma ramping_sleep base t ms (w : world) :
  0 <= ms -> Legacy.ramping base t w ->
  Legacy.ramping base (t + ms * 1000) (advance env (set_now_us (now_us w + ms * 1000) w)).
Proof.
  intros Hms [Ho Hn]. split; [now rewrite advance_outputs|].
  rewrite advance_now. cbn. lia.
Qed.

Lemma ramping_earlier base t t' (w : world) :
  t' <= t -> Legacy.ramping base t w -> Legacy.ramping base t' w.
Proof. intros Ht [Ho Hn]. split; [exact Ho | lia]. Qed.

Lemma ramp_up_ramping base t target_percent delay step :
  0 <= delay ->
  forall fuel p (w : world),
    Legacy.ramping base t w ->
    ensures (Legacy.ramp_up env fuel p target_percent delay step) w
      (fun _ w' => Legacy.ramping base t w').
Proof.
  intros Hd. induction fuel as [|fuel IH]; intros p w Hw; cbn [Legacy.ramp_up].
  - apply ensures_out_of_fuel.
  - destruct (fle p target_percent); [|now apply ensures_ret].
    apply ensures_bind. intros [] w1 E1. inversion E1; subst w1. clear E1.
    apply ensures_bind. intros [] w2 E2.
    apply IH. apply (ramping_emit base t (duty_level p)) in Hw.
    apply (ramping_sleep base t delay _ Hd) in Hw.
    apply (ramping_earlier base _ t) in Hw; [|lia].
    inversion E2; subst w2. exact Hw.
Qed.

Lemma ramp_down_ramping base t target_percent delay step :
  0 <= delay ->
  forall fuel p (w : world),
    Legacy.ramping base t w ->
    ensures (Legacy.ramp_down env fuel p target_percent delay step) w
      (fun _ w' => Legacy.ramping base t w').
Proof.
  intros Hd. induction fuel as [|fuel IH]; intros p w Hw; cbn [Legacy.ramp_down].
  - apply ensures_out_of_fuel.
  - destruct (fle target_percent p); [|now apply ensures_ret].
    apply ensures_bind. intros [] w1 E1. inversion E1; subst w1. clear E1.
    apply ensures_bind. intros [] w2 E2.
    apply IH. apply (ramping_emit base t (duty_level p)) in Hw.
    apply (ramping_sleep base t delay _ Hd) in Hw.
    apply (ramping_earlier base _ t) in Hw; [|lia].
    inversion E2; subst w2. exact Hw.
Qed.

Lemma ramp_to_ramping base t fuel target_percent delay step current (w : world) :
  0 <= delay ->
  Legacy.ramping base t w ->
  ensures (Legacy.ramp_to env fuel target_percent delay step current) w
    (fun c w' => c = target_percent /\ Legacy.ramping base t w').
Proof.
  intros Hd Hw. unfold Legacy.ramp_to. apply ensures_bind.
  eapply ensures_weaken.
  - destruct (flt current target_percent);
      [apply (ramp_up_ramping base t) | apply (ramp_down_ramping base t)]; assumption.
  - intros [] w1 Hw1. cbv beta. apply ensures_ret. now split.
Qed.

Lemma legacy_brake_ramping base t fuel settle_ms current (w : world) :
  0 <= settle_ms ->
  Legacy.ramping base t w ->
  ensures (Legacy.brake_to_stop env fuel settle_ms current) w
    (fun c w' => c = of_int 0 /\ Legacy.ramping base (t + settle_ms * 1000) w').
Proof.
  intros Hs Hw. unfold Legacy.brake_to_stop. apply ensures_bind.
  eapply ensures_weaken; [apply ramp_to_ramping; [lia | exact Hw]|].
  intros c w1 [-> Hw1]. cbv beta.
  apply ensures_bind. intros [] w2 E2. apply ensures_ret.
  apply (ramping_sleep base t settle_ms _ Hs) in Hw1.
  inversion E2; subst w2. now split.
Qed.

Lemma legacy_progress_check base t fuel now l (w : world) :
  Legacy.ramping base t w ->
  ensures (Legacy.progress_check env fuel now l) w (fun r w' =>
    match r with
    | Legacy.Done b c => b = false /\ c = of_int 0 /\ Legacy.ramping base (t + 300 * 1000) w'
    | Legacy.Go _ => Legacy.ramping base t w'
    end).
Proof.
  intros Hw. unfold Legacy.progress_check.
  destruct (negb _).
  - apply ensures_bind, ensures_get_absolute_time. apply ensures_ret.
    now apply ramping_advance.
  - apply ensures_bind, ensures_get_absolute_time.
    apply ramping_advance in Hw.
    destruct (_ >? _); [|now apply ensures_ret].
    apply ensures_bind.
    eapply ensures_weaken; [apply legacy_brake_ramping; [lia | exact Hw]|].
    intros c w2 [-> Hw2]. cbv beta. apply ensures_ret. auto.
Qed.

Lemma legacy_timeout_check base t fuel timeout_ms t0 l (w : world) :
  Legacy.ramping base t w ->
  ensures (Legacy.timeout_check env fuel timeout_ms t0 l) w (fun r w' =>
    match r with
    | Legacy.Done b c => b = false /\ c = of_int 0 /\ Legacy.ramping base (t + 300 * 1000) w'
    | Legacy.Go _ => Legacy.ramping base t w'
    end).
Proof.
  intros Hw. unfold Legacy.timeout_check.
  apply ensures_bind, ensures_get_absolute_time.
  apply ramping_advance in Hw.
  destruct (_ >? _); [|now apply ensures_ret].
  apply ensures_bind.
  eapply ensures_weaken; [apply legacy_brake_ramping; [lia | exact Hw]|].
  intros c w2 [-> Hw2]. cbv beta. apply ensures_ret. auto.
Qed.

Lemma legacy_slowdown base t fuel now target_p l (w : world) :
  Legacy.ramping base t w ->
  ensures (Legacy.slowdown env fuel now target_p l) w (fun _ w' => Legacy.ramping base t w').
Proof.
  intros Hw. unfold Legacy.slowdown. cbv zeta.
  destruct (_ && _); [|now apply ensures_ret].
  apply ensures_bind.
  eapply ensures_weaken; [apply ramp_to_ramping; [lia | exact Hw]|].
  intros c w1 [_ Hw1]. cbv beta. apply ensures_ret. exact Hw1.
Qed.

Lemma legacy_move_body base t fuel timeout_ms target_p t0 l (w : world) :
  Legacy.ramping base t w ->
  ensures (Legacy.move_body env fuel timeout_ms target_p t0 l) w (fun r w' =>
    match r with
    | Legacy.Done b c => b = false /\ c = of_int 0 /\ Legacy.ramping base (t + 300 * 1000) w'
    | Legacy.Go _ => Legacy.ramping base t w'
    end).
Proof.
  intros Hw. unfold Legacy.move_body.
  apply ensures_bind, ensures_read_fg_pulses.
  apply ramping_advance in Hw.
  apply ensures_bind.
  eapply ensures_weaken; [apply legacy_progress_check; exact Hw|].
  intros [b c|l1] w2 H2; cbv beta iota in H2 |- *; [apply ensures_ret; exact H2|].
  apply ensures_bind.
  eapply ensures_weaken; [apply legacy_timeout_check; exact H2|].
  intros [b c|l2] w3 H3; cbv beta iota in H3 |- *; [apply ensures_ret; exact H3|].
  apply ensures_bind.
  eapply ensures_weaken; [apply legacy_slowdown; exact H3|].
  intros l3 w4 H4. cbv beta in *. apply ensures_ret. exact H4.
Qed.

Lemma legacy_move_loop base t timeout_ms target_p t0 :
  forall fuel l (w : world),
    Legacy.ramping base t w ->
    ensures (Legacy.move_loop env fuel timeout_ms target_p t0 l) w (fun r w' =>
      snd r = of_int 0 /\ Legacy.ramping base (t + 300 * 1000) w').
Proof.
  induction fuel as [|fuel IH]; intros l w Hw; cbn [Legacy.move_loop].
  - apply ensures_out_of_fuel.
  - apply ensures_bind, ensures_read_fg_pulses.
    apply ramping_advance in Hw.
    destruct (_ <? _).
    + apply ensures_bind.
      eapply ensures_weaken; [apply legacy_move_body; exact Hw|].
      intros [b c|l'] w2 H2; cbv beta iota in H2 |- *.
      * apply ensures_ret. cbn [snd]. split; apply H2.
      * apply IH. exact H2.
    + apply ensures_bind.
      eapply ensures_weaken; [apply legacy_brake_ramping; [lia | exact Hw]|].
      intros c w2 [-> Hw2]. cbv beta. apply ensures_ret. cbn [snd]. now split.
Qed.

(** X27: in the first revision a move that has something to do writes
    the direction pin once, before any PWM level, and all its ways out
    go through the brake: when it returns, at least 300 ms have passed
    and the [current] of the ramp is 0. *)
Theorem legacy_move_ends_braked :
  forall fuel cw meters cruise_percent timeout_ms current (w : world) b c w',
    target_pulses_for_meters meters <> 0 ->
    Legacy.move_meters env fuel cw meters cruise_percent timeout_ms current w
      = Some ((b, c), w') ->
    c = of_int 0 /\
    (exists levels,
       outputs w' = map PwmLevel levels ++ DirPin (negb cw) :: outputs w) /\
    now_us w + 300 * 1000 <= now_us w'.
Proof.
  intros fuel cw meters cruise_percent timeout_ms current w b c w' Ht E.
  enough (Hgoal : ensures
            (Legacy.move_meters env fuel cw meters cruise_percent timeout_ms current) w
            (fun r w' =>
               snd r = of_int 0 /\
               Legacy.ramping (DirPin (negb cw) :: outputs w) (now_us w + 300 * 1000) w')).
  { destruct (Hgoal _ _ E) as [Hc [Ho Hn]]. cbn [snd] in Hc. auto. }
  unfold Legacy.move_meters. cbv zeta.
  destruct (target_pulses_for_meters meters =? 0) eqn:E0;
    [apply Z.eqb_eq in E0; contradiction|].
  apply ensures_bind. intros [] w1 E1. inversion E1; subst w1. clear E1.
  apply ensures_bind. intros [] w2 E2. inversion E2; subst w2. clear E2.
  assert (Hw : Legacy.ramping (DirPin (negb cw) :: outputs w) (now_us w)
                 (emit (DirPin (negb cw)) (set_g_fg_pulses 0 w))).
  { split; [now exists [] | cbn; lia]. }
  apply ensures_bind.
  eapply ensures_weaken; [apply ramp_to_ramping; [lia | exact Hw]|].
  intros c1 w3 [_ Hw3]. cbv beta.
  apply ensures_bind, ensures_get_absolute_time.
  apply ensures_bind, ensures_get_absolute_time.
  apply legacy_move_loop. now do 2 apply ramping_advance.
Qed.

Lemma legacy_nudge_stops fuel tow_up_cw a current (w : world) :
  ensures (Legacy.nudge env fuel tow_up_cw a current) w (fun r _ => snd r = of_int 0).
Proof.
  unfold Legacy.nudge.
  apply ensures_bind. intros [] w1 _.
  apply ensures_bind. intros [] w2 _.
  apply ensures_bind. intros c1 w3 _.
  apply ensures_bind. intros [] w4 _.
  apply ensures_bind. intros c w5 E5.
  assert (Hc : c = of_int 0).
  { refine (proj1 (legacy_brake_ramping (outputs w4) (now_us w4) _ _ _ _ _ _ _ _ E5));
      [lia|]. split; [now exists [] | lia]. }
  subst c.
  apply ensures_bind. intros [] w6 _.
  apply ensures_bind, ensures_get_absolute_time. now apply ensures_ret.
Qed.

Lemma legacy_hold_body_stops fuel tow_up_cw a last_nudge (w : world) :
  ensures (Legacy.hold_body env fuel tow_up_cw a last_nudge (of_int 0)) w
    (fun r _ => snd r = of_int 0).
Proof.
  unfold Legacy.hold_body. apply ensures_bind, ensures_read_fg_pulses.
  destruct (_ >? _); [|now apply ensures_ret].
  apply ensures_bind, ensures_get_absolute_time.
  destruct (_ >? _); [apply legacy_nudge_stops | now apply ensures_ret].
Qed.

Lemma legacy_hold_loop hold_ms tow_up_cw a t0 :
  forall fuel last_nudge (w : world),
    ensures (Legacy.hold_loop env fuel hold_ms tow_up_cw a t0 last_nudge (of_int 0)) w
      (fun r w' =>
         fst r = true /\ snd r = of_int 0 /\ t0 + hold_ms * 1000 <= now_us w').
Proof.
  induction fuel as [|fuel IH]; intros last_nudge w; cbn [Legacy.hold_loop].
  - apply ensures_out_of_fuel.
  - apply ensures_bind, ensures_get_absolute_time.
    unfold absolute_time_diff_us.
    destruct (Z.ltb_spec (now_us (advance env w) - t0) (hold_ms * 1000)) as [Hlt|Hge].
    + apply ensures_bind.
      eapply ensures_weaken; [apply legacy_hold_body_stops|].
      intros [ln c] w2 Hc. cbn [fst snd] in Hc |- *. subst c.
      apply ensures_bind. intros [] w3 _. apply IH.
    + apply ensures_ret. cbn [fst snd]. repeat split. lia.
Qed.

(** X28: in the first revision a hold reports nothing but [true]; when
    it returns, at least 200 ms of settling and [hold_ms] of holding have
    passed since the call, and the [current] of the ramp is 0, also after
    nudges. *)
Theorem legacy_hold_lasts_and_ends_braked :
  forall fuel hold_ms tow_up_cw (a : @hold_args F) current (w : world) b c w',
    Legacy.hold_payload_ms env fuel hold_ms tow_up_cw a current w = Some ((b, c), w') ->
    b = true /\ c = of_int 0 /\
    now_us w + 200 * 1000 + hold_ms * 1000 <= now_us w'.
Proof.
  intros fuel hold_ms tow_up_cw a current w b c w' E.
  enough (Hgoal : ensures
            (Legacy.hold_payload_ms env fuel hold_ms tow_up_cw a current) w
            (fun r w' =>
               fst r = true /\ snd r = of_int 0 /\
               now_us w + 200 * 1000 + hold_ms * 1000 <= now_us w'))
    by exact (Hgoal _ _ E).
  unfold Legacy.hold_payload_ms. apply ensures_bind.
  eapply ensures_weaken.
  { apply (legacy_brake_ramping (outputs w) (now_us w)); [lia|].
    split; [now exists [] | lia]. }
  intros c1 w1 [-> [_ Hn1]]. cbv beta.
  apply ensures_bind. intros [] w2 E2. inversion E2; subst w2. clear E2.
  apply ensures_bind, ensures_get_absolute_time.
  apply ensures_bind, ensures_get_absolute_time.
  eapply ensures_weaken; [apply legacy_hold_loop|].
  intros r w3 (Hb & Hc & Hn3). cbv beta. split; [exact Hb|]. split; [exact Hc|].
  rewrite advance_now in Hn3. cbn in Hn3. lia.
Qed.

End LegacyHold.

(* ------------------------------------------------------------------ *)
(** * The functions at work *)

Lemma arrived_one_slip (n i : nat) :
  arrived one_slip i n <= (if (i <=? 40)%nat then 1 else 0).
Proof.
  revert i. induction n as [|n IH]; intros i.
  - cbn [arrived]. destruct (i <=? 40)%nat; lia.
  - cbn [arrived]. specialize (IH (S i)). unfold one_slip at 1. cbn [tick_edges].
    destruct (Nat.eqb_spec i 40) as [->|Hne].
    + change (41 <=? 40)%nat with false in IH. change (40 <=? 40)%nat with true.
      cbv iota in IH |- *. cbn [Z.of_N]. lia.
    + destruct (Nat.leb_spec i 40), (Nat.leb_spec (S i) 40); cbn [Z.of_N]; lia.
Qed.

Lemma move_writes_direction_first_witness :
  exists b w',
    move_meters busy 200 false (lit 6 10) (move_defaults (of_int 100) 60000)
      (@boot Binary32.float32 _) = Some (b, w') /\
    (exists levels,
       outputs w' = map PwmLevel levels ++ DirPin (negb false) :: outputs boot) /\
    last_dir (outputs w') = Some (negb false).
Proof.
  destruct (move_meters busy 200 false (lit 6 10) (move_defaults (of_int 100) 60000)
              (@boot Binary32.float32 _)) as [[b w']|] eqn:E.
  - exists b, w'. split; [reflexivity|].
    apply (move_writes_direction_first busy 200 false (lit 6 10)
             (move_defaults (of_int 100) 60000) boot b w'); [|exact E].
    vm_compute. discriminate.
  - vm_compute in E. discriminate.
Defined.

Lemma pwm_follows_limiter_witness :
  (exists b w',
     move_meters busy 200 false (lit 6 10) (move_defaults (of_int 100) 60000)
       (@boot Binary32.float32 _) = Some (b, w') /\
     pwm_tracks w') /\
  (exists b w',
     hold_payload_ms quiet 300 100 true hold_defaults (@boot Binary32.float32 _)
       = Some (b, w') /\
     pwm_tracks w').
Proof.
  split.
  - destruct (move_meters busy 200 false (lit 6 10) (move_defaults (of_int 100) 60000)
                (@boot Binary32.float32 _)) as [[b w']|] eqn:E.
    + exists b, w'. split; [reflexivity|].
      apply (proj1 (pwm_follows_limiter busy) 200%nat false (lit 6 10)
               (move_defaults (of_int 100) 60000) boot b w'); [|exact E].
      intros Hi. vm_compute in Hi. discriminate.
    + vm_compute in E. discriminate.
  - destruct (hold_payload_ms quiet 300 100 true hold_defaults (@boot Binary32.float32 _))
      as [[b w']|] eqn:E.
    + exists b, w'. split; [reflexivity|].
      apply (proj2 (pwm_follows_limiter quiet) 300%nat 100 true hold_defaults boot b w');
        [|exact E].
      intros Hi. vm_compute in Hi. discriminate.
    + vm_compute in E. discriminate.
Defined.

Lemma move_counts_every_edge_witness :
  exists b w',
    move_meters busy 200 false (lit 6 10) (move_defaults (of_int 100) 60000)
      (@boot Binary32.float32 _) = Some (b, w') /\
    fg_irq_enabled w' = true /\
    (env_pos (@boot Binary32.float32 _) <= env_pos w')%nat /\
    g_fg_pulses w' = wrap32 (arrived busy (env_pos (@boot Binary32.float32 _))
                               (env_pos w' - env_pos (@boot Binary32.float32 _))).
Proof.
  destruct (move_meters busy 200 false (lit 6 10) (move_defaults (of_int 100) 60000)
              (@boot Binary32.float32 _)) as [[b w']|] eqn:E.
  - exists b, w'. split; [reflexivity|].
    apply (move_counts_every_edge busy 200 false (lit 6 10)
             (move_defaults (of_int 100) 60000) boot b w'); [|exact E].
    vm_compute. discriminate.
  - vm_compute in E. discriminate.
Defined.

Lemma brake_lasts_settle_time_witness :
  exists w',
    brake_to_stop quiet (brake_fuel 1 300) 300 cruising = Some (tt, w') /\
    now_us cruising + 300 * 1000 <= now_us w' /\
    target (g_slew w') = clamp_percent (of_int 0) /\
    rate (g_slew w') =
      (if fle (@of_int Binary32.float32 _ 400) (of_int 0) then of_int 1 else of_int 400) /\
    exists levels, outputs w' = map PwmLevel levels ++ outputs cruising.
Proof.
  apply (brake_lasts_settle_time quiet 1 300 (brake_fuel 1 300) cruising).
  - intros i. cbn. lia.
  - apply Nat.le_refl.
Defined.

Lemma hold_lasts_and_ends_stopped_witness :
  exists b w',
    hold_payload_ms quiet 300 100 true hold_defaults (@boot Binary32.float32 _)
      = Some (b, w') /\
    b = true /\
    now_us (@boot Binary32.float32 _) + 200 * 1000 + 100 * 1000 <= now_us w' /\
    initialized (g_slew w') = true /\
    target (g_slew w') = clamp_percent (of_int 0).
Proof.
  destruct (hold_payload_ms quiet 300 100 true hold_defaults (@boot Binary32.float32 _))
    as [[b w']|] eqn:E.
  - exists b, w'. split; [reflexivity|].
    exact (hold_lasts_and_ends_stopped quiet 300 100 true hold_defaults boot b w' E).
  - vm_compute in E. discriminate.
Defined.

Lemma move_success_needs_edges_witness :
  exists w',
    move_meters busy 200 false (lit 6 10) (move_defaults (of_int 100) 60000)
      (@boot Binary32.float32 _) = Some (true, w') /\
    (env_pos (@boot Binary32.float32 _) <= env_pos w')%nat /\
    target_pulses_for_meters (@lit Binary32.float32 _ 6 10)
      <= arrived busy (env_pos (@boot Binary32.float32 _))
           (env_pos w' - env_pos (@boot Binary32.float32 _)).
Proof.
  destruct (move_meters busy 200 false (lit 6 10) (move_defaults (of_int 100) 60000)
              (@boot Binary32.float32 _)) as [[[|] w']|] eqn:E.
  - exists w'. split; [reflexivity|].
    exact (move_success_needs_edges busy 200 false (lit 6 10)
             (move_defaults (of_int 100) 60000) boot w' E).
  - vm_compute in E. discriminate.
  - vm_compute in E. discriminate.
Defined.

Lemma slow_move_fails_by_timeout_only_witness :
  let a := {| cruise_percent := @of_int Binary32.float32 _ 10; timeout_ms := 100;
              padding_m := lit 2 10; padding_speed := of_int 10;
              stall_window_us := 500000 |} in
  exists w',
    move_meters quiet 200 false (lit 6 10) a boot = Some (false, w') /\
    now_us (@boot Binary32.float32 _) + timeout_ms a * 1000 + 300 * 1000 < now_us w'.
Proof.
  intros a.
  destruct (move_meters quiet 200 false (lit 6 10) a boot) as [[[|] w']|] eqn:E.
  - vm_compute in E. discriminate.
  - exists w'. split; [reflexivity|].
    apply (slow_move_fails_by_timeout_only quiet 200 false (lit 6 10) a boot w');
      [vm_compute; reflexivity | vm_compute; reflexivity | exact E].
  - vm_compute in E. discriminate.
Defined.

Lemma hold_within_deadband_never_nudges_witness :
  exists b w',
    hold_payload_ms one_slip 300 1000 true hold_defaults (@boot Binary32.float32 _)
      = Some (b, w') /\
    (exists levels, outputs w' = map PwmLevel levels ++ outputs boot) /\
    g_fg_pulses w' <= deadband_pulses (@hold_defaults Binary32.float32 _).
Proof.
  destruct (hold_payload_ms one_slip 300 1000 true hold_defaults
              (@boot Binary32.float32 _)) as [[b w']|] eqn:E.
  - exists b, w'. split; [reflexivity|].
    apply (hold_within_deadband_never_nudges one_slip 300 1000 true hold_defaults
             boot b w'); [|exact E].
    intros i n. pose proof (arrived_one_slip n i) as Ha.
    cbn [deadband_pulses hold_defaults]. destruct (i <=? 40)%nat; lia.
  - vm_compute in E. discriminate.
Defined.







Lemma move_returns_within_timeout_witness :
  exists b w',
    move_meters quiet (move_fuel 1 100) false (lit 6 10)
      (move_defaults (of_int 100) 100) (@boot Binary32.float32 _) = Some (b, w') /\
    now_us w' <= now_us (@boot Binary32.float32 _) + 100 * 1000 + 300 * 1000 + 18 * 10000.
Proof.
  apply (move_returns_within_timeout quiet 1 10000 (move_fuel 1 100) false (lit 6 10)
           (move_defaults (of_int 100) 100) boot).
  - intros i. cbn. lia.
  - intros i. cbn. lia.
  - cbn. lia.
  - apply Nat.le_refl.
Defined.


Lemma clamp_percent_binary32_witness :
  (SFleb (of_int 0) (clamp_percent (@of_int Binary32.float32 _ 150)) = true /\
   SFleb (clamp_percent (@of_int Binary32.float32 _ 150)) (of_int 100) = true) /\
  clamp_percent (@of_int Binary32.float32 _ 50) = of_int 50.
Proof.
  split.
  - apply (proj1 clamp_percent_binary32). vm_compute. discriminate.
  - apply (proj1 (proj2 clamp_percent_binary32)); vm_compute; reflexivity.
Defined.

Lemma main_cycle_unwinds_then_winds_witness :
  exists w',
    main_cycle busy 400 (@boot Binary32.float32 _) = Some (tt, w') /\
    (exists k, dir_writes (outputs w')
               = repeat false (S k) ++ true :: dir_writes (outputs (@boot Binary32.float32 _))) /\
    now_us (@boot Binary32.float32 _) + 7800 * 1000 <= now_us w'.
Proof.
  destruct (main_cycle busy 400 (@boot Binary32.float32 _)) as [[[] w']|] eqn:E.
  - exists w'. split; [reflexivity|].
    apply (main_cycle_unwinds_then_winds busy 400 boot w'); [|exact E].
    vm_compute. discriminate.
  - vm_compute in E. discriminate.
Defined.

Lemma monitor_lines_add_up_witness :
  exists log total w',
    monitor_fg_for_ms busy fg_low 20 1000 (@boot Binary32.float32 _)
      = Some ((log, total), w') /\
    wrap32 (sum_dp log) = last_pulses log /\
    (log = [] \/ 200 * (Z.of_nat (length log) - 1) < 1000) /\
    (exists levels, outputs w' = map PwmLevel levels ++ outputs (@boot Binary32.float32 _)) /\
    0 <= total < 4294967296 /\
    (initialized (g_slew (@boot Binary32.float32 _)) = true ->
     target (g_slew w') = target (g_slew (@boot Binary32.float32 _)) /\
     rate (g_slew w') = rate (g_slew (@boot Binary32.float32 _))).
Proof.
  destruct (monitor_fg_for_ms busy fg_low 20 1000 (@boot Binary32.float32 _))
    as [[[log total] w']|] eqn:E.
  - exists log, total, w'. split; [reflexivity|].
    exact (monitor_lines_add_up busy fg_low 20 1000 boot log total w' E).
  - vm_compute in E. discriminate.
Defined.

Lemma hand_spin_test_keeps_driver_awake_witness :
  exists log total w',
    fg_hand_spin_test busy fg_low 100 1000 (of_int 3) (of_int 400)
      (@boot Binary32.float32 _) = Some ((log, total), w') /\
    dir_writes (outputs w') = false :: dir_writes (outputs (@boot Binary32.float32 _)) /\
    Forall (fun line => hand_cmd line = clamp_percent (of_int 3)) log /\
    target (g_slew w') = clamp_percent (of_int 0) /\
    now_us (@boot Binary32.float32 _) + 1000 * 1000 + 200 * 1000 <= now_us w'.
Proof.
  destruct (fg_hand_spin_test busy fg_low 100 1000 (of_int 3) (of_int 400)
              (@boot Binary32.float32 _)) as [[[log total] w']|] eqn:E.
  - exists log, total, w'. split; [reflexivity|].
    exact (hand_spin_test_keeps_driver_awake busy fg_low 100 1000 (of_int 3) (of_int 400)
             boot log total w' E).
  - vm_compute in E. discriminate.
Defined.




Lemma legacy_nudge_never_gives_up_witness :
  Legacy.nudge quiet 1000 true hold_defaults (of_int 0) (@boot Binary32.float32 _) = None.
Proof.
  refine (legacy_nudge_never_gives_up quiet hold_defaults true (of_int 0) boot _ _ 1000%nat).
  - intros j _. reflexivity.
  - cbn. lia.
Defined.

Lemma move_never_fails_early_witness :
  exists w',
    move_meters quiet 200 false (lit 6 10) (move_defaults (of_int 100) 60000)
      (@boot Binary32.float32 _) = Some (false, w') /\
    now_us (@boot Binary32.float32 _)
      + Z.min (stall_window_us (@move_defaults Binary32.float32 _ (of_int 100) 60000))
              (timeout_ms (@move_defaults Binary32.float32 _ (of_int 100) 60000) * 1000)
      + 300 * 1000 < now_us w'.
Proof.
  destruct (move_meters quiet 200 false (lit 6 10) (move_defaults (of_int 100) 60000)
              (@boot Binary32.float32 _)) as [[[|] w']|] eqn:E.
  - vm_compute in E. discriminate.
  - exists w'. split; [reflexivity|].
    exact (move_never_fails_early quiet 200 false (lit 6 10)
             (move_defaults (of_int 100) 60000) boot w' E).
  - vm_compute in E. discriminate.
Defined.

Lemma speed_profile_zones_witness :
  let a := @move_defaults Binary32.float32 _ (of_int 100) 60000 in
  let pad := pad_pulses_for 321 (padding_m a) in
  0 <= pad /\ 2 * pad <= 321 /\
  forall now,
    (now < pad -> desired_speed_for a now 321 pad = padding_speed a) /\
    (pad <= now <= 321 - pad -> desired_speed_for a now 321 pad = cruise_percent a) /\
    (0 < pad -> 321 - pad < now -> desired_speed_for a now 321 pad = padding_speed a).
Proof.
  intros a.
  apply (speed_profile_zones a 321).
  - lia.
  - vm_compute. split; [discriminate | reflexivity].
Defined.

Lemma legacy_move_ends_braked_witness :
  exists b c w',
    Legacy.move_meters busy 500 false (lit 3 10) (of_int 100) 60000 (of_int 0)
      (@boot Binary32.float32 _) = Some ((b, c), w') /\
    c = of_int 0 /\
    (exists levels,
       outputs w' = map PwmLevel levels ++ DirPin (negb false) :: outputs boot) /\
    now_us (@boot Binary32.float32 _) + 300 * 1000 <= now_us w'.
Proof.
  destruct (Legacy.move_meters busy 500 false (lit 3 10) (of_int 100) 60000 (of_int 0)
              (@boot Binary32.float32 _)) as [[[b c] w']|] eqn:E.
  - exists b, c, w'. split; [reflexivity|].
    apply (legacy_move_ends_braked busy 500 false (lit 3 10) (of_int 100) 60000 (of_int 0)
             boot b c w'); [|exact E].
    vm_compute. discriminate.
  - vm_compute in E. discriminate.
Defined.

Lemma legacy_hold_lasts_and_ends_braked_witness :
  exists b c w',
    Legacy.hold_payload_ms quiet 50 100 true hold_defaults (of_int 0)
      (@boot Binary32.float32 _) = Some ((b, c), w') /\
    b = true /\ c = of_int 0 /\
    now_us (@boot Binary32.float32 _) + 200 * 1000 + 100 * 1000 <= now_us w'.
Proof.
  destruct (Legacy.hold_payload_ms quiet 50 100 true hold_defaults (of_int 0)
              (@boot Binary32.float32 _)) as [[[b c] w']|] eqn:E.
  - exists b, c, w'. split; [reflexivity|].
    exact (legacy_hold_lasts_and_ends_braked quiet 50 100 true hold_defaults (of_int 0)
             boot b c w' E).
  - vm_compute in E. discriminate.
Defined.
